(** * BeamerPi playlist editor: selection and ordering engine

    A shallow embedding of [app/static/js/playlist_form.js].  The script is one
    [DOMContentLoaded] handler that closes over a handful of DOM elements and
    two module-level variables ([selectedEntryMap], [activePreviewEntry]) and
    registers event listeners.  The embedding keeps that shape:

    - [Page] is the part of the server-rendered document that never changes
      (which elements exist, the catalog entries and their data attributes);
    - [State] is everything the handlers read or write (checkbox states, the
      children of the selected list, the hidden inputs, CSS flags, the two
      script variables, which listeners are registered);
    - every JavaScript function is a Rocq function of the same name that
      passes the state explicitly;
    - a user action is an [Event], and [step] runs the listeners that the
      browser would run for it.

    Strings are byte strings: [toLowerCase] folds the ASCII letters and
    [trim] strips the ASCII white space characters.  Folder expand/collapse,
    focus handling and scrolling do not touch the state above and are left out. *)

From stdpp Require Import base gmap list strings pretty sorting.
From Stdlib Require Import ZArith Ascii.

Set Warnings "-register-all,-clear-no-such-hyp".

(** ** JavaScript strings *)

Module JsString.

Definition truthy (s : string) : bool := negb (String.eqb s "").

(** [a || b] on strings. *)
Definition or_else (a b : string) : string := if truthy a then a else b.

Definition lower_ascii (c : ascii) : ascii :=
  let n := nat_of_ascii c in
  if (65 <=? n)%nat && (n <=? 90)%nat then ascii_of_nat (n + 32) else c.

Fixpoint toLowerCase (s : string) : string :=
  match s with
  | EmptyString => EmptyString
  | String c r => String (lower_ascii c) (toLowerCase r)
  end.

(** TAB, LF, VT, FF, CR and SPACE. *)
Definition is_white (c : ascii) : bool :=
  let n := nat_of_ascii c in
  ((9 <=? n)%nat && (n <=? 13)%nat) || (n =? 32)%nat.

Fixpoint trimStart (s : string) : string :=
  match s with
  | EmptyString => EmptyString
  | String c r => if is_white c then trimStart r else s
  end.

Fixpoint trimEnd (s : string) : string :=
  match s with
  | EmptyString => EmptyString
  | String c r =>
      match trimEnd r with
      | EmptyString => if is_white c then EmptyString else String c EmptyString
      | r' => String c r'
      end
  end.

Definition trim (s : string) : string := trimEnd (trimStart s).

Fixpoint startsWith (s q : string) {struct q} : bool :=
  match q, s with
  | EmptyString, _ => true
  | String _ _, EmptyString => false
  | String a q', String b s' => Ascii.eqb a b && startsWith s' q'
  end.

(** [s.includes(q)] *)
Fixpoint includes (s q : string) : bool :=
  startsWith s q ||
  match s with
  | EmptyString => false
  | String _ r => includes r q
  end.

(** Every character of [s] is white space. *)
Fixpoint all_white (s : string) : bool :=
  match s with
  | EmptyString => true
  | String c r => is_white c && all_white r
  end.

End JsString.
Import JsString.

(** ** Values produced by [JSON.parse] *)

Inductive JSON :=
| JNull
| JBool (b : bool)
| JNum (z : Z)        (* integer literals are all the model needs *)
| JStr (s : string)
| JArr (l : list JSON)
| JObj (kv : list (string * JSON)).

(** Own property lookup on a parsed object; a repeated key keeps its last value. *)
Fixpoint obj_get (k : string) (kv : list (string * JSON)) : option JSON :=
  match kv with
  | [] => None
  | (k', v) :: r =>
      match obj_get k r with
      | Some w => Some w
      | None => if String.eqb k k' then Some v else None
      end
  end.

(** The outcome of reading the property [length] of a value. *)
Inductive PropRead :=
| ReadThrows                 (* TypeError: property access on null *)
| ReadUndefined
| ReadValue (v : JSON).

Definition get_length (v : JSON) : PropRead :=
  match v with
  | JNull => ReadThrows
  | JBool _ | JNum _ => ReadUndefined
  | JStr s => ReadValue (JNum (Z.of_nat (String.length s)))
  | JArr l => ReadValue (JNum (Z.of_nat (length l)))
  | JObj kv =>
      match obj_get "length" kv with
      | Some w => ReadValue w
      | None => ReadUndefined
      end
  end.

(** [x === 0] for the result of a property read. *)
Definition strict_eq_zero (r : PropRead) : bool :=
  match r with
  | ReadValue (JNum z) => (z =? 0)%Z
  | _ => false
  end.

(** The content of the [data-initial-order] attribute of the selected list. *)
Inductive InitialOrderAttr :=
| AttrMissing                         (* attribute absent or the empty string *)
| AttrText (parsed : option JSON).    (* non-empty text; [None]: JSON.parse throws *)

(** ** The document *)

(** A [data-video-entry] element as the server rendered it. *)
Record EntryElement := mkEntryElement {
  data_videoPath : option string;
  data_videoName : option string;
  data_videoSrc : option string;
  has_checkbox : bool                (* an [input[name="videos"]] inside it *)
}.

(** An element of the array [fileEntries]. *)
Record Entry := mkEntry {
  e_checkbox : bool;
  e_path : string;
  e_name : string;
  e_previewSrc : string
}.

Definition dataset (a : option string) : string := default "" a.

Definition mkFileEntry (el : EntryElement) : Entry :=
  {| e_checkbox := has_checkbox el;
     e_path := or_else (dataset (data_videoPath el)) "";
     e_name := or_else (dataset (data_videoName el))
                 (or_else (dataset (data_videoPath el)) "");
     e_previewSrc := or_else (dataset (data_videoSrc el)) "" |}.

Record Page := mkPage {
  has_playlistEditor : bool;
  has_searchInput : bool;
  has_clearButton : bool;
  has_resultsWrapper : bool;
  has_resultsList : bool;
  has_noResultsAlert : bool;
  entryElements : list EntryElement;
  has_selectedList : bool;
  has_selectedEmptyState : bool;
  has_selectedCount : bool;
  has_orderedInputsContainer : bool;
  initialOrderAttr : InitialOrderAttr;
  has_previewModal : bool;
  has_previewVideoEl : bool;         (* a [data-preview-video] inside the modal *)
  has_previewTitleEl : bool
}.

Definition fileEntries (pg : Page) : list Entry := mkFileEntry <$> entryElements pg.

(** [new Map(pairs)]: a later pair with the same key replaces an earlier one. *)
Definition js_map_of {V} (pairs : list (string * V)) : gmap string V :=
  foldl (λ m kv, <[kv.1 := kv.2]> m) ∅ pairs.

(** [fileEntryMap]: entries are identified by their index in [fileEntries]. *)
Definition fileEntryMap (pg : Page) : gmap string nat :=
  js_map_of
    ((λ ie : nat * Entry, (e_path ie.2, ie.1)) <$>
       filter (λ ie : nat * Entry, truthy (e_path ie.2) = true)
              (imap pair (fileEntries pg))).

Definition previewVideo (pg : Page) : bool := has_previewModal pg && has_previewVideoEl pg.
Definition previewTitle (pg : Page) : bool := has_previewModal pg && has_previewTitleEl pg.

(** [selectedListInitialOrder] (lines 33-42). *)
Definition selectedListInitialOrder (pg : Page) : JSON :=
  if negb (has_selectedList pg) then JArr []
  else match initialOrderAttr pg with
       | AttrMissing => JArr []
       | AttrText (Some v) => v
       | AttrText None => JArr []
       end.

(** The data attributes of a [data-preview-trigger] button. *)
Record Trigger := mkTrigger {
  t_videoName : string;
  t_videoSrc : string;
  t_videoPath : string
}.

(** A list item built by [buildSelectedListItem].  [item_node] is the identity
    of the [li] element; [item_entry] is the entry its listeners close over. *)
Record Item := mkItem {
  item_node : nat;
  item_path : string;                (* dataset.selectedVideoItem *)
  item_title : string;
  item_preview : option Trigger;
  item_entry : nat
}.

(** A search result built by [buildResultItem]. *)
Record ResultItem := mkResultItem {
  r_entry : nat;
  r_checked : bool;                  (* mirrorCheckbox.checked *)
  r_text : string;
  r_preview : option Trigger
}.

(** ** Element lists *)

Module Dom.

Definition same_node (a b : Item) : bool := (item_node a =? item_node b)%nat.

(** [it.remove()] *)
Definition detach (it : Item) (l : list Item) : list Item :=
  filter (λ x, same_node x it = false) l.

(** [parent.appendChild(it)]: a node that is already a child is moved. *)
Definition appendChild (l : list Item) (it : Item) : list Item :=
  detach it l ++ [it].

Fixpoint previousElementSibling (l : list Item) (it : Item) : option Item :=
  match l with
  | p :: r =>
      match r with
      | x :: _ => if same_node x it then Some p else previousElementSibling r it
      | [] => None
      end
  | [] => None
  end.

Fixpoint nextElementSibling (l : list Item) (it : Item) : option Item :=
  match l with
  | x :: r => if same_node x it then head r else nextElementSibling r it
  | [] => None
  end.

Fixpoint insert_at (l : list Item) (it ref : Item) : list Item :=
  match l with
  | [] => [it]
  | x :: r => if same_node x ref then it :: x :: r else x :: insert_at r it ref
  end.

(** [parent.insertBefore(it, ref)]; [ref = None] is JavaScript's [null].
    The script only passes siblings of [it] as [ref]. *)
Definition insertBefore (l : list Item) (it : Item) (ref : option Item) : list Item :=
  match ref with
  | None => appendChild l it
  | Some r => insert_at (detach it l) it r
  end.

End Dom.
Import Dom.

(** ** The mutable state *)

(** The selected-videos panel and the script variable [selectedEntryMap]. *)
Record Selection := mkSelection {
  selectedList : list Item;          (* element children of the selected list *)
  selectedEntryMap : gmap string Item;
  orderedInputs : list string;       (* values of the hidden [ordered_videos] inputs *)
  emptyStateHidden : bool;           (* [d-none] on the empty-state element *)
  countLabel : string;               (* text of the count element *)
  upDisabled : gset nat;             (* nodes whose move-up button is disabled *)
  downDisabled : gset nat;
  nextNode : nat                     (* identity of the next created element *)
}.

Record Search := mkSearch {
  searchValue : string;              (* searchInput.value *)
  resultsItems : list ResultItem;    (* children of the results list *)
  wrapperHidden : bool;              (* [d-none] on the results wrapper *)
  listHidden : bool;                 (* [d-none] on the results list *)
  alertHidden : bool                 (* [d-none] on the no-results alert *)
}.

(** The preview modal, the highlight class and [activePreviewEntry]. *)
Record Preview := mkPreview {
  activePreviewEntry : option nat;
  previewActive : gset nat;          (* entries whose element has [preview-active] *)
  modalHidden : bool;
  bodyOverflowHidden : bool;
  videoSrc : option string;
  videoPlaying : bool;
  titleText : string
}.

Record Listeners := mkListeners {
  previewWired : bool;               (* close, backdrop, keydown and trigger clicks *)
  inputWired : bool;                 (* [input] on the search box *)
  changeWired : bool;                (* [change] on the catalog checkboxes *)
  clearWired : bool                  (* [click] on the clear button *)
}.

Record State := mkState {
  checked : gset nat;                (* entries whose checkbox is checked *)
  sel : Selection;
  search : Search;
  preview : Preview;
  wired : Listeners
}.

Definition with_sel (f : Selection → Selection) (s : State) : State :=
  mkState (checked s) (f (sel s)) (search s) (preview s) (wired s).
Definition with_search (f : Search → Search) (s : State) : State :=
  mkState (checked s) (sel s) (f (search s)) (preview s) (wired s).
Definition with_preview (f : Preview → Preview) (s : State) : State :=
  mkState (checked s) (sel s) (search s) (f (preview s)) (wired s).
Definition with_wired (f : Listeners → Listeners) (s : State) : State :=
  mkState (checked s) (sel s) (search s) (preview s) (f (wired s)).
Definition with_checked (f : gset nat → gset nat) (s : State) : State :=
  mkState (f (checked s)) (sel s) (search s) (preview s) (wired s).

Definition set_selectedList (l : list Item) (σ : Selection) : Selection :=
  mkSelection l (selectedEntryMap σ) (orderedInputs σ) (emptyStateHidden σ)
    (countLabel σ) (upDisabled σ) (downDisabled σ) (nextNode σ).

(** [X.disabled = b] for the button of node [n]. *)
Definition set_flag (b : bool) (n : nat) (X : gset nat) : gset nat :=
  if b then X ∪ {[n]} else X ∖ {[n]}.

Definition is_checked (s : State) (i : nat) : bool := bool_decide (i ∈ checked s).

(** [checkbox.checked = b] for the checkbox of entry [i]. *)
Definition set_checked (i : nat) (b : bool) (s : State) : State :=
  with_checked (set_flag b i) s.

(** How a handler ends. *)
Inductive Completion :=
| Normal
| Throws (error : string).

(** ** The selected panel (lines 44-233) *)

Section Script.
Variable pg : Page.

Definition updateSelectedSummary (σ : Selection) : Selection :=
  if negb (has_selectedList pg) then σ
  else
    let itemCount := length (selectedList σ) in
    let hidden :=
      if has_selectedEmptyState pg then bool_decide (0 < itemCount)
      else emptyStateHidden σ in
    let label :=
      if has_selectedCount pg then
        (if bool_decide (itemCount = 1) then "1 Video"
         else pretty itemCount +:+ " Videos")
      else countLabel σ in
    mkSelection (selectedList σ) (selectedEntryMap σ) (orderedInputs σ)
      hidden label (upDisabled σ) (downDisabled σ) (nextNode σ).

(** The body of the [forEach] in [refreshOrderedInputs]: one hidden input per
    item whose path is not empty. *)
Definition ordered_input_values (items : list Item) : list string :=
  filter (λ path, truthy path = true) ((λ it, or_else (item_path it) "") <$> items).

Definition refreshOrderedInputs (σ : Selection) : Selection :=
  if negb (has_orderedInputsContainer pg) || negb (has_selectedList pg) then σ
  else
    mkSelection (selectedList σ) (selectedEntryMap σ)
      (ordered_input_values (selectedList σ))
      (emptyStateHidden σ) (countLabel σ) (upDisabled σ) (downDisabled σ) (nextNode σ).

Definition updateReorderControls (σ : Selection) : Selection :=
  if negb (has_selectedList pg) then σ
  else
    let items := selectedList σ in
    let indexed := imap pair items in
    let up :=
      foldl (λ X (ii : nat * Item), set_flag (ii.1 =? 0)%nat (item_node ii.2) X)
            (upDisabled σ) indexed in
    let down :=
      foldl (λ X (ii : nat * Item),
               set_flag (Z.of_nat ii.1 =? Z.of_nat (length items) - 1)%Z (item_node ii.2) X)
            (downDisabled σ) indexed in
    mkSelection items (selectedEntryMap σ) (orderedInputs σ)
      (emptyStateHidden σ) (countLabel σ) up down (nextNode σ).

Definition moveSelectedItem (item : Item) (direction : Z) (σ : Selection) : Selection :=
  if negb (has_selectedList pg) then σ
  else
    let l := selectedList σ in
    let finish σ' := updateSelectedSummary (updateReorderControls (refreshOrderedInputs σ')) in
    if (direction <? 0)%Z then
      match previousElementSibling l item with
      | None => σ
      | Some previous => finish (set_selectedList (insertBefore l item (Some previous)) σ)
      end
    else if (0 <? direction)%Z then
      match nextElementSibling l item with
      | None => σ
      | Some next =>
          finish (set_selectedList (insertBefore l item (nextElementSibling l next)) σ)
      end
    else finish σ.

Definition buildSelectedListItem (node : nat) (i : nat) (entry : Entry) : Item :=
  {| item_node := node;
     item_path := or_else (e_path entry) "";
     item_title := or_else (e_name entry) (or_else (e_path entry) "");
     item_preview :=
       if truthy (e_previewSrc entry) then
         Some {| t_videoName := or_else (e_name entry) (or_else (e_path entry) "");
                 t_videoPath := or_else (e_path entry) "";
                 t_videoSrc := e_previewSrc entry |}
       else None;
     item_entry := i |}.

(** [syncSelectedEntry(entry)] for the entry at index [i] of [fileEntries]. *)
Definition syncSelectedEntry (i : nat) (s : State) : State :=
  match fileEntries pg !! i with
  | None => s
  | Some entry =>
      if negb (has_selectedList pg) || negb (truthy (e_path entry)) || negb (e_checkbox entry)
      then s
      else
        let σ := sel s in
        let existingItem := selectedEntryMap σ !! e_path entry in
        let σ1 :=
          if is_checked s i then
            match existingItem with
            | None =>
                let item := buildSelectedListItem (nextNode σ) i entry in
                mkSelection (appendChild (selectedList σ) item)
                  (<[e_path entry := item]> (selectedEntryMap σ))
                  (orderedInputs σ) (emptyStateHidden σ) (countLabel σ)
                  (upDisabled σ) (downDisabled σ) (S (nextNode σ))
            | Some _ => σ
            end
          else
            match existingItem with
            | Some it =>
                mkSelection (detach it (selectedList σ))
                  (delete (e_path entry) (selectedEntryMap σ))
                  (orderedInputs σ) (emptyStateHidden σ) (countLabel σ)
                  (upDisabled σ) (downDisabled σ) (nextNode σ)
            | None => σ
            end in
        with_sel (λ _, updateReorderControls (refreshOrderedInputs (updateSelectedSummary σ1))) s
  end.

(** [itemsByPath.get(path)] for an element of the parsed order: only a string
    can be equal to a key. *)
Definition items_get (itemsByPath : gmap string Item) (path : JSON) : option Item :=
  match path with
  | JStr p => itemsByPath !! p
  | _ => None
  end.

Definition itemsByPath_of (items : list Item) : gmap string Item :=
  js_map_of ((λ it, (or_else (item_path it) "", it)) <$> items).

(** The [forEach] of [applyInitialOrder]. *)
Definition apply_order (itemsByPath : gmap string Item) (order : list JSON)
    (l : list Item) : list Item :=
  foldl (λ l path,
           match items_get itemsByPath path with
           | Some item => appendChild l item
           | None => l
           end) l order.

Definition applyInitialOrder (σ : Selection) : Selection * Completion :=
  if negb (has_selectedList pg) then (σ, Normal)
  else
    let order := selectedListInitialOrder pg in
    let finish σ' := updateSelectedSummary (updateReorderControls (refreshOrderedInputs σ')) in
    match get_length order with
    | ReadThrows => (σ, Throws "TypeError")
    | len =>
        if strict_eq_zero len then (finish σ, Normal)
        else
          let itemsByPath := itemsByPath_of (selectedList σ) in
          match order with
          | JArr paths =>
              (finish (set_selectedList (apply_order itemsByPath paths (selectedList σ)) σ),
               Normal)
          | _ => (σ, Throws "TypeError")      (* [forEach] is not a function *)
          end
    end.

(** ** The preview (lines 235-330) *)

Definition highlightPreviewEntry (path : string) (p : Preview) : Preview :=
  if negb (truthy path) then p
  else
    match fileEntryMap pg !! path with
    | None => p
    | Some entry =>
        let classes :=
          match activePreviewEntry p with
          | Some active =>
              if negb (active =? entry)%nat then previewActive p ∖ {[active]}
              else previewActive p
          | None => previewActive p
          end in
        mkPreview (Some entry) (classes ∪ {[entry]}) (modalHidden p)
          (bodyOverflowHidden p) (videoSrc p) (videoPlaying p) (titleText p)
    end.

Definition isPreviewOpen (p : Preview) : bool :=
  has_previewModal pg && negb (modalHidden p).

Definition closePreview (p : Preview) : Preview :=
  if negb (has_previewModal pg) then p
  else
    let src := if previewVideo pg then None else videoSrc p in
    let playing := if previewVideo pg then false else videoPlaying p in
    mkPreview (activePreviewEntry p) (previewActive p) true false src playing (titleText p).

Definition openPreview (videoName videoSrc' videoPath : string) (p : Preview) : Preview :=
  if negb (has_previewModal pg) || negb (previewVideo pg) || negb (truthy videoSrc') then p
  else
    let title :=
      if previewTitle pg then
        (if truthy videoName then "Vorschau: " +:+ videoName else "Vorschau")
      else titleText p in
    let p1 := mkPreview (activePreviewEntry p) (previewActive p) (modalHidden p)
                (bodyOverflowHidden p) (Some videoSrc') (videoPlaying p) title in
    let p2 := highlightPreviewEntry videoPath p1 in
    mkPreview (activePreviewEntry p2) (previewActive p2) false true
      (videoSrc p2) true (titleText p2).

(** A click on a [data-preview-trigger] element: its data attributes and the
    [data-video-path] of the closest enclosing catalog entry, if there is one. *)
Record TriggerClick := mkTriggerClick {
  tc_trigger : Trigger;
  tc_closestEntryPath : option string
}.

Definition onPreviewTriggerClick (c : TriggerClick) (p : Preview) : Preview :=
  let videoName := or_else (t_videoName (tc_trigger c)) "" in
  let videoSrc' := or_else (t_videoSrc (tc_trigger c)) "" in
  let videoPath := or_else (t_videoPath (tc_trigger c)) "" in
  let p1 :=
    if truthy (dataset (tc_closestEntryPath c))
    then highlightPreviewEntry (dataset (tc_closestEntryPath c)) p
    else highlightPreviewEntry videoPath p in
  openPreview videoName videoSrc' videoPath p1.

(** ** The search mirror (lines 394-484) *)

Definition buildResultItem (s : State) (i : nat) (entry : Entry) : ResultItem :=
  {| r_entry := i;
     r_checked := if e_checkbox entry then is_checked s i else false;
     r_text := e_path entry;
     r_preview :=
       if truthy (e_previewSrc entry) then
         Some {| t_videoName := or_else (e_name entry) (e_path entry);
                 t_videoPath := or_else (e_path entry) "";
                 t_videoSrc := e_previewSrc entry |}
       else None |}.

Definition clearResults (q : Search) : Search :=
  mkSearch (searchValue q) [] true (listHidden q)
    (if has_noResultsAlert pg then true else alertHidden q).

(** The entries [updateResults] keeps for an already normalised query. *)
Definition matching (query : string) : list (nat * Entry) :=
  filter (λ ie : nat * Entry, includes (toLowerCase (e_path ie.2)) query = true)
         (imap pair (fileEntries pg)).

Definition updateResults (s : State) : State :=
  let q := search s in
  let query := toLowerCase (trim (or_else (searchValue q) "")) in
  if negb (truthy query) then with_search clearResults s
  else
    let matches := matching query in
    if (length matches =? 0)%nat then
      with_search (λ q, mkSearch (searchValue q) [] false true
                          (if has_noResultsAlert pg then false else alertHidden q)) s
    else
      with_search (λ q, mkSearch (searchValue q)
                          ((λ ie : nat * Entry, buildResultItem s ie.1 ie.2) <$> matches)
                          false false
                          (if has_noResultsAlert pg then true else alertHidden q)) s.

(** ** Listeners and page load (lines 1-12, 294-330, 486-508) *)

(** The [change] listener of the checkbox of entry [i] (lines 490-495). *)
Definition onCheckboxChange (i : nat) (s : State) : State :=
  let s1 := syncSelectedEntry i s in
  if truthy (trim (or_else (searchValue (search s1)) "")) then updateResults s1 else s1.

(** [entry.checkbox.dispatchEvent(new Event('change'))] *)
Definition dispatch_change (i : nat) (s : State) : State :=
  match fileEntries pg !! i with
  | Some entry =>
      if e_checkbox entry && changeWired (wired s) then onCheckboxChange i s else s
  | None => s
  end.

(** The [click] listener of the remove button of an item (lines 174-179). *)
Definition onRemoveClick (item : Item) (s : State) : State :=
  match fileEntries pg !! item_entry item with
  | Some entry =>
      if e_checkbox entry then dispatch_change (item_entry item) (set_checked (item_entry item) false s)
      else s
  | None => s
  end.

(** The [change] listener of a mirror checkbox (lines 406-411); [r] is the
    result item after the browser has flipped its checkbox. *)
Definition onMirrorChange (r : ResultItem) (s : State) : State :=
  match fileEntries pg !! r_entry r with
  | Some entry =>
      if e_checkbox entry then dispatch_change (r_entry r) (set_checked (r_entry r) (r_checked r) s)
      else s
  | None => s
  end.

Definition onClearClick (s : State) : State :=
  with_search (λ q, clearResults (mkSearch "" (resultsItems q) (wrapperHidden q)
                                   (listHidden q) (alertHidden q))) s.

Definition onKeyDown (key : string) (p : Preview) : Preview :=
  if String.eqb key "Escape" && isPreviewOpen p then closePreview p else p.

(** What the user can do. *)
Inductive Event :=
| CheckboxClick (i : nat)            (* the catalog checkbox of entry [i] *)
| MirrorClick (k : nat)              (* the proxy checkbox of the [k]-th search result *)
| RemoveClick (node : nat)           (* the remove button of a selected item *)
| MoveUpClick (node : nat)
| MoveDownClick (node : nat)
| SearchInput (text : string)        (* the search box now reads [text] *)
| ClearClick
| PreviewTriggerClick (c : TriggerClick)
| PreviewCloseClick
| BackdropClick
| KeyDown (key : string).

Definition find_item (node : nat) (l : list Item) : option Item :=
  List.find (λ x, (item_node x =? node)%nat) l.

Definition flip_mirror (r : ResultItem) : ResultItem :=
  mkResultItem (r_entry r) (negb (r_checked r)) (r_text r) (r_preview r).

Definition set_results (l : list ResultItem) (q : Search) : Search :=
  mkSearch (searchValue q) l (wrapperHidden q) (listHidden q) (alertHidden q).

(** The browser's part of an event followed by the listeners registered for it.
    An event on an element that is not in the document does nothing. *)
Definition step (s : State) (ev : Event) : State :=
  match ev with
  | CheckboxClick i =>
      match fileEntries pg !! i with
      | Some entry =>
          if e_checkbox entry
          then dispatch_change i (set_checked i (negb (is_checked s i)) s)
          else s
      | None => s
      end
  | MirrorClick k =>
      match resultsItems (search s) !! k with
      | Some r =>
          let r' := flip_mirror r in
          onMirrorChange r'
            (with_search (λ q, set_results (<[k := r']> (resultsItems q)) q) s)
      | None => s
      end
  | RemoveClick node =>
      match find_item node (selectedList (sel s)) with
      | Some item => onRemoveClick item s
      | None => s
      end
  | MoveUpClick node =>
      match find_item node (selectedList (sel s)) with
      | Some item => with_sel (moveSelectedItem item (-1)) s
      | None => s
      end
  | MoveDownClick node =>
      match find_item node (selectedList (sel s)) with
      | Some item => with_sel (moveSelectedItem item 1) s
      | None => s
      end
  | SearchInput text =>
      if has_searchInput pg then
        let s1 := with_search (λ q, mkSearch text (resultsItems q) (wrapperHidden q)
                                      (listHidden q) (alertHidden q)) s in
        if inputWired (wired s) then updateResults s1 else s1
      else s
  | ClearClick =>
      if has_clearButton pg && clearWired (wired s) then onClearClick s else s
  | PreviewTriggerClick c =>
      if previewWired (wired s) then with_preview (onPreviewTriggerClick c) s else s
  | PreviewCloseClick | BackdropClick =>
      if has_previewModal pg && previewWired (wired s) then with_preview closePreview s else s
  | KeyDown key =>
      if previewWired (wired s) then with_preview (onKeyDown key) s else s
  end.

(** The loop of lines 488-498 over the entries from index [i] on. *)
Fixpoint sync_all (i : nat) (entries : list Entry) (s : State) : State :=
  match entries with
  | [] => s
  | entry :: rest =>
      sync_all (S i) rest (if e_checkbox entry then syncSelectedEntry i s else s)
  end.

(** Lines 31, 235 and 294-330: [selectedEntryMap] starts empty,
    [activePreviewEntry] is [null], the preview listeners are registered. *)
Definition script_start (s0 : State) : State :=
  mkState (checked s0)
    (mkSelection (selectedList (sel s0)) ∅ (orderedInputs (sel s0))
       (emptyStateHidden (sel s0)) (countLabel (sel s0))
       (upDisabled (sel s0)) (downDisabled (sel s0)) (nextNode (sel s0)))
    (search s0)
    (mkPreview None (previewActive (preview s0)) (modalHidden (preview s0))
       (bodyOverflowHidden (preview s0)) (videoSrc (preview s0))
       (videoPlaying (preview s0)) (titleText (preview s0)))
    (mkListeners true false false false).

(** The [DOMContentLoaded] handler, started on the document as the server
    rendered it. *)
Definition DOMContentLoaded (s0 : State) : State * Completion :=
  if negb (has_playlistEditor pg) then (s0, Normal)
  else
    let s1 := script_start s0 in
    if negb (has_searchInput pg) || negb (has_resultsWrapper pg) || negb (has_resultsList pg)
    then (s1, Normal)
    else
      let s2 := with_wired (λ _, mkListeners true true true false) s1 in
      let s3 := sync_all 0 (fileEntries pg) s2 in
      match applyInitialOrder (sel s3) with
      | (σ, Throws e) => (with_sel (λ _, σ) s3, Throws e)
      | (σ, Normal) =>
          (with_wired (λ _, mkListeners true true true (has_clearButton pg))
             (with_sel (λ _, σ) s3), Normal)
      end.

(** The state after page load and a sequence of user actions. *)
Definition run (s0 : State) (evs : list Event) : State :=
  foldl step (DOMContentLoaded s0).1 evs.

End Script.

(** ** Concrete documents *)

Module Samples.

Definition video (path : string) : EntryElement :=
  mkEntryElement (Some path) None None true.

(** A freshly rendered document: [on] are the checked catalog entries. *)
Definition rendered (on : list nat) : State :=
  {| checked := list_to_set on;
     sel := mkSelection [] ∅ [] false "" ∅ ∅ 0;
     search := mkSearch "" [] true false true;
     preview := mkPreview None ∅ true false None false "";
     wired := mkListeners false false false false |}.

(** The full editor page with the given catalog and initial order. *)
Definition editor (entries : list EntryElement) (order : InitialOrderAttr) : Page :=
  {| has_playlistEditor := true;
     has_searchInput := true;
     has_clearButton := true;
     has_resultsWrapper := true;
     has_resultsList := true;
     has_noResultsAlert := true;
     entryElements := entries;
     has_selectedList := true;
     has_selectedEmptyState := true;
     has_selectedCount := true;
     has_orderedInputsContainer := true;
     initialOrderAttr := order;
     has_previewModal := true;
     has_previewVideoEl := true;
     has_previewTitleEl := true |}.

(** The same page without the search box. *)
Definition editor_without_search (entries : list EntryElement) (order : InitialOrderAttr) : Page :=
  {| has_playlistEditor := true;
     has_searchInput := false;
     has_clearButton := false;
     has_resultsWrapper := false;
     has_resultsList := false;
     has_noResultsAlert := false;
     entryElements := entries;
     has_selectedList := true;
     has_selectedEmptyState := true;
     has_selectedCount := true;
     has_orderedInputsContainer := true;
     initialOrderAttr := order;
     has_previewModal := true;
     has_previewVideoEl := true;
     has_previewTitleEl := true |}.

Definition abc : list EntryElement := [video "a"; video "b"; video "c"].

Definition order_c_a : InitialOrderAttr := AttrText (Some (JArr [JStr "c"; JStr "a"])).



(** The items the script builds for the entries of [abc]. *)
Definition item_of (n : nat) (path : string) : Item :=
  buildSelectedListItem n n (mkFileEntry (video path)).

(** The selected panel of [abc] with every entry checked, in encounter order. *)
Definition panel_abc : Selection :=
  sel (DOMContentLoaded (editor abc AttrMissing) (rendered [0; 1; 2])).1.

(** An initial order that parses to an object. *)
Definition order_object : InitialOrderAttr := AttrText (Some (JObj [("a", JNum 1)])).

(** [pg] with another [data-initial-order] attribute. *)
Definition with_order (a : InitialOrderAttr) (pg : Page) : Page :=
  mkPage (has_playlistEditor pg) (has_searchInput pg) (has_clearButton pg)
    (has_resultsWrapper pg) (has_resultsList pg) (has_noResultsAlert pg)
    (entryElements pg) (has_selectedList pg) (has_selectedEmptyState pg)
    (has_selectedCount pg) (has_orderedInputsContainer pg) a
    (has_previewModal pg) (has_previewVideoEl pg) (has_previewTitleEl pg).

End Samples.

Import Samples.


(** * The theme switch (second script of [playlist_form.js], lines 510-594) *)

Module Theme.

(** What the browser offers and which elements the page has. *)
Record Env := mkEnv {
  storageReadable : bool;            (* [localStorage.getItem] does not throw *)
  storageWritable : bool;            (* [localStorage.setItem] does not throw *)
  has_matchMedia : bool;             (* [window.matchMedia] exists *)
  has_addEventListener : bool;       (* on the media query list *)
  has_addListener : bool;
  has_toggleButton : bool;           (* [data-theme-toggle] *)
  has_icon : bool;                   (* [.theme-toggle-icon] inside the button *)
  has_label : bool                   (* [.theme-toggle-label] inside the button *)
}.

Record State := mkState {
  dataTheme : option string;         (* attribute [data-theme] of the root element *)
  colorScheme : string;              (* [style.colorScheme] of the root element *)
  iconText : string;
  labelText : string;
  stored : option string;            (* [localStorage['beamerpi-theme']] *)
  prefersDark : bool;                (* [(prefers-color-scheme: dark)] matches *)
  mediaListening : bool;             (* [handleChange] is registered *)
  clickWired : bool                  (* the click listener of the button is registered *)
}.

Section Script.
Variable env : Env.

Definition applyTheme (theme : string) (s : State) : State :=
  let normalized := if String.eqb theme "dark" then "dark" else "light" in
  let s1 := mkState (Some normalized) normalized (iconText s) (labelText s)
              (stored s) (prefersDark s) (mediaListening s) (clickWired s) in
  if negb (has_toggleButton env) then s1
  else if has_icon env && has_label env then
    (if String.eqb normalized "dark"
     then mkState (dataTheme s1) (colorScheme s1) "🌙" "Dark Mode"
            (stored s1) (prefersDark s1) (mediaListening s1) (clickWired s1)
     else mkState (dataTheme s1) (colorScheme s1) "🌞" "Light Mode"
            (stored s1) (prefersDark s1) (mediaListening s1) (clickWired s1))
  else s1.

(** [null] when reading the storage throws. *)
Definition getStoredTheme (s : State) : option string :=
  if storageReadable env then stored s else None.

Definition rememberTheme (theme : string) (s : State) : State :=
  if storageWritable env then
    mkState (dataTheme s) (colorScheme s) (iconText s) (labelText s)
      (Some theme) (prefersDark s) (mediaListening s) (clickWired s)
  else s.

Definition resolvePreferredTheme (s : State) : string :=
  match getStoredTheme s with
  | Some t =>
      if truthy t then t
      else if has_matchMedia env && prefersDark s then "dark" else "light"
  | None => if has_matchMedia env && prefersDark s then "dark" else "light"
  end.

(** The listener of the media query; [matches] is [event.matches]. *)
Definition handleChange (matches : bool) (s : State) : State :=
  match getStoredTheme s with
  | Some t => if truthy t then s else applyTheme (if matches then "dark" else "light") s
  | None => applyTheme (if matches then "dark" else "light") s
  end.

Definition setupMediaListener (s : State) : State :=
  if negb (has_matchMedia env) then s
  else
    mkState (dataTheme s) (colorScheme s) (iconText s) (labelText s) (stored s)
      (prefersDark s) (has_addEventListener env || has_addListener env) (clickWired s).

Definition DOMContentLoaded (s0 : State) : State :=
  let s1 := setupMediaListener (applyTheme (resolvePreferredTheme s0) s0) in
  mkState (dataTheme s1) (colorScheme s1) (iconText s1) (labelText s1) (stored s1)
    (prefersDark s1) (mediaListening s1) (has_toggleButton env).

(** The click listener of the toggle button (lines 587-591). *)
Definition onToggleClick (s : State) : State :=
  let nextTheme :=
    match dataTheme s with
    | Some t => if String.eqb t "dark" then "light" else "dark"
    | None => "dark"
    end in
  rememberTheme nextTheme (applyTheme nextTheme s).

Inductive Event :=
| ToggleClick
| MediaChange (matches : bool).      (* the system preference changes *)

Definition step (s : State) (ev : Event) : State :=
  match ev with
  | ToggleClick => if has_toggleButton env && clickWired s then onToggleClick s else s
  | MediaChange m =>
      let s1 := mkState (dataTheme s) (colorScheme s) (iconText s) (labelText s)
                  (stored s) m (mediaListening s) (clickWired s) in
      if mediaListening s then handleChange m s1 else s1
  end.

Definition run (s0 : State) (evs : list Event) : State :=
  foldl step (DOMContentLoaded s0) evs.

End Script.

(** A browser with working storage and media queries, a page with the button. *)
Definition modern : Env := mkEnv true true true true true true true true.

(** Private mode: the storage throws on every access. *)
Definition no_storage : Env := mkEnv false false true true true true true true.

Definition blank (saved : option string) (dark : bool) : State :=
  mkState None "" "" "" saved dark false false.

End Theme.

(** * The folder tree (lines 332-392 of [playlist_form.js]) *)

Module Folders.

(** An element of the document that the folder code can reach. *)
Record Element := mkElement {
  in_tree : bool;                    (* matches [.video-tree [data-folder]] *)
  is_folder : bool;                  (* has the class [folder] *)
  toggle : option nat                (* what [querySelector('.folder-toggle')] finds in it *)
}.

Record Page := mkPage {
  has_editor : bool;                 (* [data-playlist-editor] *)
  elements : list Element;           (* in document order *)
  has_expandAll : bool;
  has_collapseAll : bool
}.

Record State := mkState {
  collapsedClass : gset nat;         (* elements with the class [collapsed] *)
  expandedClass : gset nat;          (* elements with the class [expanded] *)
  ariaExpanded : gmap nat bool;      (* [aria-expanded] of the toggles *)
  wired : bool                       (* the listeners are registered *)
}.

Section Script.
Variable pg : Page.

Definition updateFolderState (folder : nat) (expanded : bool) (s : State) : State :=
  match elements pg !! folder with
  | None => s
  | Some el =>
      mkState (set_flag (negb expanded) folder (collapsedClass s))
        (set_flag expanded folder (expandedClass s))
        (match toggle el with
         | Some t => <[t := expanded]> (ariaExpanded s)
         | None => ariaExpanded s
         end)
        (wired s)
  end.

(** [folderElements]: the indices of the tree folders, in document order. *)
Definition folderElements : list nat :=
  (λ ie : nat * Element, ie.1) <$>
    filter (λ ie : nat * Element, in_tree ie.2 = true) (imap pair (elements pg)).

Definition toggle_of (folder : nat) : option nat :=
  el ← elements pg !! folder; toggle el.

(** Lines 342-360: folders without a toggle are skipped. *)
Definition DOMContentLoaded (s0 : State) : State :=
  if negb (has_editor pg) then s0
  else
    let s1 :=
      foldl (λ s folder,
               match toggle_of folder with
               | None => s
               | Some _ => updateFolderState folder false s
               end) s0 folderElements in
    mkState (collapsedClass s1) (expandedClass s1) (ariaExpanded s1) true.

(** The click listener that folder [folder] put on its toggle. *)
Definition onToggle (folder : nat) (s : State) : State :=
  let expanded := bool_decide (folder ∈ collapsedClass s) in
  updateFolderState folder expanded s.

(** All listeners on toggle [t], in the order of their registration.  A
    toggle is taken not to contain another toggle, so that an event on [t]
    reaches the listeners of [t] only. *)
Definition dispatch_toggle (t : nat) (s : State) : State :=
  foldl (λ s folder, if decide (toggle_of folder = Some t) then onToggle folder s else s)
        s folderElements.

Definition setAll (expanded : bool) (s : State) : State :=
  foldl (λ s folder, updateFolderState folder expanded s) s folderElements.

(** [revealEntry]: [ancestors] are the proper ancestors of the entry element,
    innermost first; the loop visits those with the class [folder]. *)
Definition revealEntry (ancestors : list nat) (s : State) : State :=
  foldl (λ s a,
           match elements pg !! a with
           | Some el => if is_folder el then updateFolderState a true s else s
           | None => s
           end) s ancestors.

Inductive Event :=
| ToggleClick (t : nat)
| ToggleKey (t : nat) (key : string)
| ExpandAllClick
| CollapseAllClick
| ShowClick (ancestors : list nat).  (* the reveal button of a search result;
                                        it exists only on a page with a search
                                        box, which this model does not require *)

Definition step (s : State) (ev : Event) : State :=
  if negb (wired s) then s
  else
    match ev with
    | ToggleClick t => dispatch_toggle t s
    | ToggleKey t key =>
        if String.eqb key "Enter" || String.eqb key " " then dispatch_toggle t s else s
    | ExpandAllClick => if has_expandAll pg then setAll true s else s
    | CollapseAllClick => if has_collapseAll pg then setAll false s else s
    | ShowClick ancestors => revealEntry ancestors s
    end.

Definition run (s0 : State) (evs : list Event) : State :=
  foldl step (DOMContentLoaded s0) evs.

End Script.

(** Two top-level folders, the second with a subfolder; each has its toggle. *)
Definition sample : Page :=
  mkPage true
    [mkElement true true (Some 10); mkElement true true (Some 11);
     mkElement true true (Some 12)]
    true true.

Definition unstyled : State := mkState ∅ ∅ ∅ false.

End Folders.

(** * The playlist overview filter ([index.js], lines 59-92) *)

Module PlaylistIndex.

Record Page := mkPage {
  has_filterInput : bool;            (* [data-playlist-filter] *)
  playlistItems : list (option string);   (* [data-playlist-name] of each item *)
  has_emptyMessage : bool;
  has_countBadge : bool
}.

Record State := mkState {
  filterValue : string;              (* value of the filter input *)
  itemHidden : list bool;            (* [d-none] on each item *)
  emptyHidden : bool;                (* [d-none] on the empty message *)
  badgeText : string
}.

Section Script.
Variable pg : Page.

Definition updateCountBadge (visibleCount : nat) (s : State) : State :=
  if negb (has_countBadge pg) then s
  else
    let label := if bool_decide (visibleCount = 1) then "Playlist" else "Playlists" in
    mkState (filterValue s) (itemHidden s) (emptyHidden s)
      (pretty visibleCount +:+ " " +:+ label).

(** [matches] of line 76 for an item. *)
Definition item_matches (query : string) (name : option string) : bool :=
  negb (truthy query) || includes (or_else (dataset name) "") query.

Definition applyFilter (s : State) : State :=
  let query := toLowerCase (trim (if has_filterInput pg then filterValue s else "")) in
  let matches := item_matches query <$> playlistItems pg in
  let visibleCount := length (filter (λ m, m = true) matches) in
  let s1 := mkState (filterValue s) (negb <$> matches)
              (if has_emptyMessage pg then negb (visibleCount =? 0) else emptyHidden s)
              (badgeText s) in
  updateCountBadge visibleCount s1.

(** The user edits the filter input. *)
Definition onInput (text : string) (s : State) : State :=
  if has_filterInput pg then
    applyFilter (mkState text (itemHidden s) (emptyHidden s) (badgeText s))
  else s.

End Script.

(** Three playlists; the second name has a capital letter, the third item
    has no name attribute. *)
Definition sample : Page :=
  mkPage true [Some "abend"; Some "Morgen"; None] true true.


End PlaylistIndex.
(** ** Specification predicates *)

(** The selected list and [selectedEntryMap] describe the same items: element
    identities are distinct and fresh identities are unused, and the map sends
    a path to the item of that path in the list. *)
Record sel_wf (σ : Selection) : Prop := mk_sel_wf {
  wf_nodes : NoDup (item_node <$> selectedList σ);
  wf_fresh : Forall (λ it, item_node it < nextNode σ) (selectedList σ);
  wf_map : ∀ p it,
    selectedEntryMap σ !! p = Some it ↔ it ∈ selectedList σ ∧ item_path it = p
}.

(** The order of the Selection Model: the paths of the items of the panel. *)
Definition selection_order (σ : Selection) : list string :=
  item_path <$> selectedList σ.

(** The three projections in the order [syncSelectedEntry] runs them. *)
Definition project (pg : Page) (σ : Selection) : Selection :=
  updateReorderControls pg (refreshOrderedInputs pg (updateSelectedSummary pg σ)).

(** The flag the last element of [l] with node [n] asks for, if there is one. *)
Definition last_flag {A} (f : A → bool) (g : A → nat) (l : list A) (n : nat) : option bool :=
  foldl (λ o a, if decide (g a = n) then Some (f a) else o) None l.

(** The strings of a parsed order; other values never match a path. *)
Definition listed (order : list JSON) : list string :=
  omap (λ v, match v with JStr p => Some p | _ => None end) order.

(** Every element once, at the place of its last occurrence. *)
Fixpoint keep_last (l : list string) : list string :=
  match l with
  | [] => []
  | x :: r => if decide (x ∈ r) then keep_last r else x :: keep_last r
  end.

(** What moving the item of path [p] to the end does to the list of paths. *)
Definition move_last (p : string) (ps : list string) : list string :=
  filter (λ q, q ≠ p) ps ++ [p].

(** The document has the editor, the selected list and the search surface. *)
Record full_page (pg : Page) : Prop := mk_full_page {
  fp_editor : has_playlistEditor pg = true;
  fp_list : has_selectedList pg = true;
  fp_input : has_searchInput pg = true;
  fp_wrapper : has_resultsWrapper pg = true;
  fp_results : has_resultsList pg = true
}.

(** The server renders the selected panel and the results list empty: their
    items are created by the script only. *)
Definition pristine (s0 : State) : Prop :=
  selectedList (sel s0) = [] ∧ resultsItems (search s0) = [].

(** Catalog identifiers are unique (data model of the Catalog Index). *)
Definition unique_paths (pg : Page) : Prop :=
  ∀ i j ei ej,
    fileEntries pg !! i = Some ei → fileEntries pg !! j = Some ej →
    e_path ei = e_path ej → e_path ei ≠ "" → i = j.

(** [id] is the identifier of a catalog entry whose native toggle is on. *)
Definition toggled_on (pg : Page) (s : State) (id : string) : Prop :=
  ∃ i e, fileEntries pg !! i = Some e ∧ e_path e = id ∧ id ≠ "" ∧
         e_checkbox e = true ∧ is_checked s i = true.

(** An item of the panel is the one [buildSelectedListItem] makes for its
    entry, and that entry has a checkbox and a path. *)
Definition item_built (pg : Page) (it : Item) : Prop :=
  ∃ e, fileEntries pg !! item_entry it = Some e ∧ e_checkbox e = true ∧
       e_path e ≠ "" ∧ it = buildSelectedListItem (item_node it) (item_entry it) e.

Definition InvSel (pg : Page) (σ : Selection) : Prop :=
  sel_wf σ ∧ Forall (item_built pg) (selectedList σ).

(** The hidden inputs spell the order of the panel. *)
Definition InputsOk (σ : Selection) : Prop :=
  orderedInputs σ = selection_order σ.

(** The search box holds a query. *)
Definition searching (q : Search) : bool :=
  truthy (trim (or_else (searchValue q) "")).

(** A proxy checkbox shows the state of the native checkbox it stands for. *)
Definition mirror_synced (pg : Page) (s : State) (r : ResultItem) : Prop :=
  ∀ e, fileEntries pg !! r_entry r = Some e → e_checkbox e = true →
       r_checked r = is_checked s (r_entry r).

Definition InvSearch (pg : Page) (s : State) : Prop :=
  Forall (mirror_synced pg s) (resultsItems (search s)) ∧
  (searching (search s) = false → resultsItems (search s) = []).

(** The invariant of the running page. *)
Record Inv (pg : Page) (s : State) : Prop := mk_Inv {
  inv_sel : InvSel pg (sel s);
  inv_search : InvSearch pg s;
  inv_change : changeWired (wired s) = true;
  inv_input : inputWired (wired s) = true
}.

(** Toggle/selection agreement for the entries before index [k]. *)
Definition InvA_upto (pg : Page) (k : nat) (s : State) : Prop :=
  ∀ i e, i < k → fileEntries pg !! i = Some e → e_checkbox e = true →
         e_path e ≠ "" →
         (is_checked s i = true ↔ e_path e ∈ selection_order (sel s)).

Definition InvA (pg : Page) (s : State) : Prop :=
  InvA_upto pg (length (fileEntries pg)) s.




(** ** Specification predicates for the rest of the scripts *)

(** The three projections in the order [moveSelectedItem] and
    [applyInitialOrder] run them. *)
Definition finish (pg : Page) (σ : Selection) : Selection :=
  updateSelectedSummary pg (updateReorderControls pg (refreshOrderedInputs pg σ)).

(** The move buttons of the panel: up is disabled on the first item only,
    down on the last item only. *)
Definition ControlsOk (σ : Selection) : Prop :=
  ∀ k it, selectedList σ !! k = Some it →
    (item_node it ∈ upDisabled σ ↔ k = 0) ∧
    (item_node it ∈ downDisabled σ ↔ S k = length (selectedList σ)).

(** The count label and the empty-state element describe the panel. *)
Definition SummaryOk (pg : Page) (σ : Selection) : Prop :=
  (has_selectedCount pg = true →
   countLabel σ =
     if bool_decide (length (selectedList σ) = 1) then "1 Video"
     else pretty (length (selectedList σ)) +:+ " Videos") ∧
  (has_selectedEmptyState pg = true →
   emptyStateHidden σ = bool_decide (0 < length (selectedList σ))).

(** The paths of the entries that have a checkbox, a path and are checked in
    [on], in document order; [i] is the index of the first entry. *)
Fixpoint encounter (on : gset nat) (i : nat) (entries : list Entry) : list string :=
  match entries with
  | [] => []
  | e :: rest =>
      (if e_checkbox e && truthy (e_path e) && bool_decide (i ∈ on)
       then [e_path e] else []) ++ encounter on (S i) rest
  end.

(** At most the active entry is highlighted. *)
Definition single_active (p : Preview) : Prop :=
  previewActive p =
  match activePreviewEntry p with Some e => {[e]} | None => ∅ end.

(** The root element shows one of the two themes, and the button agrees. *)
Definition theme_shown (env : Theme.Env) (s : Theme.State) : Prop :=
  (Theme.dataTheme s = Some "dark" ∨ Theme.dataTheme s = Some "light") ∧
  Theme.dataTheme s = Some (Theme.colorScheme s) ∧
  (Theme.has_toggleButton env = true → Theme.has_icon env = true →
   Theme.has_label env = true →
   Theme.labelText s =
     if bool_decide (Theme.dataTheme s = Some "dark") then "Dark Mode" else "Light Mode").

(** The theme that is not [t]. *)
Definition other_theme (t : option string) : option string :=
  if bool_decide (t = Some "dark") then Some "light" else Some "dark".

(** No two elements share a toggle. *)
Definition distinct_toggles (pg : Folders.Page) : Prop :=
  ∀ a b ela elb t,
    Folders.elements pg !! a = Some ela → Folders.elements pg !! b = Some elb →
    Folders.toggle ela = Some t → Folders.toggle elb = Some t → a = b.

(** A folder shows exactly one of its two states, and its toggle announces it. *)
Definition folder_ok (s : Folders.State) (f t : nat) : Prop :=
  (f ∈ Folders.expandedClass s ↔ f ∉ Folders.collapsedClass s) ∧
  Folders.ariaExpanded s !! t = Some (bool_decide (f ∈ Folders.expandedClass s)).

(** The number of items the playlist filter leaves visible. *)
Definition visible_count (s : PlaylistIndex.State) : nat :=
  length (filter (λ h, h = false) (PlaylistIndex.itemHidden s)).

(** [updateFolderState(x, b)] for the elements of [l] that [c] selects. *)
Definition update_where (pg : Folders.Page) (c : nat → bool) (b : bool)
    (l : list nat) (s : Folders.State) : Folders.State :=
  foldl (λ s x, if c x then Folders.updateFolderState pg x b s else s) s l.

(** Element [f] is a tree folder whose toggle is [t]. *)
Definition tree_folder (pg : Folders.Page) (f t : nat) : Prop :=
  ∃ el, Folders.elements pg !! f = Some el ∧ Folders.in_tree el = true ∧
        Folders.toggle el = Some t.

(** * Properties *)

(** ** Strings *)

Lemma truthy_true (s : string) : truthy s = true ↔ s ≠ "".
Proof.
  unfold truthy. destruct (String.eqb_spec s ""); simpl; split; congruence.
Qed.

Lemma truthy_false (s : string) : truthy s = false ↔ s = "".
Proof.
  unfold truthy. destruct (String.eqb_spec s ""); simpl; split; congruence.
Qed.

Lemma or_else_empty (s : string) : or_else s "" = s.
Proof.
  unfold or_else. destruct (truthy s) eqn:E; [done|]. by apply truthy_false in E.
Qed.

Lemma toLowerCase_empty (s : string) : toLowerCase s = "" ↔ s = "".
Proof. destruct s; simpl; split; congruence. Qed.

Lemma truthy_toLowerCase (s : string) : truthy (toLowerCase s) = truthy s.
Proof. by destruct s. Qed.


Lemma toLowerCase_length (a : string) : String.length (toLowerCase a) = String.length a.
Proof. induction a as [|c a IH]; simpl; [done|]. by rewrite IH. Qed.

Lemma trimStart_all_white (s : string) : trimStart s = "" ↔ all_white s = true.
Proof.
  induction s as [|c s IH]; simpl; [done|].
  destruct (is_white c); simpl; [done|]. split; congruence.
Qed.

Lemma trimEnd_empty (s : string) : trimEnd s = "" ↔ all_white s = true.
Proof.
  induction s as [|c s IH]; simpl; [done|].
  destruct (trimEnd s) eqn:E.
  - destruct (is_white c); simpl; [|split; congruence].
    split; [intros _; by apply IH | done].
  - split; [done|]. intros [? H%IH]%andb_prop. done.
Qed.

Lemma all_white_trimStart (s : string) : all_white (trimStart s) = all_white s.
Proof.
  induction s as [|c s IH]; simpl; [done|].
  destruct (is_white c) eqn:E; simpl; [done|]. by rewrite E.
Qed.

(** A query trims to the empty string exactly when it is all white space. *)
Lemma trim_empty (s : string) : trim s = "" ↔ all_white s = true.
Proof. unfold trim. by rewrite trimEnd_empty, all_white_trimStart. Qed.




(** ** Element lists *)

Section DomFacts.
Implicit Types (l : list Item) (x y it : Item).

Lemma same_node_true x y : same_node x y = true ↔ item_node x = item_node y.
Proof. unfold same_node. apply Nat.eqb_eq. Qed.

Lemma same_node_false x y : same_node x y = false ↔ item_node x ≠ item_node y.
Proof. unfold same_node. apply Nat.eqb_neq. Qed.

Lemma same_node_refl x : same_node x x = true.
Proof. by apply same_node_true. Qed.

Lemma detach_app it l1 l2 : detach it (l1 ++ l2) = detach it l1 ++ detach it l2.
Proof. unfold detach. apply filter_app. Qed.

Lemma detach_cons_same it x l :
  item_node x = item_node it → detach it (x :: l) = detach it l.
Proof.
  intros H. unfold detach. rewrite filter_cons_False; [done|].
  apply same_node_true in H. congruence.
Qed.

Lemma detach_cons_other it x l :
  item_node x ≠ item_node it → detach it (x :: l) = x :: detach it l.
Proof.
  intros H. unfold detach. rewrite filter_cons_True; [done|].
  by apply same_node_false.
Qed.

Lemma detach_absent it l :
  item_node it ∉ item_node <$> l → detach it l = l.
Proof.
  induction l as [|x l IH]; [done|]. rewrite fmap_cons, not_elem_of_cons.
  intros [Hne Hni]. rewrite detach_cons_other by done. by rewrite IH.
Qed.

Lemma detach_middle it l1 l2 :
  NoDup (item_node <$> (l1 ++ it :: l2)) → detach it (l1 ++ it :: l2) = l1 ++ l2.
Proof.
  rewrite fmap_app, fmap_cons. intros Hnd.
  apply NoDup_app in Hnd as (_ & Hdisj & [Hni _]%NoDup_cons).
  rewrite detach_app, detach_cons_same by done.
  rewrite !detach_absent; [done|done|].
  intros Hin. apply (Hdisj _ Hin). left.
Qed.

Lemma elem_of_detach y it l : y ∈ detach it l ↔ y ∈ l ∧ item_node y ≠ item_node it.
Proof.
  unfold detach. rewrite list_elem_of_filter, same_node_false. tauto.
Qed.

Lemma previous_sibling_middle l1 p x l2 :
  NoDup (item_node <$> (l1 ++ p :: x :: l2)) →
  previousElementSibling (l1 ++ p :: x :: l2) x = Some p.
Proof.
  induction l1 as [|a l1 IH]; intros Hnd.
  - simpl. by rewrite same_node_refl.
  - rewrite <-app_comm_cons in Hnd |- *. rewrite fmap_cons in Hnd.
    apply NoDup_cons in Hnd as [Ha Hnd].
    cbn [previousElementSibling].
    destruct (l1 ++ p :: x :: l2) as [|b r] eqn:E; [by destruct l1|].
    destruct (same_node b x) eqn:Hb; [|by apply IH].
    apply same_node_true in Hb.
    destruct l1 as [|c l1]; simplify_eq/=.
    + apply NoDup_cons in Hnd as [Hp _]. exfalso. apply Hp. rewrite Hb. left.
    + apply NoDup_cons in Hnd as [Hc _]. exfalso. apply Hc. rewrite Hb.
      rewrite fmap_app, !fmap_cons. apply elem_of_app. right. right. left.
Qed.

Lemma previous_sibling_first x l :
  NoDup (item_node <$> (x :: l)) → previousElementSibling (x :: l) x = None.
Proof.
  rewrite fmap_cons. intros [Hx Hnd]%NoDup_cons.
  assert (∀ l' a, item_node x ∉ item_node <$> l' →
            previousElementSibling (a :: l') x = None) as Hgen.
  { clear Hx Hnd. induction l' as [|b l' IH]; intros a Hni; [done|].
    cbn [previousElementSibling]. rewrite fmap_cons, not_elem_of_cons in Hni.
    destruct Hni as [Hne Hni].
    destruct (same_node b x) eqn:Hb; [apply same_node_true in Hb; congruence|].
    by apply IH. }
  by apply Hgen.
Qed.

Lemma previous_sibling_absent l x :
  item_node x ∉ item_node <$> l → previousElementSibling l x = None.
Proof.
  induction l as [|a l IH]; [done|]. rewrite fmap_cons, not_elem_of_cons.
  intros [Hne Hni]. cbn [previousElementSibling].
  destruct l as [|b l]; [done|].
  pose proof Hni as [Hnb _]%not_elem_of_cons.
  destruct (same_node b x) eqn:Hb; [apply same_node_true in Hb; congruence|].
  by apply IH.
Qed.

Lemma next_sibling_middle l1 x l2 :
  NoDup (item_node <$> (l1 ++ x :: l2)) →
  nextElementSibling (l1 ++ x :: l2) x = head l2.
Proof.
  induction l1 as [|a l1 IH]; intros Hnd.
  - simpl. by rewrite same_node_refl.
  - rewrite <-app_comm_cons in Hnd |- *. rewrite fmap_cons in Hnd.
    apply NoDup_cons in Hnd as [Ha Hnd].
    cbn [nextElementSibling].
    destruct (same_node a x) eqn:Hb; [|by apply IH].
    apply same_node_true in Hb. exfalso. apply Ha. rewrite Hb.
    rewrite fmap_app, fmap_cons. apply elem_of_app. right. left.
Qed.

Lemma next_sibling_absent l x :
  item_node x ∉ item_node <$> l → nextElementSibling l x = None.
Proof.
  induction l as [|a l IH]; [done|]. rewrite fmap_cons, not_elem_of_cons.
  intros [Hne Hni]. cbn [nextElementSibling].
  destruct (same_node a x) eqn:Hb; [apply same_node_true in Hb; congruence|].
  by apply IH.
Qed.

Lemma insert_at_middle l1 ref l2 it :
  item_node ref ∉ item_node <$> l1 →
  insert_at (l1 ++ ref :: l2) it ref = l1 ++ it :: ref :: l2.
Proof.
  induction l1 as [|a l1 IH]; intros Hni.
  - simpl. by rewrite same_node_refl.
  - rewrite fmap_cons, not_elem_of_cons in Hni. destruct Hni as [Hne Hni].
    simpl. destruct (same_node a ref) eqn:Hb.
    + apply same_node_true in Hb. congruence.
    + by rewrite IH.
Qed.

(** Moving an element one place up: the shape of the list before and after. *)
Lemma insertBefore_previous l1 p x l2 :
  NoDup (item_node <$> (l1 ++ p :: x :: l2)) →
  insertBefore (l1 ++ p :: x :: l2) x (Some p) = l1 ++ x :: p :: l2.
Proof.
  intros Hnd. unfold insertBefore.
  replace (l1 ++ p :: x :: l2) with ((l1 ++ [p]) ++ x :: l2) in *
    by (by rewrite <-app_assoc).
  rewrite detach_middle by done. rewrite <-!app_assoc. simpl.
  apply insert_at_middle.
  rewrite <-app_assoc, fmap_app in Hnd. simpl in Hnd.
  apply NoDup_app in Hnd as (_ & Hdisj & _).
  intros Hin. apply (Hdisj _ Hin). left.
Qed.

(** Moving an element one place down. *)
Lemma insertBefore_after_next l1 x n l2 :
  NoDup (item_node <$> (l1 ++ x :: n :: l2)) →
  insertBefore (l1 ++ x :: n :: l2) x
    (nextElementSibling (l1 ++ x :: n :: l2) n) = l1 ++ n :: x :: l2.
Proof.
  intros Hnd.
  replace (nextElementSibling (l1 ++ x :: n :: l2) n) with (head l2).
  2:{ replace (l1 ++ x :: n :: l2) with ((l1 ++ [x]) ++ n :: l2) in *
        by (by rewrite <-app_assoc).
      by rewrite next_sibling_middle. }
  unfold insertBefore. destruct l2 as [|r l2]; simpl.
  - unfold appendChild. rewrite detach_middle by done. by rewrite <-app_assoc.
  - rewrite detach_middle by done.
    replace (l1 ++ n :: r :: l2) with ((l1 ++ [n]) ++ r :: l2)
      by (by rewrite <-app_assoc).
    rewrite insert_at_middle; [by rewrite <-app_assoc|].
    rewrite fmap_app in Hnd. apply NoDup_app in Hnd as (Hl1 & Hdisj & Hr).
    simpl in Hr. apply NoDup_cons in Hr as [_ Hr]. apply NoDup_cons in Hr as [Hn Hr].
    apply NoDup_cons in Hr as [Hrr _].
    rewrite fmap_app, elem_of_app. intros [Hin | Hin].
    + apply (Hdisj _ Hin). simpl. right. right. left.
    + simpl in Hin. apply list_elem_of_singleton in Hin. apply Hn. rewrite <-Hin. left.
Qed.

Lemma appendChild_perm l it : it ∈ l → NoDup (item_node <$> l) → appendChild l it ≡ₚ l.
Proof.
  intros (l1 & l2 & ->)%list_elem_of_split Hnd. unfold appendChild.
  rewrite detach_middle by done.
  rewrite <-app_assoc. apply Permutation_app_head. symmetry. apply Permutation_cons_append.
Qed.

(** Distinct identities: an element of the list is determined by its node. *)
Lemma node_inj l x y :
  NoDup (item_node <$> l) → x ∈ l → y ∈ l → item_node x = item_node y → x = y.
Proof.
  intros Hnd [i Hi]%list_elem_of_lookup [j Hj]%list_elem_of_lookup Heq.
  assert (i = j) as ->; [|congruence].
  eapply NoDup_lookup; [exact Hnd| |]; rewrite list_lookup_fmap, ?Hi, ?Hj; simpl;
    [done | by rewrite Heq].
Qed.

Lemma find_item_Some node l it :
  find_item node l = Some it → it ∈ l ∧ item_node it = node.
Proof.
  unfold find_item. intros H. apply find_some in H as [Hin Heq].
  split; [by apply list_elem_of_In | by apply Nat.eqb_eq].
Qed.

End DomFacts.

(** ** The three projections run after every mutation *)

Section Projections.
Variable pg : Page.
Implicit Types (σ : Selection).

Lemma updateSelectedSummary_list σ :
  selectedList (updateSelectedSummary pg σ) = selectedList σ.
Proof. unfold updateSelectedSummary. by destruct (has_selectedList pg). Qed.

Lemma updateSelectedSummary_map σ :
  selectedEntryMap (updateSelectedSummary pg σ) = selectedEntryMap σ.
Proof. unfold updateSelectedSummary. by destruct (has_selectedList pg). Qed.

Lemma updateSelectedSummary_inputs σ :
  orderedInputs (updateSelectedSummary pg σ) = orderedInputs σ.
Proof. unfold updateSelectedSummary. by destruct (has_selectedList pg). Qed.

Lemma updateSelectedSummary_next σ :
  nextNode (updateSelectedSummary pg σ) = nextNode σ.
Proof. unfold updateSelectedSummary. by destruct (has_selectedList pg). Qed.

Lemma refreshOrderedInputs_list σ :
  selectedList (refreshOrderedInputs pg σ) = selectedList σ.
Proof. unfold refreshOrderedInputs. by destruct (_ || _). Qed.

Lemma refreshOrderedInputs_map σ :
  selectedEntryMap (refreshOrderedInputs pg σ) = selectedEntryMap σ.
Proof. unfold refreshOrderedInputs. by destruct (_ || _). Qed.

Lemma refreshOrderedInputs_next σ :
  nextNode (refreshOrderedInputs pg σ) = nextNode σ.
Proof. unfold refreshOrderedInputs. by destruct (_ || _). Qed.

Lemma refreshOrderedInputs_inputs σ :
  has_orderedInputsContainer pg = true → has_selectedList pg = true →
  orderedInputs (refreshOrderedInputs pg σ) = ordered_input_values (selectedList σ).
Proof. unfold refreshOrderedInputs. by intros -> ->. Qed.

Lemma updateReorderControls_list σ :
  selectedList (updateReorderControls pg σ) = selectedList σ.
Proof. unfold updateReorderControls. by destruct (has_selectedList pg). Qed.

Lemma updateReorderControls_map σ :
  selectedEntryMap (updateReorderControls pg σ) = selectedEntryMap σ.
Proof. unfold updateReorderControls. by destruct (has_selectedList pg). Qed.

Lemma updateReorderControls_inputs σ :
  orderedInputs (updateReorderControls pg σ) = orderedInputs σ.
Proof. unfold updateReorderControls. by destruct (has_selectedList pg). Qed.

Lemma updateReorderControls_next σ :
  nextNode (updateReorderControls pg σ) = nextNode σ.
Proof. unfold updateReorderControls. by destruct (has_selectedList pg). Qed.

(** When every item has a path, the hidden inputs list the paths in order. *)
Lemma ordered_input_values_paths (l : list Item) :
  Forall (λ it, truthy (item_path it) = true) l →
  ordered_input_values l = item_path <$> l.
Proof.
  unfold ordered_input_values. induction 1 as [|it l Hit _ IH]; [done|].
  rewrite !fmap_cons, or_else_empty, filter_cons_True by done. by rewrite IH.
Qed.

End Projections.

Create Rewrite HintDb proj.
#[local] Hint Rewrite
  updateSelectedSummary_list updateSelectedSummary_map updateSelectedSummary_inputs
  updateSelectedSummary_next refreshOrderedInputs_list refreshOrderedInputs_map
  refreshOrderedInputs_next updateReorderControls_list updateReorderControls_map
  updateReorderControls_inputs updateReorderControls_next : proj.

(** ** Reordering (C7) *)

Section Move.
Variable pg : Page.
Hypothesis list_present : has_selectedList pg = true.

Lemma moveSelectedItem_up_list σ l1 p x l2 :
  NoDup (item_node <$> selectedList σ) →
  selectedList σ = l1 ++ p :: x :: l2 →
  selectedList (moveSelectedItem pg x (-1) σ) = l1 ++ x :: p :: l2.
Proof.
  intros Hnd Hl. unfold moveSelectedItem. rewrite list_present. simpl.
  rewrite Hl in Hnd |- *. rewrite previous_sibling_middle by done.
  autorewrite with proj. simpl. by apply insertBefore_previous.
Qed.

Lemma moveSelectedItem_down_list σ l1 x n l2 :
  NoDup (item_node <$> selectedList σ) →
  selectedList σ = l1 ++ x :: n :: l2 →
  selectedList (moveSelectedItem pg x 1 σ) = l1 ++ n :: x :: l2.
Proof.
  intros Hnd Hl. unfold moveSelectedItem. rewrite list_present. simpl.
  rewrite Hl in Hnd |- *. rewrite (next_sibling_middle l1 x (n :: l2)) by done. simpl.
  autorewrite with proj. simpl. by apply insertBefore_after_next.
Qed.

Lemma moveSelectedItem_first_up σ x l :
  NoDup (item_node <$> selectedList σ) →
  selectedList σ = x :: l → moveSelectedItem pg x (-1) σ = σ.
Proof.
  intros Hnd Hl. unfold moveSelectedItem. rewrite list_present. simpl.
  rewrite Hl in Hnd |- *. by rewrite previous_sibling_first.
Qed.

Lemma moveSelectedItem_last_down σ x l :
  NoDup (item_node <$> selectedList σ) →
  selectedList σ = l ++ [x] → moveSelectedItem pg x 1 σ = σ.
Proof.
  intros Hnd Hl. unfold moveSelectedItem. rewrite list_present. simpl.
  rewrite Hl in Hnd |- *. by rewrite next_sibling_middle.
Qed.

Lemma moveSelectedItem_map σ x d :
  selectedEntryMap (moveSelectedItem pg x d σ) = selectedEntryMap σ.
Proof.
  unfold moveSelectedItem. rewrite list_present. simpl.
  repeat case_match; autorewrite with proj; done.
Qed.

Lemma moveSelectedItem_next σ x d :
  nextNode (moveSelectedItem pg x d σ) = nextNode σ.
Proof.
  unfold moveSelectedItem. rewrite list_present. simpl.
  repeat case_match; autorewrite with proj; done.
Qed.

Lemma moveSelectedItem_perm σ x d :
  NoDup (item_node <$> selectedList σ) →
  x ∈ selectedList σ → d = (-1)%Z ∨ d = 1%Z →
  selectedList (moveSelectedItem pg x d σ) ≡ₚ selectedList σ.
Proof.
  intros Hnd (l1 & l2 & Hl)%list_elem_of_split [-> | ->].
  - destruct (decide (l1 = [])) as [-> | Hne].
    + by rewrite (moveSelectedItem_first_up σ x l2).
    + destruct (exists_last Hne) as (l1' & p & ->).
      rewrite <-app_assoc in Hl. simpl in Hl.
      rewrite (moveSelectedItem_up_list σ l1' p x l2), Hl by done.
      apply Permutation_app_head, perm_swap.
  - destruct l2 as [|n l2].
    + by rewrite (moveSelectedItem_last_down σ x l1).
    + rewrite (moveSelectedItem_down_list σ l1 x n l2), Hl by done.
      apply Permutation_app_head, perm_swap.
Qed.

(** C7: [moveSelectedItem(item, -1)] exchanges the item with its immediate
    predecessor and [moveSelectedItem(item, +1)] with its immediate successor,
    every other item keeping its place; the first item moved up and the last
    item moved down leave the whole panel, hidden inputs included, as it was;
    in every case the list keeps the same items and the map is untouched. *)
Theorem moveSelectedItem_swaps_adjacent (σ : Selection) :
  NoDup (item_node <$> selectedList σ) →
  (∀ l1 p x l2, selectedList σ = l1 ++ p :: x :: l2 →
     selectedList (moveSelectedItem pg x (-1) σ) = l1 ++ x :: p :: l2) ∧
  (∀ l1 x n l2, selectedList σ = l1 ++ x :: n :: l2 →
     selectedList (moveSelectedItem pg x 1 σ) = l1 ++ n :: x :: l2) ∧
  (∀ x l, selectedList σ = x :: l → moveSelectedItem pg x (-1) σ = σ) ∧
  (∀ x l, selectedList σ = l ++ [x] → moveSelectedItem pg x 1 σ = σ) ∧
  (∀ x d, x ∈ selectedList σ → d = (-1)%Z ∨ d = 1%Z →
     selectedList (moveSelectedItem pg x d σ) ≡ₚ selectedList σ ∧
     selectedEntryMap (moveSelectedItem pg x d σ) = selectedEntryMap σ).
Proof.
  intros Hnd. repeat split.
  - intros. by apply moveSelectedItem_up_list.
  - intros. by apply moveSelectedItem_down_list.
  - intros. by eapply moveSelectedItem_first_up.
  - intros. by eapply moveSelectedItem_last_down.
  - by apply moveSelectedItem_perm.
  - apply moveSelectedItem_map.
Qed.

End Move.

(** ** Button flags *)

Section Flags.
Context {A : Type} (f : A → bool) (g : A → nat).

Lemma elem_of_set_flag (b : bool) (n m : nat) (X : gset nat) :
  m ∈ set_flag b n X ↔ (if decide (n = m) then b = true else m ∈ X).
Proof.
  unfold set_flag. destruct b.
  - rewrite elem_of_union, elem_of_singleton. case_decide; naive_solver.
  - rewrite elem_of_difference, elem_of_singleton. case_decide; naive_solver.
Qed.

Lemma elem_of_set_flags (l : list A) (X : gset nat) (n : nat) :
  n ∈ foldl (λ X a, set_flag (f a) (g a) X) X l ↔
  match last_flag f g l n with Some b => b = true | None => n ∈ X end.
Proof.
  unfold last_flag. induction l as [|a l IH] using rev_ind; [done|].
  rewrite !foldl_app. simpl.
  rewrite elem_of_set_flag. by case_decide.
Qed.

Lemma set_flags_idem (l : list A) (X : gset nat) :
  foldl (λ X a, set_flag (f a) (g a) X) (foldl (λ X a, set_flag (f a) (g a) X) X l) l =
  foldl (λ X a, set_flag (f a) (g a) X) X l.
Proof.
  apply set_eq. intros n. rewrite !elem_of_set_flags.
  destruct (last_flag f g l n) eqn:E; [done|]. by rewrite elem_of_set_flags, E.
Qed.

End Flags.

Lemma filter_eq_absent (l : list string) (x : string) :
  x ∉ l → filter (λ p, p = x) l = [].
Proof.
  induction l as [|y l IH]; [done|]. intros [Hne Hni]%not_elem_of_cons.
  rewrite filter_cons_False by congruence. by apply IH.
Qed.

Lemma once_in_NoDup (l : list string) (x : string) :
  NoDup l → x ∈ l → length (filter (λ p, p = x) l) = 1.
Proof.
  induction 1 as [|y l Hy Hnd IH]; [by intros ?%elem_of_nil|].
  intros [-> | Hin]%elem_of_cons.
  - rewrite filter_cons_True by done. by rewrite filter_eq_absent.
  - rewrite filter_cons_False; [by apply IH|]. intros ->. done.
Qed.

(** ** Adding and removing items (C6) *)

Section Sync.
Variable pg : Page.
Hypothesis list_present : has_selectedList pg = true.
Implicit Types (σ : Selection) (s : State).

Lemma project_list σ : selectedList (project pg σ) = selectedList σ.
Proof. unfold project. by autorewrite with proj. Qed.

Lemma project_map σ : selectedEntryMap (project pg σ) = selectedEntryMap σ.
Proof. unfold project. by autorewrite with proj. Qed.

Lemma project_next σ : nextNode (project pg σ) = nextNode σ.
Proof. unfold project. by autorewrite with proj. Qed.

Lemma project_unfold σ :
  project pg σ =
  let items := selectedList σ in
  mkSelection items (selectedEntryMap σ)
    (if has_orderedInputsContainer pg then ordered_input_values items else orderedInputs σ)
    (if has_selectedEmptyState pg then bool_decide (0 < length items)
     else emptyStateHidden σ)
    (if has_selectedCount pg then
       (if bool_decide (length items = 1) then "1 Video"
        else pretty (length items) +:+ " Videos")
     else countLabel σ)
    (foldl (λ X (ii : nat * Item), set_flag (ii.1 =? 0)%nat (item_node ii.2) X)
       (upDisabled σ) (imap pair items))
    (foldl (λ X (ii : nat * Item),
              set_flag (Z.of_nat ii.1 =? Z.of_nat (length items) - 1)%Z (item_node ii.2) X)
       (downDisabled σ) (imap pair items))
    (nextNode σ).
Proof.
  unfold project, updateReorderControls. rewrite list_present. simpl.
  unfold refreshOrderedInputs. rewrite list_present, orb_false_r.
  unfold updateSelectedSummary. rewrite list_present. simpl.
  by destruct (has_orderedInputsContainer pg).
Qed.

(** The projections are functions of the list: running them twice changes nothing. *)
Lemma project_idem σ : project pg (project pg σ) = project pg σ.
Proof.
  rewrite (project_unfold (project pg σ)). rewrite !project_unfold. simpl.
  f_equal; try apply set_flags_idem.
  - by destruct (has_orderedInputsContainer pg).
  - by destruct (has_selectedEmptyState pg).
  - by destruct (has_selectedCount pg).
Qed.

Lemma project_wf σ : sel_wf σ → sel_wf (project pg σ).
Proof.
  intros [H1 H2 H3]. split; rewrite ?project_list, ?project_next, ?project_map; done.
Qed.

Lemma sel_wf_paths σ : sel_wf σ → NoDup (selection_order σ).
Proof.
  intros [Hnd _ Hmap]. unfold selection_order. apply NoDup_alt.
  intros i j p Hi Hj.
  apply list_lookup_fmap_Some in Hi as (it1 & -> & Hi).
  apply list_lookup_fmap_Some in Hj as (it2 & Hp & Hj).
  assert (it1 = it2) as <-.
  { assert (selectedEntryMap σ !! item_path it1 = Some it1) as E1
      by (apply Hmap; split; [by eapply list_elem_of_lookup_2|done]).
    assert (selectedEntryMap σ !! item_path it1 = Some it2) as E2
      by (apply Hmap; split; [by eapply list_elem_of_lookup_2|done]).
    congruence. }
  apply (NoDup_lookup _ i j (item_node it1) Hnd); rewrite list_lookup_fmap.
  - by rewrite Hi.
  - by rewrite Hj.
Qed.

Lemma sel_wf_absent σ p :
  sel_wf σ → selectedEntryMap σ !! p = None → p ∉ selection_order σ.
Proof.
  intros [_ _ Hmap] Hnone (it & -> & Hin)%list_elem_of_fmap.
  assert (selectedEntryMap σ !! item_path it = Some it) by (by apply Hmap). congruence.
Qed.

Section Entry.
Variables (i : nat) (e : Entry).
Hypothesis entry_i : fileEntries pg !! i = Some e.
Hypothesis entry_checkbox : e_checkbox e = true.
Hypothesis entry_path : e_path e ≠ "".

Lemma syncSelectedEntry_unfold s :
  syncSelectedEntry pg i s =
  with_sel (λ _, project pg
    (if is_checked s i then
       match selectedEntryMap (sel s) !! e_path e with
       | None =>
           mkSelection
             (appendChild (selectedList (sel s)) (buildSelectedListItem (nextNode (sel s)) i e))
             (<[e_path e := buildSelectedListItem (nextNode (sel s)) i e]> (selectedEntryMap (sel s)))
             (orderedInputs (sel s)) (emptyStateHidden (sel s)) (countLabel (sel s))
             (upDisabled (sel s)) (downDisabled (sel s)) (S (nextNode (sel s)))
       | Some _ => sel s
       end
     else
       match selectedEntryMap (sel s) !! e_path e with
       | Some it =>
           mkSelection (detach it (selectedList (sel s)))
             (delete (e_path e) (selectedEntryMap (sel s)))
             (orderedInputs (sel s)) (emptyStateHidden (sel s)) (countLabel (sel s))
             (upDisabled (sel s)) (downDisabled (sel s)) (nextNode (sel s))
       | None => sel s
       end)) s.
Proof.
  unfold syncSelectedEntry. rewrite entry_i, list_present, entry_checkbox.
  apply truthy_true in entry_path. rewrite entry_path. done.
Qed.

Lemma buildSelectedListItem_path n : item_path (buildSelectedListItem n i e) = e_path e.
Proof. simpl. apply or_else_empty. Qed.

Lemma fresh_absent σ :
  sel_wf σ → nextNode σ ∉ item_node <$> selectedList σ.
Proof.
  intros [_ Hfresh _] (it & Heq & Hin)%list_elem_of_fmap.
  rewrite Forall_forall in Hfresh. specialize (Hfresh _ Hin). lia.
Qed.

(** Toggle on, not yet present: the new item goes to the end. *)
Lemma syncSelectedEntry_add s :
  sel_wf (sel s) → is_checked s i = true →
  selectedEntryMap (sel s) !! e_path e = None →
  selectedList (sel (syncSelectedEntry pg i s)) =
    selectedList (sel s) ++ [buildSelectedListItem (nextNode (sel s)) i e] ∧
  selectedEntryMap (sel (syncSelectedEntry pg i s)) =
    <[e_path e := buildSelectedListItem (nextNode (sel s)) i e]> (selectedEntryMap (sel s)).
Proof.
  intros Hwf Hon Hnone. rewrite syncSelectedEntry_unfold, Hon, Hnone. simpl.
  rewrite project_list, project_map. simpl. split; [|done].
  unfold appendChild. rewrite detach_absent; [done|]. by apply fresh_absent.
Qed.

(** Toggle off, present: the item leaves the list, the others stay in order. *)
Lemma syncSelectedEntry_remove s it :
  sel_wf (sel s) → is_checked s i = false →
  selectedEntryMap (sel s) !! e_path e = Some it →
  (∃ l1 l2, selectedList (sel s) = l1 ++ it :: l2 ∧
            selectedList (sel (syncSelectedEntry pg i s)) = l1 ++ l2) ∧
  selectedEntryMap (sel (syncSelectedEntry pg i s)) = delete (e_path e) (selectedEntryMap (sel s)).
Proof.
  intros Hwf Hoff Hsome. rewrite syncSelectedEntry_unfold, Hoff, Hsome. simpl.
  rewrite project_list, project_map. simpl. split; [|done].
  destruct Hwf as [Hnd _ Hmap]. apply Hmap in Hsome as [Hin _].
  apply list_elem_of_split in Hin as (l1 & l2 & Hl). exists l1, l2. split; [done|].
  rewrite Hl in Hnd |- *. by apply detach_middle.
Qed.

(** The state already matches the toggle: the model is left alone. *)
Lemma syncSelectedEntry_same s :
  is_checked s i = bool_decide (is_Some (selectedEntryMap (sel s) !! e_path e)) →
  selectedList (sel (syncSelectedEntry pg i s)) = selectedList (sel s) ∧
  selectedEntryMap (sel (syncSelectedEntry pg i s)) = selectedEntryMap (sel s) ∧
  nextNode (sel (syncSelectedEntry pg i s)) = nextNode (sel s).
Proof.
  intros Hsame. rewrite syncSelectedEntry_unfold, Hsame. simpl.
  rewrite project_list, project_map, project_next.
  destruct (selectedEntryMap (sel s) !! e_path e) eqn:E; simpl; done.
Qed.

Lemma syncSelectedEntry_checked s : checked (syncSelectedEntry pg i s) = checked s.
Proof. by rewrite syncSelectedEntry_unfold. Qed.

(** After a call the map agrees with the toggle. *)
Lemma syncSelectedEntry_agrees s :
  is_checked s i =
  bool_decide (is_Some (selectedEntryMap (sel (syncSelectedEntry pg i s)) !! e_path e)).
Proof.
  rewrite syncSelectedEntry_unfold. simpl. rewrite project_map.
  destruct (is_checked s i) eqn:Hon;
    destruct (selectedEntryMap (sel s) !! e_path e) eqn:E; simpl.
  - by rewrite E.
  - by rewrite lookup_insert_eq.
  - by rewrite lookup_delete_eq.
  - by rewrite E.
Qed.

Lemma syncSelectedEntry_idem s :
  syncSelectedEntry pg i (syncSelectedEntry pg i s) = syncSelectedEntry pg i s.
Proof.
  pose proof (syncSelectedEntry_agrees s) as Hag.
  rewrite (syncSelectedEntry_unfold (syncSelectedEntry pg i s)).
  unfold is_checked in *. rewrite syncSelectedEntry_checked, Hag.
  destruct (selectedEntryMap (sel (syncSelectedEntry pg i s)) !! e_path e) eqn:E; simpl.
  all: rewrite syncSelectedEntry_unfold; unfold with_sel; simpl; by rewrite project_idem.
Qed.

Lemma syncSelectedEntry_wf s : sel_wf (sel s) → sel_wf (sel (syncSelectedEntry pg i s)).
Proof.
  intros Hwf. rewrite syncSelectedEntry_unfold. simpl. apply project_wf.
  destruct (is_checked s i); destruct (selectedEntryMap (sel s) !! e_path e) as [it|] eqn:E;
    try done.
  - pose proof (fresh_absent _ Hwf) as Hfr. destruct Hwf as [Hnd Hfresh Hmap].
    split; simpl; unfold appendChild; rewrite detach_absent by done.
    + rewrite fmap_app. apply NoDup_app. split; [done|]. split.
      * intros x Hx ->%list_elem_of_singleton. done.
      * apply NoDup_singleton.
    + apply Forall_app. split.
      * eapply Forall_impl; [exact Hfresh|]. simpl. lia.
      * apply Forall_singleton. simpl. lia.
    + intros p it'. rewrite elem_of_app, list_elem_of_singleton.
      destruct (decide (e_path e = p)) as [<- | Hne].
      * rewrite lookup_insert_eq. split.
        -- intros [= <-]. split; [by right | apply or_else_empty].
        -- intros [[Hin | ->] Hp]; [|done].
           assert (selectedEntryMap (sel s) !! e_path e = Some it') by (by apply Hmap).
           congruence.
      * rewrite lookup_insert_ne by done. rewrite Hmap. split; [naive_solver|].
        intros [[Hin | ->] Hp]; [done|]. simpl in Hp. rewrite or_else_empty in Hp. done.
  - destruct Hwf as [Hnd Hfresh Hmap].
    pose proof E as [Hin Hp]%Hmap.
    apply list_elem_of_split in Hin as (l1 & l2 & Hl).
    split; simpl.
    + rewrite Hl in Hnd |- *. rewrite detach_middle by done.
      rewrite fmap_app in Hnd |- *. rewrite fmap_cons in Hnd.
      apply NoDup_app in Hnd as (? & Hdisj & [? ?]%NoDup_cons).
      apply NoDup_app. split; [done|]. split; [|done].
      intros x Hx Hx'. apply (Hdisj x Hx). by right.
    + rewrite Forall_forall in Hfresh |- *. intros x [Hx _]%elem_of_detach. by apply Hfresh.
    + intros p it'. rewrite elem_of_detach.
      destruct (decide (e_path e = p)) as [<- | Hne].
      * rewrite lookup_delete_eq. split; [done|]. intros [[Hin' Hnode] Hp'].
        assert (selectedEntryMap (sel s) !! e_path e = Some it') by (by apply Hmap).
        congruence.
      * rewrite lookup_delete_ne by done. rewrite Hmap. split; [|naive_solver].
        intros [Hin' Hp']. split; [|done]. split; [done|]. intros Hnode.
        assert (it' = it) as ->; [|congruence].
        apply (node_inj (selectedList (sel s))); try done.
        rewrite Hl. apply elem_of_app. right. left.
Qed.

Lemma syncSelectedEntry_present s :
  sel_wf (sel s) → is_checked s i = true →
  e_path e ∈ selection_order (sel (syncSelectedEntry pg i s)).
Proof.
  intros Hwf Hon. pose proof (syncSelectedEntry_agrees s) as Hag.
  rewrite Hon in Hag. symmetry in Hag. apply bool_decide_eq_true in Hag as [it Hit].
  apply (wf_map _ (syncSelectedEntry_wf s Hwf)) in Hit as [Hin Hp].
  unfold selection_order. rewrite <-Hp. by apply list_elem_of_fmap_2.
Qed.

(** C6: [syncSelectedEntry] for a catalog entry with a checkbox and a path.
    Checked and not yet listed: its freshly built item is appended after the
    items already selected, which keep their order.  Unchecked and listed: its
    item leaves the list and the map, the other items keep their order.  If
    the list already agrees with the checkbox, list and map are left alone.
    A second call changes nothing at all, and after checking an entry, however
    often the change is delivered, its path occurs exactly once. *)
Theorem syncSelectedEntry_toggle (s : State) :
  sel_wf (sel s) →
  let s' := syncSelectedEntry pg i s in
  let item := buildSelectedListItem (nextNode (sel s)) i e in
  (is_checked s i = true → selectedEntryMap (sel s) !! e_path e = None →
     selectedList (sel s') = selectedList (sel s) ++ [item] ∧
     selectedEntryMap (sel s') !! e_path e = Some item) ∧
  (is_checked s i = false → ∀ it, selectedEntryMap (sel s) !! e_path e = Some it →
     (∃ l1 l2, selectedList (sel s) = l1 ++ it :: l2 ∧
               selectedList (sel s') = l1 ++ l2) ∧
     selectedEntryMap (sel s') !! e_path e = None ∧
     e_path e ∉ selection_order (sel s')) ∧
  (is_checked s i = bool_decide (is_Some (selectedEntryMap (sel s) !! e_path e)) →
     selectedList (sel s') = selectedList (sel s) ∧
     selectedEntryMap (sel s') = selectedEntryMap (sel s)) ∧
  syncSelectedEntry pg i s' = s' ∧
  (is_checked s i = true →
     length (filter (λ p, p = e_path e)
               (selection_order (sel (syncSelectedEntry pg i s')))) = 1).
Proof.
  intros Hwf s' item. pose proof (syncSelectedEntry_wf s Hwf) as Hwf'.
  split; [|split; [|split; [|split]]].
  - intros Hon Hnone. destruct (syncSelectedEntry_add s Hwf Hon Hnone) as [Hl Hm].
    split; [done|]. subst s'. by rewrite Hm, lookup_insert_eq.
  - intros Hoff it Hit. destruct (syncSelectedEntry_remove s it Hwf Hoff Hit) as [Hl Hm].
    split; [done|].
    assert (selectedEntryMap (sel s') !! e_path e = None) as Hnone
      by (subst s'; by rewrite Hm, lookup_delete_eq).
    split; [done|]. by apply sel_wf_absent.
  - intros Hsame. destruct (syncSelectedEntry_same s Hsame) as (? & ? & ?). done.
  - apply syncSelectedEntry_idem.
  - intros Hon. subst s'. rewrite syncSelectedEntry_idem.
    apply once_in_NoDup; [by apply sel_wf_paths | by apply syncSelectedEntry_present].
Qed.

End Entry.
End Sync.

(** ** The initial order (C1) *)

Lemma filter_iff_on {A} (P1 P2 : A → Prop)
    `{!∀ x, Decision (P1 x), !∀ x, Decision (P2 x)} (l : list A) :
  Forall (λ x, P1 x ↔ P2 x) l → filter P1 l = filter P2 l.
Proof.
  induction 1 as [|x l Hx _ IH]; [done|].
  destruct (decide (P1 x)).
  - rewrite !filter_cons_True by tauto. by rewrite IH.
  - rewrite !filter_cons_False by tauto. done.
Qed.

Lemma filter_all {A} (P : A → Prop) `{!∀ x, Decision (P x)} (l : list A) :
  Forall P l → filter P l = l.
Proof.
  induction 1 as [|x l Hx _ IH]; [done|]. rewrite filter_cons_True by done. by rewrite IH.
Qed.

Section PathLists.
Implicit Types (p q : string) (ps X : list string).

Lemma filter_neq_absent p ps : p ∉ ps → filter (λ q, q ≠ p) ps = ps.
Proof.
  induction ps as [|x ps IH]; [done|]. intros [Hne Hni]%not_elem_of_cons.
  rewrite filter_cons_True by congruence. by rewrite IH.
Qed.

Lemma keep_last_snoc X p :
  keep_last (X ++ [p]) = filter (λ q, q ≠ p) (keep_last X) ++ [p].
Proof.
  induction X as [|x X IH]; [done|]. simpl.
  destruct (decide (x = p)) as [-> | Hne].
  - rewrite decide_True by (apply elem_of_app; right; left).
    rewrite IH. case_decide; [done|]. by rewrite filter_cons_False by tauto.
  - case_decide as Hin.
    + rewrite decide_True; [done|]. apply elem_of_app in Hin as [?|Hin]; [done|].
      by apply list_elem_of_singleton in Hin.
    + rewrite decide_False by (intros ?; apply Hin, elem_of_app; by left).
      rewrite filter_cons_True by done. by rewrite IH.
Qed.

(** One step of the loop, seen on the list of paths. *)
Lemma move_last_step P vs p :
  p ∈ P →
  move_last p (filter (λ q, q ∉ vs) P ++ keep_last (filter (λ q, q ∈ P) vs)) =
  filter (λ q, q ∉ vs ++ [p]) P ++ keep_last (filter (λ q, q ∈ P) (vs ++ [p])).
Proof.
  intros Hp. unfold move_last.
  rewrite filter_app, (filter_app _ vs), filter_cons_True, filter_nil by done.
  rewrite keep_last_snoc, <-app_assoc. f_equal.
  rewrite list_filter_filter. apply list_filter_iff. intros q.
  rewrite elem_of_app, list_elem_of_singleton. tauto.
Qed.

Lemma skip_step P vs p :
  p ∉ P →
  filter (λ q, q ∉ vs) P ++ keep_last (filter (λ q, q ∈ P) vs) =
  filter (λ q, q ∉ vs ++ [p]) P ++ keep_last (filter (λ q, q ∈ P) (vs ++ [p])).
Proof.
  intros Hp. rewrite (filter_app _ vs), filter_cons_False, filter_nil, app_nil_r by done.
  f_equal. apply filter_iff_on. apply Forall_forall. intros q Hq.
  rewrite elem_of_app, list_elem_of_singleton.
  assert (q ≠ p) by congruence. tauto.
Qed.

End PathLists.

Section InitialOrder.
Variable pg : Page.
Hypothesis list_present : has_selectedList pg = true.
Implicit Types (l : list Item) (it : Item).

Lemma js_map_of_snoc {V} (pairs : list (string * V)) k v :
  js_map_of (pairs ++ [(k, v)]) = <[k := v]> (js_map_of pairs).
Proof. unfold js_map_of. by rewrite foldl_app. Qed.

(** With distinct paths, [itemsByPath] finds the item of a path. *)
Lemma itemsByPath_lookup l p it :
  NoDup (item_path <$> l) →
  itemsByPath_of l !! p = Some it ↔ it ∈ l ∧ item_path it = p.
Proof.
  unfold itemsByPath_of. induction l as [|x l IH] using rev_ind; intros Hnd.
  - unfold js_map_of. simpl. rewrite lookup_empty. split; [done|].
    by intros [?%elem_of_nil _].
  - rewrite fmap_app in Hnd. rewrite fmap_app. simpl in *.
    rewrite js_map_of_snoc, or_else_empty.
    apply NoDup_app in Hnd as (Hl & Hdisj & _).
    rewrite elem_of_app, list_elem_of_singleton.
    destruct (decide (item_path x = p)) as [<- | Hne].
    + rewrite lookup_insert_eq. split; [intros [= <-]; tauto|].
      intros [[Hin | ->] Hp]; [|done]. exfalso.
      apply (Hdisj (item_path x)); [|left]. rewrite <-Hp. by apply list_elem_of_fmap_2.
    + rewrite lookup_insert_ne by done. rewrite IH by done. split; [tauto|].
      intros [[Hin | ->] Hp]; done.
Qed.

Lemma appendChild_paths l it :
  NoDup (item_node <$> l) → NoDup (item_path <$> l) → it ∈ l →
  item_path <$> appendChild l it = move_last (item_path it) (item_path <$> l).
Proof.
  intros Hnode Hpath (l1 & l2 & ->)%list_elem_of_split.
  unfold appendChild, move_last. rewrite detach_middle by done.
  rewrite fmap_app, fmap_cons in Hpath. rewrite !fmap_app, fmap_cons. simpl.
  apply NoDup_app in Hpath as (_ & Hdisj & [Hni _]%NoDup_cons).
  rewrite filter_app, filter_cons_False by tauto.
  rewrite !filter_neq_absent; [done|done|].
  intros Hin. apply (Hdisj _ Hin). left.
Qed.

Lemma listed_snoc order v :
  listed (order ++ [v]) = listed order ++ match v with JStr p => [p] | _ => [] end.
Proof. unfold listed. rewrite omap_app. by destruct v. Qed.

(** The loop of [applyInitialOrder]: the result is a rearrangement of the list,
    unlisted paths first in their old order, then the listed ones. *)
Lemma apply_order_paths l order :
  NoDup (item_node <$> l) → NoDup (item_path <$> l) →
  apply_order (itemsByPath_of l) order l ≡ₚ l ∧
  item_path <$> apply_order (itemsByPath_of l) order l =
    filter (λ p, p ∉ listed order) (item_path <$> l) ++
    keep_last (filter (λ p, p ∈ item_path <$> l) (listed order)).
Proof.
  intros Hnode Hpath. unfold apply_order.
  induction order as [|v order IH] using rev_ind.
  - simpl. split; [done|]. rewrite app_nil_r.
    symmetry. apply filter_all. apply Forall_forall. intros q _ ?%elem_of_nil. done.
  - rewrite foldl_app. simpl. destruct IH as [IHperm IHpaths].
    set (lk := foldl _ l order) in *.
    rewrite listed_snoc.
    destruct (items_get (itemsByPath_of l) v) as [it|] eqn:E.
    + destruct v as [| | |p| |]; simpl in E; try done.
      apply itemsByPath_lookup in E as [Hin <-]; [|done].
      assert (it ∈ lk) by (by rewrite IHperm).
      assert (NoDup (item_node <$> lk)) by (by rewrite IHperm).
      assert (NoDup (item_path <$> lk)) by (by rewrite IHperm).
      split; [by rewrite appendChild_perm|].
      rewrite appendChild_paths, IHpaths by done.
      apply move_last_step. by apply list_elem_of_fmap_2.
    + split; [done|]. rewrite IHpaths.
      destruct v as [| | |p| |]; simpl in E; rewrite ?app_nil_r; try done.
      apply skip_step. intros (it & Hp & Hin)%list_elem_of_fmap.
      assert (itemsByPath_of l !! p = Some it) by (by apply itemsByPath_lookup).
      congruence.
Qed.

(** C1, as the script behaves: when the initial order is an array, the items
    whose path it lists are moved to the end of the panel, in the order of the
    array (a path listed twice takes the place of its last mention), and the
    selected items it does not list stay in front of them in their encounter
    order.  The hidden inputs follow, and the handler ends normally. *)
Theorem applyInitialOrder_listed_last (σ : Selection) (order : list JSON) :
  selectedListInitialOrder pg = JArr order →
  NoDup (item_node <$> selectedList σ) →
  NoDup (selection_order σ) →
  (applyInitialOrder pg σ).2 = Normal ∧
  selection_order (applyInitialOrder pg σ).1 =
    filter (λ p, p ∉ listed order) (selection_order σ) ++
    keep_last (filter (λ p, p ∈ selection_order σ) (listed order)) ∧
  selectedList (applyInitialOrder pg σ).1 ≡ₚ selectedList σ.
Proof.
  intros Horder Hnode Hpath. unfold applyInitialOrder, selection_order in *.
  rewrite list_present, Horder. simpl.
  destruct (apply_order_paths (selectedList σ) order Hnode Hpath) as [Hperm Hpaths].
  destruct order as [|v order].
  - simpl. autorewrite with proj. split; [done|]. split; [|done].
    rewrite app_nil_r. symmetry. apply filter_all. apply Forall_forall.
    intros q _ ?%elem_of_nil. done.
  - replace (Z.of_nat (length (v :: order)) =? 0)%Z with false
      by (symmetry; apply Z.eqb_neq; simpl; lia).
    simpl. autorewrite with proj. simpl. done.
Qed.

End InitialOrder.

(** ** Invariants of the running page *)

Section Invariants.
Variable pg : Page.
Hypothesis list_present : has_selectedList pg = true.
Implicit Types (σ : Selection) (s : State) (i : nat).

Lemma InvSel_perm σ σ' :
  selectedList σ' ≡ₚ selectedList σ →
  selectedEntryMap σ' = selectedEntryMap σ → nextNode σ' = nextNode σ →
  InvSel pg σ → InvSel pg σ'.
Proof.
  intros Hperm Hmap Hnext [[Hnd Hfresh Hm] Hbuilt]. split; [split|].
  - by rewrite Hperm.
  - by rewrite Hperm, Hnext.
  - intros p it. by rewrite Hmap, Hperm.
  - by rewrite Hperm.
Qed.

Lemma InvSel_project σ : InvSel pg σ → InvSel pg (project pg σ).
Proof.
  apply InvSel_perm; [by rewrite project_list | apply project_map | apply project_next].
Qed.

Lemma InvSel_truthy σ :
  InvSel pg σ → Forall (λ it, truthy (item_path it) = true) (selectedList σ).
Proof.
  intros [_ Hbuilt]. eapply Forall_impl; [exact Hbuilt|].
  intros it (e & _ & _ & Hp & ->). simpl. rewrite or_else_empty. by apply truthy_true.
Qed.

Lemma InputsOk_project σ :
  has_orderedInputsContainer pg = true →
  Forall (λ it, truthy (item_path it) = true) (selectedList σ) →
  InputsOk (project pg σ).
Proof.
  intros Hc Hsel. unfold InputsOk, selection_order, project.
  autorewrite with proj. rewrite refreshOrderedInputs_inputs by done.
  autorewrite with proj. by apply ordered_input_values_paths.
Qed.

(** *** [syncSelectedEntry] *)

Lemma syncSelectedEntry_noop s i :
  (∀ e, fileEntries pg !! i = Some e → e_checkbox e = false ∨ e_path e = "") →
  syncSelectedEntry pg i s = s.
Proof.
  intros H. unfold syncSelectedEntry. destruct (fileEntries pg !! i) as [e|]; [|done].
  destruct (H e eq_refl) as [-> | ->]; by rewrite ?orb_true_r.
Qed.

Lemma entry_cases i :
  (∃ e, fileEntries pg !! i = Some e ∧ e_checkbox e = true ∧ e_path e ≠ "") ∨
  (∀ e, fileEntries pg !! i = Some e → e_checkbox e = false ∨ e_path e = "").
Proof.
  destruct (fileEntries pg !! i) as [e|]; [|right; done].
  destruct (e_checkbox e) eqn:Hc; [|right; intros ? [= <-]; by left].
  destruct (decide (e_path e = "")) as [Hp|Hp]; [right; intros ? [= <-]; by right|].
  left. by exists e.
Qed.

Lemma syncSelectedEntry_frame s i :
  checked (syncSelectedEntry pg i s) = checked s ∧
  search (syncSelectedEntry pg i s) = search s ∧
  preview (syncSelectedEntry pg i s) = preview s ∧
  wired (syncSelectedEntry pg i s) = wired s.
Proof.
  unfold syncSelectedEntry. repeat case_match; done.
Qed.

Lemma syncSelectedEntry_frame_search i s :
  search (syncSelectedEntry pg i s) = search s.
Proof. by destruct (syncSelectedEntry_frame s i) as (_ & -> & _). Qed.

Lemma syncSelectedEntry_InvSel s i :
  InvSel pg (sel s) → InvSel pg (sel (syncSelectedEntry pg i s)).
Proof.
  intros Hsel. destruct (entry_cases i) as [(e & He & Hc & Hp) | Hno];
    [|by rewrite syncSelectedEntry_noop].
  destruct Hsel as [Hwf Hbuilt].
  split; [by eapply syncSelectedEntry_wf|].
  rewrite (syncSelectedEntry_unfold pg list_present i e) by done. simpl.
  rewrite project_list.
  destruct (is_checked s i); destruct (selectedEntryMap (sel s) !! e_path e); simpl; try done.
  - unfold appendChild. apply Forall_app. split.
    + apply Forall_forall. intros x [Hx _]%elem_of_detach.
      rewrite Forall_forall in Hbuilt. by apply Hbuilt.
    + apply Forall_singleton. by exists e.
  - apply Forall_forall. intros x [Hx _]%elem_of_detach.
    rewrite Forall_forall in Hbuilt. by apply Hbuilt.
Qed.

Lemma syncSelectedEntry_InputsOk s i :
  has_orderedInputsContainer pg = true →
  InvSel pg (sel s) → InputsOk (sel s) → InputsOk (sel (syncSelectedEntry pg i s)).
Proof.
  intros Hc Hsel Hin.
  pose proof (InvSel_truthy _ (syncSelectedEntry_InvSel s i Hsel)) as Htr.
  destruct (entry_cases i) as [(e & He & Hcb & Hp) | Hno];
    [|by rewrite syncSelectedEntry_noop].
  rewrite (syncSelectedEntry_unfold pg list_present i e) in Htr |- * by done.
  simpl in *. rewrite project_list in Htr. by apply InputsOk_project.
Qed.

(** After [syncSelectedEntry] the entry is listed exactly when it is checked. *)
Lemma syncSelectedEntry_listed s i e :
  fileEntries pg !! i = Some e → e_checkbox e = true → e_path e ≠ "" →
  sel_wf (sel s) →
  is_checked s i = true ↔ e_path e ∈ selection_order (sel (syncSelectedEntry pg i s)).
Proof.
  intros He Hc Hp Hwf.
  pose proof (syncSelectedEntry_agrees pg list_present i e He Hc Hp s) as Hag.
  pose proof (syncSelectedEntry_wf pg list_present i e He Hc Hp s Hwf) as Hwf'.
  rewrite Hag, bool_decide_eq_true. split.
  - intros [it [Hin Hpath]%(wf_map _ Hwf')]. unfold selection_order.
    rewrite <-Hpath. by apply list_elem_of_fmap_2.
  - intros (it & Hpath & Hin)%list_elem_of_fmap. exists it. by apply (wf_map _ Hwf').
Qed.

(** Other paths are neither added nor removed. *)
Lemma syncSelectedEntry_others s i e p :
  fileEntries pg !! i = Some e → p ≠ e_path e → InvSel pg (sel s) →
  p ∈ selection_order (sel (syncSelectedEntry pg i s)) ↔ p ∈ selection_order (sel s).
Proof.
  intros He Hne [Hwf Hbuilt].
  destruct (entry_cases i) as [(e' & He' & Hc & Hp) | Hno];
    [|by rewrite syncSelectedEntry_noop].
  assert (e' = e) as -> by congruence.
  rewrite (syncSelectedEntry_unfold pg list_present i e) by done. simpl.
  unfold selection_order. rewrite project_list.
  destruct (is_checked s i);
    destruct (selectedEntryMap (sel s) !! e_path e) as [it|] eqn:E; simpl; try done.
  - unfold appendChild. rewrite detach_absent by (by apply fresh_absent).
    rewrite fmap_app, elem_of_app. simpl. rewrite or_else_empty, list_elem_of_singleton.
    tauto.
  - apply (wf_map _ Hwf) in E as [Hit Hpath].
    rewrite !list_elem_of_fmap. split.
    + intros (x & -> & [Hx _]%elem_of_detach). by exists x.
    + intros (x & -> & Hx). exists x. split; [done|]. apply elem_of_detach. split; [done|].
      intros Hnode. apply Hne. rewrite <-Hpath. f_equal.
      by apply (node_inj (selectedList (sel s))); [apply Hwf| | |].
Qed.

(** *** [moveSelectedItem] *)

Lemma moveSelectedItem_cases σ x d :
  moveSelectedItem pg x d σ = σ ∨
  ∃ l', moveSelectedItem pg x d σ =
        updateSelectedSummary pg (updateReorderControls pg
          (refreshOrderedInputs pg (set_selectedList l' σ))).
Proof.
  unfold moveSelectedItem. rewrite list_present. simpl.
  repeat case_match; eauto.
  right. exists (selectedList σ). by destruct σ.
Qed.

Lemma moveSelectedItem_InvSel σ x d :
  x ∈ selectedList σ → d = (-1)%Z ∨ d = 1%Z →
  InvSel pg σ → InvSel pg (moveSelectedItem pg x d σ).
Proof.
  intros Hx Hd Hsel. eapply InvSel_perm; [| | |exact Hsel].
  - apply moveSelectedItem_perm; [done|apply Hsel|done|done].
  - by apply moveSelectedItem_map.
  - by apply moveSelectedItem_next.
Qed.

Lemma moveSelectedItem_InputsOk σ x d :
  has_orderedInputsContainer pg = true →
  x ∈ selectedList σ → d = (-1)%Z ∨ d = 1%Z →
  InvSel pg σ → InputsOk σ → InputsOk (moveSelectedItem pg x d σ).
Proof.
  intros Hc Hx Hd Hsel Hin.
  pose proof (InvSel_truthy _ (moveSelectedItem_InvSel σ x d Hx Hd Hsel)) as Htr.
  destruct (moveSelectedItem_cases σ x d) as [-> | [l' Heq]]; [done|].
  rewrite Heq in Htr |- *. unfold InputsOk, selection_order.
  autorewrite with proj in Htr |- *. rewrite refreshOrderedInputs_inputs by done.
  by apply ordered_input_values_paths.
Qed.

(** *** The search results *)

Lemma updateResults_frame s :
  checked (updateResults pg s) = checked s ∧ sel (updateResults pg s) = sel s ∧
  preview (updateResults pg s) = preview s ∧ wired (updateResults pg s) = wired s ∧
  searchValue (search (updateResults pg s)) = searchValue (search s).
Proof. unfold updateResults. repeat case_match; done. Qed.

Lemma mirror_synced_checked s s' r :
  checked s' = checked s → mirror_synced pg s r → mirror_synced pg s' r.
Proof. unfold mirror_synced, is_checked. by intros ->. Qed.

Lemma elem_of_matching query i e :
  (i, e) ∈ matching pg query → fileEntries pg !! i = Some e.
Proof.
  unfold matching. intros [_ Hin]%list_elem_of_filter.
  apply elem_of_lookup_imap in Hin as (j & y & [= -> ->] & Hj). done.
Qed.

(** Every search leaves proxies that show the native state. *)
Lemma updateResults_InvSearch s : InvSearch pg (updateResults pg s).
Proof.
  unfold InvSearch, searching, updateResults.
  destruct (truthy (toLowerCase _)) eqn:Hq; simpl.
  - rewrite truthy_toLowerCase in Hq.
    destruct (length (matching pg _) =? 0); simpl.
    + split; [constructor|done].
    + split; [|congruence]. apply Forall_fmap, Forall_forall.
      intros [i e] Hin%elem_of_matching e' He' Hc. simpl in *.
      assert (e' = e) as -> by congruence. by rewrite Hc.
  - split; [constructor|done].
Qed.

(** *** The change listener *)

Lemma onCheckboxChange_frame s i :
  checked (onCheckboxChange pg i s) = checked s ∧
  sel (onCheckboxChange pg i s) = sel (syncSelectedEntry pg i s) ∧
  preview (onCheckboxChange pg i s) = preview s ∧
  wired (onCheckboxChange pg i s) = wired s ∧
  searchValue (search (onCheckboxChange pg i s)) = searchValue (search s).
Proof.
  unfold onCheckboxChange. destruct (syncSelectedEntry_frame s i) as (? & Hs & ? & ?).
  destruct (truthy _).
  - destruct (updateResults_frame (syncSelectedEntry pg i s)) as (-> & -> & -> & -> & ->).
    by rewrite Hs.
  - by rewrite Hs.
Qed.

Lemma onCheckboxChange_Inv s i :
  InvSel pg (sel s) →
  (searching (search s) = false → resultsItems (search s) = []) →
  changeWired (wired s) = true → inputWired (wired s) = true →
  Inv pg (onCheckboxChange pg i s).
Proof.
  intros Hsel Hres Hcw Hiw.
  destruct (onCheckboxChange_frame s i) as (Hc & Hs & Hp & Hw & Hv).
  split; rewrite ?Hs, ?Hw; try done.
  - by apply syncSelectedEntry_InvSel.
  - unfold onCheckboxChange. destruct (syncSelectedEntry_frame s i) as (_ & Hq & _ & _).
    fold (searching (search (syncSelectedEntry pg i s))).
    destruct (searching (search (syncSelectedEntry pg i s))) eqn:E;
      [apply updateResults_InvSearch|].
    rewrite Hq in E. unfold InvSearch. rewrite Hq, (Hres E). split; [constructor|done].
Qed.

Lemma dispatch_change_eq s i e :
  fileEntries pg !! i = Some e → e_checkbox e = true → changeWired (wired s) = true →
  dispatch_change pg i s = onCheckboxChange pg i s.
Proof. unfold dispatch_change. by intros -> -> ->. Qed.

Lemma set_checked_frame s i b :
  sel (set_checked i b s) = sel s ∧ search (set_checked i b s) = search s ∧
  preview (set_checked i b s) = preview s ∧ wired (set_checked i b s) = wired s.
Proof. done. Qed.

(** *** Every event keeps the invariant *)

Lemma step_Inv s ev : Inv pg s → Inv pg (step pg s ev).
Proof.
  intros [Hsel [Hmir Hres] Hcw Hiw]. destruct ev as [i|k|node|node|node|text| |c| | |key]; simpl.
  - destruct (fileEntries pg !! i) as [e|] eqn:He; [|done].
    destruct (e_checkbox e) eqn:Hc; [|done].
    rewrite (dispatch_change_eq _ i e) by done. by apply onCheckboxChange_Inv.
  - destruct (resultsItems (search s) !! k) as [r|] eqn:Hr; [|done].
    unfold onMirrorChange. simpl.
    destruct (fileEntries pg !! r_entry r) as [e|] eqn:He.
    + destruct (e_checkbox e) eqn:Hc.
      * rewrite (dispatch_change_eq _ _ e) by done. apply onCheckboxChange_Inv; try done.
        simpl. intros E. unfold searching in *. simpl in *. rewrite (Hres E) in Hr. done.
      * split; try done. split; simpl.
        -- apply Forall_insert; [done|]. intros e' He' Hc'. simpl in *. congruence.
        -- intros E. unfold searching in *. simpl in *. rewrite (Hres E) in Hr. done.
    + split; try done. split; simpl.
      * apply Forall_insert; [done|]. intros e' He' Hc'. simpl in *. congruence.
      * intros E. unfold searching in *. simpl in *. rewrite (Hres E) in Hr. done.
  - destruct (find_item node _) as [item|] eqn:Hf; [|done].
    unfold onRemoveClick. destruct (fileEntries pg !! item_entry item) as [e|] eqn:He; [|done].
    destruct (e_checkbox e) eqn:Hc; [|done].
    rewrite (dispatch_change_eq _ _ e) by done. by apply onCheckboxChange_Inv.
  - destruct (find_item node _) as [item|] eqn:Hf; [|done].
    apply find_item_Some in Hf as [Hin _].
    split; try done. simpl. apply moveSelectedItem_InvSel; auto.
  - destruct (find_item node _) as [item|] eqn:Hf; [|done].
    apply find_item_Some in Hf as [Hin _].
    split; try done. simpl. apply moveSelectedItem_InvSel; auto.
  - destruct (has_searchInput pg); [|done]. rewrite Hiw.
    match goal with |- Inv _ (updateResults _ ?s1) =>
      destruct (updateResults_frame s1) as (Hc & Hs & Hp & Hw & Hv) end.
    split; rewrite ?Hs, ?Hw; try done. apply updateResults_InvSearch.
  - destruct (_ && _); [|done]. split; done.
  - destruct (previewWired _); done.
  - destruct (_ && _); done.
  - destruct (_ && _); done.
  - destruct (previewWired _); done.
Qed.

Lemma step_InputsOk s ev :
  has_orderedInputsContainer pg = true →
  Inv pg s → InputsOk (sel s) → InputsOk (sel (step pg s ev)).
Proof.
  intros Hcont [Hsel _ Hcw Hiw] Hin.
  destruct ev as [i|k|node|node|node|text| |c| | |key]; simpl.
  - destruct (fileEntries pg !! i) as [e|] eqn:He; [|done].
    destruct (e_checkbox e) eqn:Hc; [|done].
    rewrite (dispatch_change_eq _ i e) by done.
    destruct (onCheckboxChange_frame (set_checked i (negb (is_checked s i)) s) i)
      as (_ & -> & _).
    by apply syncSelectedEntry_InputsOk.
  - destruct (resultsItems (search s) !! k) as [r|] eqn:Hr; [|done].
    unfold onMirrorChange. simpl.
    destruct (fileEntries pg !! r_entry r) as [e|] eqn:He; [|done].
    destruct (e_checkbox e) eqn:Hc; [|done].
    rewrite (dispatch_change_eq _ _ e) by done.
    match goal with |- InputsOk (sel (onCheckboxChange _ ?j ?s1)) =>
      destruct (onCheckboxChange_frame s1 j) as (_ & -> & _) end.
    by apply syncSelectedEntry_InputsOk.
  - destruct (find_item node _) as [item|] eqn:Hf; [|done].
    unfold onRemoveClick. destruct (fileEntries pg !! item_entry item) as [e|] eqn:He; [|done].
    destruct (e_checkbox e) eqn:Hc; [|done].
    rewrite (dispatch_change_eq _ _ e) by done.
    match goal with |- InputsOk (sel (onCheckboxChange _ ?j ?s1)) =>
      destruct (onCheckboxChange_frame s1 j) as (_ & -> & _) end.
    by apply syncSelectedEntry_InputsOk.
  - destruct (find_item node _) as [item|] eqn:Hf; [|done].
    apply find_item_Some in Hf as [Hx _]. simpl. apply moveSelectedItem_InputsOk; auto.
  - destruct (find_item node _) as [item|] eqn:Hf; [|done].
    apply find_item_Some in Hf as [Hx _]. simpl. apply moveSelectedItem_InputsOk; auto.
  - destruct (has_searchInput pg); [|done]. rewrite Hiw.
    match goal with |- InputsOk (sel (updateResults _ ?s1)) =>
      destruct (updateResults_frame s1) as (_ & -> & _) end. done.
  - destruct (_ && _); done.
  - destruct (previewWired _); done.
  - destruct (_ && _); done.
  - destruct (_ && _); done.
  - destruct (previewWired _); done.
Qed.

(** *** Toggle/selection agreement *)

Section Agreement.
Hypothesis unique : unique_paths pg.

Lemma InvA_upto_ext k s s' :
  checked s' = checked s → selection_order (sel s') ≡ₚ selection_order (sel s) →
  InvA_upto pg k s → InvA_upto pg k s'.
Proof.
  intros Hc Hperm HA i e Hi He Hcb Hp. unfold is_checked. rewrite Hc, Hperm.
  by apply HA.
Qed.

(** Delivering the change of entry [i] after its checkbox was set restores
    the agreement for [i] and keeps it for every other entry. *)
Lemma sync_after_set_InvA_upto k s i :
  InvSel pg (sel s) →
  (∀ j e, j < k → j ≠ i → fileEntries pg !! j = Some e → e_checkbox e = true →
          e_path e ≠ "" →
          (is_checked s j = true ↔ e_path e ∈ selection_order (sel s))) →
  (∃ e, fileEntries pg !! i = Some e ∧ e_checkbox e = true) →
  InvA_upto pg k (syncSelectedEntry pg i s).
Proof.
  intros Hsel HA (ei & Hei & Hci) j e Hj He Hcb Hp.
  unfold is_checked. destruct (syncSelectedEntry_frame s i) as (-> & _).
  fold (is_checked s j).
  destruct (decide (j = i)) as [-> | Hne].
  - by apply syncSelectedEntry_listed; [| | |apply Hsel].
  - rewrite (syncSelectedEntry_others s i ei (e_path e)); [by apply HA|done| |done].
    intros Heq. apply Hne. by apply (unique j i e ei).
Qed.

Lemma onCheckboxChange_InvA s i b :
  InvSel pg (sel s) → InvA pg s →
  (∃ e, fileEntries pg !! i = Some e ∧ e_checkbox e = true) →
  ∀ s', checked s' = checked s → sel s' = sel s →
  InvA pg (onCheckboxChange pg i (set_checked i b s')).
Proof.
  intros Hsel HA Hi s' Hc Hs.
  destruct (onCheckboxChange_frame (set_checked i b s') i) as (Hc' & Hs' & _).
  eapply (InvA_upto_ext _ (syncSelectedEntry pg i (set_checked i b s'))).
  - rewrite Hc'. by destruct (syncSelectedEntry_frame (set_checked i b s') i) as (-> & _).
  - by rewrite Hs'.
  - apply sync_after_set_InvA_upto; [by rewrite <-Hs in Hsel| |done].
    intros j e Hj Hne He Hcb Hp. simpl. rewrite Hs.
    unfold is_checked, set_checked, with_checked. simpl. rewrite Hc.
    rewrite <-(HA j e Hj He Hcb Hp). unfold is_checked.
    rewrite !bool_decide_eq_true, elem_of_set_flag. by rewrite decide_False by done.
Qed.

Lemma step_InvA s ev : Inv pg s → InvA pg s → InvA pg (step pg s ev).
Proof.
  intros [Hsel _ Hcw Hiw] HA.
  destruct ev as [i|k|node|node|node|text| |c| | |key]; simpl.
  - destruct (fileEntries pg !! i) as [e|] eqn:He; [|done].
    destruct (e_checkbox e) eqn:Hc; [|done].
    rewrite (dispatch_change_eq _ i e) by done.
    apply (onCheckboxChange_InvA s); eauto.
  - destruct (resultsItems (search s) !! k) as [r|] eqn:Hr; [|done].
    unfold onMirrorChange. simpl.
    destruct (fileEntries pg !! r_entry r) as [e|] eqn:He; [|done].
    destruct (e_checkbox e) eqn:Hc; [|done].
    rewrite (dispatch_change_eq _ _ e) by done.
    apply (onCheckboxChange_InvA s); eauto.
  - destruct (find_item node _) as [item|] eqn:Hf; [|done].
    unfold onRemoveClick. destruct (fileEntries pg !! item_entry item) as [e|] eqn:He; [|done].
    destruct (e_checkbox e) eqn:Hc; [|done].
    rewrite (dispatch_change_eq _ _ e) by done.
    apply (onCheckboxChange_InvA s); eauto.
  - destruct (find_item node _) as [item|] eqn:Hf; [|done].
    apply find_item_Some in Hf as [Hx _].
    eapply InvA_upto_ext; [| |exact HA]; [done|]. simpl. unfold selection_order.
    apply fmap_Permutation, moveSelectedItem_perm; auto. apply Hsel.
  - destruct (find_item node _) as [item|] eqn:Hf; [|done].
    apply find_item_Some in Hf as [Hx _].
    eapply InvA_upto_ext; [| |exact HA]; [done|]. simpl. unfold selection_order.
    apply fmap_Permutation, moveSelectedItem_perm; auto. apply Hsel.
  - destruct (has_searchInput pg); [|done]. rewrite Hiw.
    match goal with |- InvA _ (updateResults _ ?s1) =>
      destruct (updateResults_frame s1) as (Hc & Hs & _) end.
    eapply InvA_upto_ext; [| |exact HA]; [by rewrite Hc | by rewrite Hs].
  - destruct (_ && _); done.
  - destruct (previewWired _); done.
  - destruct (_ && _); done.
  - destruct (_ && _); done.
  - destruct (previewWired _); done.
Qed.

(** The agreement as an equality of sets of identifiers. *)
Lemma InvA_toggled_on s id :
  InvSel pg (sel s) → InvA pg s →
  id ∈ selection_order (sel s) ↔ toggled_on pg s id.
Proof.
  intros [Hwf Hbuilt] HA. split.
  - intros (it & -> & Hin)%list_elem_of_fmap.
    rewrite Forall_forall in Hbuilt. destruct (Hbuilt _ Hin) as (e & He & Hc & Hp & Hit).
    assert (item_path it = e_path e) as Hpath by (rewrite Hit; apply or_else_empty).
    exists (item_entry it), e. rewrite Hpath. repeat split; try done.
    apply (HA _ e); try done.
    + by eapply lookup_lt_Some.
    + unfold selection_order. rewrite <-Hpath. by apply list_elem_of_fmap_2.
  - intros (i & e & He & <- & Hp & Hc & Hon). apply (HA i e); try done.
    by eapply lookup_lt_Some.
Qed.

End Agreement.

End Invariants.

(** ** Page load *)

Section Load.
Variable pg : Page.
Hypothesis list_present : has_selectedList pg = true.
Implicit Types (σ : Selection) (s : State).

Lemma sync_all_frame k entries s :
  checked (sync_all pg k entries s) = checked s ∧
  search (sync_all pg k entries s) = search s ∧
  preview (sync_all pg k entries s) = preview s ∧
  wired (sync_all pg k entries s) = wired s.
Proof.
  revert k s. induction entries as [|e entries IH]; intros k s; [done|]. simpl.
  destruct (IH (S k) (if e_checkbox e then syncSelectedEntry pg k s else s))
    as (-> & -> & -> & ->).
  destruct (e_checkbox e); [|done]. apply syncSelectedEntry_frame.
Qed.

Lemma sync_all_InvSel k entries s :
  InvSel pg (sel s) → InvSel pg (sel (sync_all pg k entries s)).
Proof.
  revert k s. induction entries as [|e entries IH]; intros k s Hsel; [done|]. simpl.
  apply IH. destruct (e_checkbox e); [|done]. by apply syncSelectedEntry_InvSel.
Qed.

Lemma sync_all_InvA pre suf s :
  unique_paths pg → fileEntries pg = pre ++ suf →
  InvSel pg (sel s) → InvA_upto pg (length pre) s →
  InvA pg (sync_all pg (length pre) suf s).
Proof.
  intros Huniq. revert pre s. induction suf as [|e suf IH]; intros pre s Hall Hsel HA.
  - simpl. unfold InvA. by rewrite Hall, app_nil_r.
  - simpl. replace (S (length pre)) with (length (pre ++ [e]))
      by (rewrite length_app; simpl; lia).
    assert (fileEntries pg !! length pre = Some e) as He
      by (rewrite Hall; by apply list_lookup_middle).
    apply IH.
    + by rewrite <-app_assoc.
    + destruct (e_checkbox e); [|done]. by apply syncSelectedEntry_InvSel.
    + rewrite length_app. simpl. replace (length pre + 1) with (S (length pre)) by lia.
      destruct (e_checkbox e) eqn:Hc.
      * apply sync_after_set_InvA_upto; eauto.
        intros j e' Hj Hne. apply HA. lia.
      * intros j e' Hj He' Hc'. destruct (decide (j = length pre)) as [-> | Hne].
        -- congruence.
        -- apply HA; [lia|done|done].
Qed.

Lemma applyInitialOrder_cases σ :
  applyInitialOrder pg σ = (σ, Throws "TypeError") ∨
  ∃ l', (l' = selectedList σ ∨
         ∃ order, l' = apply_order (itemsByPath_of (selectedList σ)) order (selectedList σ)) ∧
        applyInitialOrder pg σ =
        (updateSelectedSummary pg (updateReorderControls pg
           (refreshOrderedInputs pg (set_selectedList l' σ))), Normal).
Proof.
  unfold applyInitialOrder. rewrite list_present. simpl.
  assert (set_selectedList (selectedList σ) σ = σ) as Hid by (by destruct σ).
  destruct (get_length _); [by left|..]; simpl; repeat case_match;
    first [ by left
          | right; exists (selectedList σ); rewrite Hid; by eauto
          | right; eexists; split; [right; eexists; reflexivity|reflexivity] ].
Qed.

Lemma applyInitialOrder_perm σ :
  sel_wf σ →
  selectedList (applyInitialOrder pg σ).1 ≡ₚ selectedList σ ∧
  selectedEntryMap (applyInitialOrder pg σ).1 = selectedEntryMap σ ∧
  nextNode (applyInitialOrder pg σ).1 = nextNode σ.
Proof.
  intros Hwf. destruct (applyInitialOrder_cases σ) as [-> | (l' & Hl' & ->)]; [done|].
  simpl. autorewrite with proj. simpl. split; [|done].
  destruct Hl' as [-> | [order ->]]; [done|].
  apply apply_order_paths; [apply Hwf | by apply sel_wf_paths].
Qed.

Lemma applyInitialOrder_InvSel σ :
  InvSel pg σ → InvSel pg (applyInitialOrder pg σ).1.
Proof.
  intros Hsel. destruct (applyInitialOrder_perm σ) as (? & ? & ?); [apply Hsel|].
  by eapply InvSel_perm.
Qed.

Lemma applyInitialOrder_InputsOk σ :
  has_orderedInputsContainer pg = true → InvSel pg σ →
  (applyInitialOrder pg σ).2 = Normal → InputsOk (applyInitialOrder pg σ).1.
Proof.
  intros Hc Hsel Hnormal.
  pose proof (InvSel_truthy _ _ (applyInitialOrder_InvSel σ Hsel)) as Htr.
  destruct (applyInitialOrder_cases σ) as [Heq | (l' & _ & Heq)];
    rewrite Heq in Hnormal, Htr |- *; [done|]. simpl in *.
  unfold InputsOk, selection_order. autorewrite with proj in Htr |- *.
  rewrite refreshOrderedInputs_inputs by done. by apply ordered_input_values_paths.
Qed.

End Load.

Section Reachable.
Variable pg : Page.
Hypothesis page : full_page pg.
Variable s0 : State.
Hypothesis fresh_document : pristine s0.

(** The state in which [DOMContentLoaded] starts the loop over the entries. *)
Lemma DOMContentLoaded_unfold :
  let s2 := with_wired (λ _, mkListeners true true true false) (script_start s0) in
  let s3 := sync_all pg 0 (fileEntries pg) s2 in
  let r := applyInitialOrder pg (sel s3) in
  (InvSel pg (sel s2) ∧ checked s2 = checked s0 ∧ resultsItems (search s2) = [] ∧
   changeWired (wired s2) = true ∧ inputWired (wired s2) = true) ∧
  (DOMContentLoaded pg s0).2 = r.2 ∧
  sel (DOMContentLoaded pg s0).1 = r.1 ∧
  checked (DOMContentLoaded pg s0).1 = checked s3 ∧
  search (DOMContentLoaded pg s0).1 = search s3 ∧
  changeWired (wired (DOMContentLoaded pg s0).1) = true ∧
  inputWired (wired (DOMContentLoaded pg s0).1) = true.
Proof.
  destruct page as [He Hl Hi Hw Hr]. destruct fresh_document as [Hlist Hres].
  intros s2 s3 r. split.
  - subst s2. simpl. rewrite Hlist. split; [|done]. split; [split|]; simpl.
    + constructor.
    + constructor.
    + intros p it. rewrite lookup_empty. split; [done | by intros [?%elem_of_nil _]].
    + constructor.
  - unfold DOMContentLoaded. rewrite He, Hi, Hw, Hr. simpl.
    fold s2. fold s3. fold r.
    destruct (sync_all_frame pg 0 (fileEntries pg) s2) as (_ & _ & _ & Hw3).
    fold s3 in Hw3. clearbody r. by destruct r as [σ [|err]]; simpl; rewrite ?Hw3.
Qed.

Lemma DOMContentLoaded_Inv : Inv pg (DOMContentLoaded pg s0).1.
Proof.
  destruct DOMContentLoaded_unfold
    as ((Hsel & Hc & Hres & Hcw & Hiw) & _ & Hs & Hc' & Hq & Hcw' & Hiw').
  match type of Hs with context [sync_all _ _ _ ?s2] =>
    destruct (sync_all_frame pg 0 (fileEntries pg) s2) as (Hc3 & Hq3 & _ & _) end.
  split; try done.
  - rewrite Hs. apply applyInitialOrder_InvSel; [apply page|].
    apply sync_all_InvSel; [apply page|done].
  - unfold InvSearch. rewrite Hq, Hq3, Hres. split; [constructor|done].
Qed.

Lemma DOMContentLoaded_InvA : unique_paths pg → InvA pg (DOMContentLoaded pg s0).1.
Proof.
  intros Huniq.
  destruct DOMContentLoaded_unfold
    as ((Hsel & Hc & Hres & Hcw & Hiw) & _ & Hs & Hc' & Hq & Hcw' & Hiw').
  pose proof (sync_all_InvA pg (fp_list _ page) [] (fileEntries pg) _ Huniq eq_refl Hsel) as HA.
  simpl in HA.
  eapply InvA_upto_ext; [| |apply HA].
  - done.
  - rewrite Hs. unfold selection_order. apply fmap_Permutation.
    apply applyInitialOrder_perm; [apply page|].
    apply sync_all_InvSel; [apply page|done].
  - intros i e Hi. lia.
Qed.

Lemma DOMContentLoaded_InputsOk :
  has_orderedInputsContainer pg = true → (DOMContentLoaded pg s0).2 = Normal →
  InputsOk (sel (DOMContentLoaded pg s0).1).
Proof.
  intros Hcont Hnormal.
  destruct DOMContentLoaded_unfold
    as ((Hsel & Hc & Hres & Hcw & Hiw) & Hcompl & Hs & _).
  rewrite Hs. rewrite Hcompl in Hnormal.
  apply applyInitialOrder_InputsOk; [apply page|done| |done].
  apply sync_all_InvSel; [apply page|done].
Qed.

Lemma run_snoc evs ev : run pg s0 (evs ++ [ev]) = step pg (run pg s0 evs) ev.
Proof. unfold run. by rewrite foldl_app. Qed.

Lemma run_Inv evs : Inv pg (run pg s0 evs).
Proof.
  induction evs as [|ev evs IH] using rev_ind; [apply DOMContentLoaded_Inv|].
  rewrite run_snoc. apply step_Inv; [apply page|done].
Qed.

Lemma run_InvA evs : unique_paths pg → InvA pg (run pg s0 evs).
Proof.
  intros Huniq. induction evs as [|ev evs IH] using rev_ind;
    [by apply DOMContentLoaded_InvA|].
  rewrite run_snoc. apply step_InvA; [apply page|done|apply run_Inv|done].
Qed.

Lemma run_InputsOk evs :
  has_orderedInputsContainer pg = true → (DOMContentLoaded pg s0).2 = Normal →
  InputsOk (sel (run pg s0 evs)).
Proof.
  intros Hcont Hnormal. induction evs as [|ev evs IH] using rev_ind;
    [by apply DOMContentLoaded_InputsOk|].
  rewrite run_snoc. apply step_InputsOk; [apply page|done|apply run_Inv|done].
Qed.

(** C4 (Invariant A): after page load and any sequence of user actions, on
    any of the surfaces, an identifier is in the Selection Model, in its list
    and in its map alike, exactly when it is the identifier of a catalog entry
    whose native checkbox is checked. *)
Theorem toggle_selection_equivalence (evs : list Event) (id : string) :
  unique_paths pg →
  (id ∈ selection_order (sel (run pg s0 evs)) ↔ toggled_on pg (run pg s0 evs) id) ∧
  (is_Some (selectedEntryMap (sel (run pg s0 evs)) !! id) ↔
   toggled_on pg (run pg s0 evs) id).
Proof.
  intros Huniq. pose proof (run_Inv evs) as HI. pose proof (run_InvA evs Huniq) as HA.
  assert (id ∈ selection_order (sel (run pg s0 evs)) ↔ toggled_on pg (run pg s0 evs) id)
    as Hlist by (apply InvA_toggled_on; [apply HI|done]).
  split; [done|]. rewrite <-Hlist. destruct HI as [[Hwf _] _ _ _]. split.
  - intros [it [Hin <-]%(wf_map _ Hwf)]. by apply list_elem_of_fmap_2.
  - intros (it & -> & Hin)%list_elem_of_fmap. exists it. by apply (wf_map _ Hwf).
Qed.

(** C5: once page load has completed, after every user action the hidden
    [ordered_videos] inputs carry exactly the paths of the items of the
    selected panel, in the order of the panel; the inputs are rebuilt from
    the panel alone, whatever they held before. *)
Theorem serialized_order_matches (evs : list Event) :
  has_orderedInputsContainer pg = true →
  (DOMContentLoaded pg s0).2 = Normal →
  orderedInputs (sel (run pg s0 evs)) = selection_order (sel (run pg s0 evs)) ∧
  (∀ σ σ', selectedList σ = selectedList σ' →
     orderedInputs (refreshOrderedInputs pg σ) = orderedInputs (refreshOrderedInputs pg σ')).
Proof.
  intros Hcont Hnormal. split; [by apply run_InputsOk|].
  intros σ σ' Heq. rewrite !refreshOrderedInputs_inputs by (done || apply page).
  by rewrite Heq.
Qed.

End Reachable.

(** ** Non-native controls (C8) *)

Section Mirror.
Variable pg : Page.
Implicit Types (s : State).

Lemma syncSelectedEntry_with_search i f s :
  syncSelectedEntry pg i (with_search f s) = with_search f (syncSelectedEntry pg i s).
Proof.
  unfold syncSelectedEntry. destruct (fileEntries pg !! i) as [e|]; [|done].
  destruct (_ || _); done.
Qed.

(** [updateResults] rebuilds the results list from scratch. *)
Lemma updateResults_set_results g s :
  updateResults pg (with_search (λ q, set_results (g q) q) s) = updateResults pg s.
Proof.
  unfold updateResults. simpl. destruct (truthy _); [|done].
  destruct (_ =? 0); done.
Qed.

Lemma onCheckboxChange_set_results i g s :
  searching (search s) = true →
  onCheckboxChange pg i (with_search (λ q, set_results (g q) q) s) =
  onCheckboxChange pg i s.
Proof.
  intros Hq. unfold onCheckboxChange. rewrite syncSelectedEntry_with_search.
  pose proof (syncSelectedEntry_frame_search pg i s) as Hs.
  unfold searching in Hq. simpl. rewrite Hs, Hq.
  apply updateResults_set_results.
Qed.

End Mirror.

Section MirrorReachable.
Variable pg : Page.
Hypothesis page : full_page pg.
Variable s0 : State.
Hypothesis fresh_document : pristine s0.
Hypothesis unique : unique_paths pg.

(** C8: in every state the page can reach, flipping the proxy checkbox of a
    search result leaves the page in the very state that clicking the native
    checkbox of the same entry leaves it in, and so does pressing the remove
    button of a selected item, which unchecks the native checkbox. *)
Theorem non_native_controls_match_native (evs : list Event) :
  let s := run pg s0 evs in
  (∀ k r e, resultsItems (search s) !! k = Some r →
     fileEntries pg !! r_entry r = Some e → e_checkbox e = true →
     step pg s (MirrorClick k) = step pg s (CheckboxClick (r_entry r))) ∧
  (∀ node it, find_item node (selectedList (sel s)) = Some it →
     step pg s (RemoveClick node) = step pg s (CheckboxClick (item_entry it)) ∧
     is_checked s (item_entry it) = true ∧
     is_checked (step pg s (RemoveClick node)) (item_entry it) = false).
Proof.
  intros s. pose proof (run_Inv pg page s0 fresh_document evs) as HI.
  pose proof (run_InvA pg page s0 fresh_document evs unique) as HA.
  fold s in HI, HA. destruct HI as [Hsel [Hmir Hres] Hcw Hiw]. split.
  - intros k r e Hr He Hc. simpl. rewrite Hr, He, Hc. unfold onMirrorChange. simpl.
    rewrite He, Hc.
    rewrite !(dispatch_change_eq pg _ _ e) by done.
    rewrite Forall_forall in Hmir.
    rewrite (Hmir r (list_elem_of_lookup_2 _ _ _ Hr) e He Hc).
    apply (onCheckboxChange_set_results pg (r_entry r)
             (λ q, <[k:=flip_mirror r]> (resultsItems q))
             (set_checked (r_entry r) (negb (is_checked s (r_entry r))) s)).
    simpl. destruct (searching (search s)) eqn:E; [done|]. by rewrite (Hres eq_refl) in Hr.
  - intros node it Hf. pose proof (find_item_Some _ _ _ Hf) as [Hin _].
    destruct Hsel as [Hwf Hbuilt]. rewrite Forall_forall in Hbuilt.
    destruct (Hbuilt _ Hin) as (e & He & Hc & Hp & Hit).
    assert (is_checked s (item_entry it) = true) as Hon.
    { apply (HA _ e); try done; [by eapply lookup_lt_Some|].
      unfold selection_order. replace (e_path e) with (item_path it)
        by (rewrite Hit; apply or_else_empty).
      by apply list_elem_of_fmap_2. }
    assert (step pg s (RemoveClick node) =
            onCheckboxChange pg (item_entry it) (set_checked (item_entry it) false s)) as Hrm.
    { simpl. rewrite Hf. unfold onRemoveClick. rewrite He, Hc.
      by rewrite (dispatch_change_eq pg _ _ e). }
    split; [|split; [done|]].
    + rewrite Hrm. simpl. rewrite He, Hc, Hon. simpl.
      by rewrite (dispatch_change_eq pg _ _ e).
    + rewrite Hrm. unfold is_checked.
      destruct (onCheckboxChange_frame pg
                  (set_checked (item_entry it) false s) (item_entry it)) as (-> & _).
      simpl. apply bool_decide_eq_false. unfold set_flag. set_solver.
Qed.

End MirrorReachable.

(** ** The search filter (C9) *)

Section SearchFilter.
Variable pg : Page.
Implicit Types (s : State).


Lemma toLowerCase_idem (a : string) : toLowerCase (toLowerCase a) = toLowerCase a.
Proof.
  induction a as [|c a IH]; simpl; [done|]. rewrite IH. f_equal.
  unfold lower_ascii.
  destruct ((65 <=? nat_of_ascii c) && (nat_of_ascii c <=? 90)) eqn:E; [|by rewrite E].
  apply andb_prop in E as [E1%Nat.leb_le E2%Nat.leb_le].
  rewrite nat_ascii_embedding by lia.
  replace (nat_of_ascii c + 32 <=? 90) with false by (symmetry; apply Nat.leb_gt; lia).
  by rewrite andb_false_r.
Qed.



End SearchFilter.

(** ** The preview highlight (C10) *)

Section PreviewHighlight.
Variable pg : Page.
Implicit Types (p : Preview) (s : State) (e : nat).

Lemma closePreview_highlight p :
  previewActive (closePreview pg p) = previewActive p ∧
  activePreviewEntry (closePreview pg p) = activePreviewEntry p.
Proof. unfold closePreview. by destruct (has_previewModal pg). Qed.







Lemma step_preview_frame s ev :
  (∀ c, ev ≠ PreviewTriggerClick c) →
  previewActive (preview (step pg s ev)) = previewActive (preview s) ∧
  activePreviewEntry (preview (step pg s ev)) = activePreviewEntry (preview s).
Proof.
  intros Hev. destruct ev as [i|k|node|node|node|text| |c| | |key]; simpl.
  - destruct (fileEntries pg !! i) as [e|]; [|done]. destruct (e_checkbox e); [|done].
    unfold dispatch_change. destruct (fileEntries pg !! i) as [e'|]; [|done].
    destruct (_ && _); [|done].
    by destruct (onCheckboxChange_frame pg (set_checked i (negb (is_checked s i)) s) i)
      as (_ & _ & -> & _).
  - destruct (resultsItems (search s) !! k) as [r|]; [|done].
    unfold onMirrorChange. simpl. destruct (fileEntries pg !! r_entry r) as [e|] eqn:He; [|done].
    destruct (e_checkbox e); [|done].
    unfold dispatch_change. rewrite He. destruct (_ && _); [|done].
    match goal with |- context [onCheckboxChange _ ?j ?s1] =>
      by destruct (onCheckboxChange_frame pg s1 j) as (_ & _ & -> & _) end.
  - destruct (find_item node _) as [item|]; [|done].
    unfold onRemoveClick. destruct (fileEntries pg !! item_entry item) as [e|] eqn:He; [|done].
    destruct (e_checkbox e); [|done].
    unfold dispatch_change. rewrite He. destruct (_ && _); [|done].
    match goal with |- context [onCheckboxChange _ ?j ?s1] =>
      by destruct (onCheckboxChange_frame pg s1 j) as (_ & _ & -> & _) end.
  - by destruct (find_item node _).
  - by destruct (find_item node _).
  - destruct (has_searchInput pg); [|done]. destruct (inputWired _); [|done].
    match goal with |- context [updateResults _ ?s1] =>
      by destruct (updateResults_frame pg s1) as (_ & _ & -> & _) end.
  - by destruct (_ && _).
  - by destruct (Hev c).
  - destruct (_ && _); [|done]. apply closePreview_highlight.
  - destruct (_ && _); [|done]. apply closePreview_highlight.
  - destruct (previewWired _); [|done]. simpl. unfold onKeyDown.
    destruct (_ && _); [|done]. apply closePreview_highlight.
Qed.

Lemma trigger_click_cases ev :
  (∃ c, ev = PreviewTriggerClick c) ∨ (∀ c, ev ≠ PreviewTriggerClick c).
Proof. destruct ev; eauto; right; intros c' [=]. Qed.




End PreviewHighlight.

(** ** A page without the search box, a malformed initial order *)

Section Degraded.
Variable pg : Page.
Implicit Types (s : State).

(** Without one of the search elements the handler returns at line 378. *)
Lemma DOMContentLoaded_without_search s0 :
  has_playlistEditor pg = true →
  has_searchInput pg && has_resultsWrapper pg && has_resultsList pg = false →
  DOMContentLoaded pg s0 = (script_start s0, Normal).
Proof.
  intros He Hs. unfold DOMContentLoaded. rewrite He. simpl.
  destruct (has_searchInput pg), (has_resultsWrapper pg), (has_resultsList pg); done.
Qed.

(** While no [change] listener is registered and the panel is empty, no event
    reaches the panel. *)
Lemma step_unwired s ev :
  changeWired (wired s) = false → selectedList (sel s) = [] →
  sel (step pg s ev) = sel s ∧ changeWired (wired (step pg s ev)) = false.
Proof.
  intros Hw Hl. destruct ev as [i|k|node|node|node|text| |c| | |key]; simpl;
    rewrite ?Hl; simpl; try done.
  - destruct (fileEntries pg !! i) as [e|] eqn:He; [|done].
    destruct (e_checkbox e); [|done].
    unfold dispatch_change. rewrite He. simpl. by rewrite Hw, andb_false_r.
  - destruct (resultsItems (search s) !! k) as [r|]; [|done].
    unfold onMirrorChange. simpl. destruct (fileEntries pg !! r_entry r) as [e|] eqn:He; [|done].
    destruct (e_checkbox e); [|done].
    unfold dispatch_change. rewrite He. simpl. by rewrite Hw, andb_false_r.
  - destruct (has_searchInput pg); [|done]. destruct (inputWired _); [|done].
    match goal with |- context [updateResults _ ?s1] =>
      by destruct (updateResults_frame pg s1) as (_ & -> & _ & -> & _) end.
  - by destruct (_ && _).
  - by destruct (previewWired _).
  - by destruct (_ && _).
  - by destruct (_ && _).
  - by destruct (previewWired _).
Qed.

Lemma run_without_search s0 evs :
  has_playlistEditor pg = true →
  has_searchInput pg && has_resultsWrapper pg && has_resultsList pg = false →
  selectedList (sel s0) = [] →
  sel (run pg s0 evs) = sel (script_start s0) ∧
  changeWired (wired (run pg s0 evs)) = false.
Proof.
  intros He Hs Hl. induction evs as [|ev evs [IH1 IH2]] using rev_ind.
  - unfold run. by rewrite DOMContentLoaded_without_search.
  - unfold run in *. rewrite foldl_app. simpl.
    destruct (step_unwired (foldl (step pg) (DOMContentLoaded pg s0).1 evs) ev) as [-> ->];
      [done|by rewrite IH1; simpl|done].
Qed.

(** An initial order that parses to anything but an array (or a value whose
    [length] is 0) makes [applyInitialOrder] throw. *)
Lemma applyInitialOrder_non_array σ :
  has_selectedList pg = true →
  match selectedListInitialOrder pg with
  | JArr _ => False
  | JStr v => v ≠ ""
  | JObj kv => obj_get "length" kv ≠ Some (JNum 0)
  | _ => True
  end →
  applyInitialOrder pg σ = (σ, Throws "TypeError").
Proof.
  intros Hl Hv. unfold applyInitialOrder. rewrite Hl. simpl.
  destruct (selectedListInitialOrder pg) as [| | |v| |kv]; simpl; try done.
  - destruct v; [done|]. done.
  - destruct (obj_get "length" kv) as [[| |z| | |]|]; simpl; try done.
    destruct (Z.eqb_spec z 0) as [-> | Hz]; done.
Qed.

End Degraded.

(** ** The claims on concrete documents *)

Section Concrete.

Lemma editor_full entries order : full_page (editor entries order).
Proof. by split. Qed.

Lemma rendered_pristine on : pristine (rendered on).
Proof. by split. Qed.

Lemma abc_unique order : unique_paths (editor abc order).
Proof.
  intros i j ei ej Hi Hj Hp _.
  destruct i as [|[|[|i]]]; destruct j as [|[|[|j]]]; simplify_eq/=; done.
Qed.

(** C1, as the specification states it, fails: with [a], [b], [c] selected in
    that order and the initial order [c, a], the panel ends as [b, c, a]. *)
Lemma initial_order_c_a_is_not_c_a_b :
  selection_order (sel (DOMContentLoaded (editor abc order_c_a) (rendered [0; 1; 2])).1)
    = ["b"; "c"; "a"] ∧
  selection_order (sel (DOMContentLoaded (editor abc order_c_a) (rendered [0; 1; 2])).1)
    ≠ ["c"; "a"; "b"].
Proof. split; [by vm_compute | vm_compute; discriminate]. Qed.

Lemma applyInitialOrder_listed_last_witness :
  selectedListInitialOrder (editor abc order_c_a) = JArr [JStr "c"; JStr "a"] ∧
  NoDup (item_node <$> selectedList panel_abc) ∧
  NoDup (selection_order panel_abc) ∧
  selection_order (applyInitialOrder (editor abc order_c_a) panel_abc).1 = ["b"; "c"; "a"].
Proof.
  assert (NoDup (item_node <$> selectedList panel_abc)) as Hnode by compute_done.
  assert (NoDup (selection_order panel_abc)) as Hpath by compute_done.
  split; [reflexivity|]. split; [exact Hnode|]. split; [exact Hpath|].
  destruct (applyInitialOrder_listed_last (editor abc order_c_a) eq_refl panel_abc
              [JStr "c"; JStr "a"] eq_refl Hnode Hpath) as (_ & -> & _).
  vm_compute. reflexivity.
Defined.

Lemma moveSelectedItem_swaps_adjacent_witness :
  NoDup (item_node <$> selectedList panel_abc) ∧
  selectedList (moveSelectedItem (editor abc AttrMissing) (item_of 1 "b") (-1) panel_abc)
    = [item_of 1 "b"; item_of 0 "a"; item_of 2 "c"] ∧
  selectedList (moveSelectedItem (editor abc AttrMissing) (item_of 1 "b") 1 panel_abc)
    = [item_of 0 "a"; item_of 2 "c"; item_of 1 "b"] ∧
  moveSelectedItem (editor abc AttrMissing) (item_of 0 "a") (-1) panel_abc = panel_abc ∧
  moveSelectedItem (editor abc AttrMissing) (item_of 2 "c") 1 panel_abc = panel_abc.
Proof.
  assert (NoDup (item_node <$> selectedList panel_abc)) as Hnode by compute_done.
  destruct (moveSelectedItem_swaps_adjacent (editor abc AttrMissing) eq_refl panel_abc Hnode)
    as (Hup & Hdown & Hfirst & Hlast & _).
  split; [exact Hnode|]. split; [|split; [|split]].
  - exact (Hup [] (item_of 0 "a") (item_of 1 "b") [item_of 2 "c"] eq_refl).
  - exact (Hdown [item_of 0 "a"] (item_of 1 "b") (item_of 2 "c") [] eq_refl).
  - exact (Hfirst (item_of 0 "a") [item_of 1 "b"; item_of 2 "c"] eq_refl).
  - exact (Hlast (item_of 2 "c") [item_of 0 "a"; item_of 1 "b"] eq_refl).
Defined.

Lemma script_start_wf s0 : selectedList (sel s0) = [] → sel_wf (sel (script_start s0)).
Proof.
  intros Hl. split; simpl; rewrite Hl; try constructor.
  - by intros ?%lookup_empty_Some.
  - by intros [?%elem_of_nil _].
Qed.

Lemma syncSelectedEntry_toggle_witness :
  let pg := editor abc AttrMissing in
  let s := script_start (rendered [1]) in
  sel_wf (sel s) ∧
  selectedList (sel (syncSelectedEntry pg 1 s))
    = [buildSelectedListItem 0 1 (mkFileEntry (video "b"))] ∧
  syncSelectedEntry pg 1 (syncSelectedEntry pg 1 s) = syncSelectedEntry pg 1 s ∧
  length (filter (λ p, p = "b")
            (selection_order (sel (syncSelectedEntry pg 1 (syncSelectedEntry pg 1 s))))) = 1.
Proof.
  intros pg s.
  assert (sel_wf (sel s)) as Hwf by (by apply script_start_wf).
  assert ("b" ≠ "") as Hb by discriminate.
  destruct (syncSelectedEntry_toggle pg eq_refl 1 (mkFileEntry (video "b")) eq_refl eq_refl
              Hb s Hwf) as (Hadd & _ & _ & Hidem & Honce).
  split; [exact Hwf|]. split; [|split].
  - destruct (Hadd eq_refl eq_refl) as [Hl _]. exact Hl.
  - exact Hidem.
  - exact (Honce eq_refl).
Defined.

Lemma toggle_selection_equivalence_witness :
  let pg := editor abc AttrMissing in
  let s := run pg (rendered [0; 2]) [CheckboxClick 1; CheckboxClick 0] in
  full_page pg ∧ pristine (rendered [0; 2]) ∧ unique_paths pg ∧
  toggled_on pg s "b" ∧ ¬ toggled_on pg s "a".
Proof.
  intros pg s.
  pose proof (editor_full abc AttrMissing) as Hfull.
  pose proof (rendered_pristine [0; 2]) as Hpr.
  pose proof (abc_unique AttrMissing) as Huniq.
  split; [exact Hfull|]. split; [exact Hpr|]. split; [exact Huniq|].
  pose proof (toggle_selection_equivalence pg Hfull (rendered [0; 2]) Hpr
                [CheckboxClick 1; CheckboxClick 0]) as H.
  destruct (H "b" Huniq) as [Hb _]. destruct (H "a" Huniq) as [Ha _]. fold s in Ha, Hb.
  replace (selection_order (sel s)) with ["c"; "b"] in Ha, Hb by (by vm_compute).
  split.
  - apply Hb. apply elem_of_cons. right. apply elem_of_cons. by left.
  - intros Hon%Ha. apply elem_of_cons in Hon as [[=] | Hon].
    apply elem_of_cons in Hon as [[=] | Hon]. by apply elem_of_nil in Hon.
Defined.

Lemma serialized_order_matches_witness :
  let pg := editor abc order_c_a in
  let s := run pg (rendered [0; 1; 2]) [MoveUpClick 2; CheckboxClick 1] in
  full_page pg ∧ pristine (rendered [0; 1; 2]) ∧
  has_orderedInputsContainer pg = true ∧
  (DOMContentLoaded pg (rendered [0; 1; 2])).2 = Normal ∧
  orderedInputs (sel s) = selection_order (sel s).
Proof.
  intros pg s.
  pose proof (editor_full abc order_c_a) as Hfull.
  pose proof (rendered_pristine [0; 1; 2]) as Hpr.
  assert ((DOMContentLoaded pg (rendered [0; 1; 2])).2 = Normal) as Hn by (by vm_compute).
  split; [exact Hfull|]. split; [exact Hpr|]. split; [reflexivity|]. split; [exact Hn|].
  exact (proj1 (serialized_order_matches pg Hfull (rendered [0; 1; 2]) Hpr
                  [MoveUpClick 2; CheckboxClick 1] eq_refl Hn)).
Defined.

Lemma non_native_controls_match_native_witness :
  let pg := editor abc AttrMissing in
  let s := run pg (rendered [0; 2]) [SearchInput " B "] in
  full_page pg ∧ pristine (rendered [0; 2]) ∧ unique_paths pg ∧
  step pg s (MirrorClick 0) = step pg s (CheckboxClick 1) ∧
  step pg s (RemoveClick 1) = step pg s (CheckboxClick 2).
Proof.
  intros pg s.
  pose proof (editor_full abc AttrMissing) as Hfull.
  pose proof (rendered_pristine [0; 2]) as Hpr.
  pose proof (abc_unique AttrMissing) as Huniq.
  split; [exact Hfull|]. split; [exact Hpr|]. split; [exact Huniq|].
  destruct (non_native_controls_match_native pg Hfull (rendered [0; 2]) Hpr Huniq
              [SearchInput " B "]) as [Hmirror Hremove]. fold s in Hmirror, Hremove.
  assert (resultsItems (search s) !! 0 = Some (buildResultItem s 1 (mkFileEntry (video "b"))))
    as Hr by (vm_compute; reflexivity).
  assert (find_item 1 (selectedList (sel s))
          = Some (buildSelectedListItem 1 2 (mkFileEntry (video "c"))))
    as Hf by (vm_compute; reflexivity).
  split.
  - exact (Hmirror 0 _ (mkFileEntry (video "b")) Hr eq_refl eq_refl).
  - exact (proj1 (Hremove 1 _ Hf)).
Defined.

(** The search filter and the preview on the sample catalog. *)

Example trim_strips_both_ends : trim "  Ab c  " = "Ab c".
Proof. reflexivity. Qed.

Example search_ignores_case_and_blanks :
  r_entry <$> resultsItems
    (search (run (editor abc AttrMissing) (rendered [1]) [SearchInput " B "])) = [1] ∧
  r_checked <$> resultsItems
    (search (run (editor abc AttrMissing) (rendered [1]) [SearchInput " B "])) = [true].
Proof. split; vm_compute; reflexivity. Qed.

Example search_without_match_shows_alert :
  let q := search (run (editor abc AttrMissing) (rendered []) [SearchInput "zz"]) in
  (wrapperHidden q, listHidden q, alertHidden q, resultsItems q) = (false, true, false, []).
Proof. vm_compute. reflexivity. Qed.

Example blank_search_hides_panel :
  let q := search (run (editor abc AttrMissing) (rendered [])
                     [SearchInput "zz"; SearchInput "   "]) in
  (wrapperHidden q, alertHidden q, resultsItems q) = (true, true, []).
Proof. vm_compute. reflexivity. Qed.

Example close_leaves_highlight :
  let click path := PreviewTriggerClick
                      (mkTriggerClick (mkTrigger path ("/media/" +:+ path) path) (Some path)) in
  let p := preview (run (editor abc AttrMissing) (rendered [])
                      [click "a"; KeyDown "Escape"]) in
  let p' := preview (run (editor abc AttrMissing) (rendered [])
                       [click "a"; PreviewCloseClick; click "c"]) in
  (elements (previewActive p), activePreviewEntry p, modalHidden p, videoSrc p)
    = ([0], Some 0, true, None) ∧
  (elements (previewActive p'), activePreviewEntry p', modalHidden p')
    = ([2], Some 2, false).
Proof. split; vm_compute; reflexivity. Qed.

(** C2, as the specification states it, fails on the script: on a page that
    has the editor, the selected list and three checked entries but no search
    box, page load ends before the loop over the checkboxes; the panel and the
    hidden inputs stay empty, no [change] listener is registered, and no later
    user action fills them.  With the search box the same document loads its
    three items. *)
Theorem missing_search_box_disables_selection :
  let pg := editor_without_search abc AttrMissing in
  let s0 := rendered [0; 1; 2] in
  DOMContentLoaded pg s0 = (script_start s0, Normal) ∧
  (∀ evs, selectedList (sel (run pg s0 evs)) = [] ∧
          orderedInputs (sel (run pg s0 evs)) = [] ∧
          changeWired (wired (run pg s0 evs)) = false) ∧
  toggled_on pg (DOMContentLoaded pg s0).1 "a" ∧
  selection_order (sel (DOMContentLoaded (editor abc AttrMissing) s0).1) = ["a"; "b"; "c"] ∧
  orderedInputs (sel (DOMContentLoaded (editor abc AttrMissing) s0).1) = ["a"; "b"; "c"].
Proof.
  intros pg s0. split; [|split; [|split; [|split]]].
  - by apply DOMContentLoaded_without_search.
  - intros evs. destruct (run_without_search pg s0 evs) as [-> ->]; done.
  - exists 0, (mkFileEntry (video "a")). repeat split; done.
  - vm_compute. reflexivity.
  - vm_compute. reflexivity.
Qed.

(** C3, as the specification states it, fails on the script: a
    [data-initial-order] that is not JSON is treated like a missing one, but
    one that parses to an object, a number, [null] or a non-empty string makes
    page load throw a [TypeError] in [applyInitialOrder]; the items are in
    encounter order, yet the handler never reaches the registration of the
    clear button, which a page without initial order does reach. *)
Theorem non_array_initial_order_throws :
  let s0 := rendered [0; 1; 2] in
  DOMContentLoaded (editor abc (AttrText None)) s0
    = DOMContentLoaded (editor abc AttrMissing) s0 ∧
  (∀ v, v ∈ [JObj [("a", JNum 1)]; JNum 5; JNull; JBool true; JStr "c"] →
     (DOMContentLoaded (editor abc (AttrText (Some v))) s0).2 = Throws "TypeError" ∧
     clearWired (wired (DOMContentLoaded (editor abc (AttrText (Some v))) s0).1) = false ∧
     selection_order (sel (DOMContentLoaded (editor abc (AttrText (Some v))) s0).1)
       = ["a"; "b"; "c"]) ∧
  (DOMContentLoaded (editor abc AttrMissing) s0).2 = Normal ∧
  clearWired (wired (DOMContentLoaded (editor abc AttrMissing) s0).1) = true.
Proof.
  intros s0. split; [by vm_compute|]. split; [|by vm_compute].
  intros v Hv. repeat (apply elem_of_cons in Hv as [-> | Hv]; [by vm_compute|]).
  by apply elem_of_nil in Hv.
Qed.

End Concrete.

(** * Further properties of the selected panel *)

Section LastFlag.
Context {A : Type} (f : A → bool) (g : A → nat).

Lemma last_flag_snoc (l : list A) (a : A) (n : nat) :
  last_flag f g (l ++ [a]) n = if decide (g a = n) then Some (f a) else last_flag f g l n.
Proof. unfold last_flag. by rewrite foldl_app. Qed.

(** With distinct nodes, the flag of a node is the one its element asks for. *)
Lemma last_flag_NoDup (l : list A) (k : nat) (a : A) :
  NoDup (g <$> l) → l !! k = Some a → last_flag f g l (g a) = Some (f a).
Proof.
  induction l as [|b l IH] using rev_ind; [done|].
  rewrite fmap_app. intros (Hnd & Hdisj & _)%NoDup_app Hk. rewrite last_flag_snoc.
  apply lookup_app_Some in Hk as [Hk | [_ Hk]].
  - rewrite decide_False; [by apply IH|]. intros Heq.
    apply (Hdisj (g a)); [|rewrite <-Heq; left].
    apply list_elem_of_fmap_2. by eapply list_elem_of_lookup_2.
  - apply list_lookup_singleton_Some in Hk as [_ ->]. by rewrite decide_True.
Qed.

End LastFlag.

Section Projections2.
Variable pg : Page.
Hypothesis list_present : has_selectedList pg = true.
Implicit Types (σ : Selection) (s : State).

(** The order in which the three projections run does not matter. *)
Lemma finish_project σ : finish pg σ = project pg σ.
Proof.
  rewrite project_unfold by done.
  unfold finish, updateSelectedSummary. rewrite list_present. simpl.
  unfold updateReorderControls. rewrite list_present. simpl.
  unfold refreshOrderedInputs. rewrite list_present, orb_false_r.
  by destruct (has_orderedInputsContainer pg).
Qed.

Lemma InvSel_unproject σ : InvSel pg (project pg σ) → InvSel pg σ.
Proof.
  apply InvSel_perm; by rewrite ?project_list, ?project_map, ?project_next.
Qed.

Lemma indexed_nodes (l : list Item) :
  (λ ii : nat * Item, item_node ii.2) <$> imap pair l = item_node <$> l.
Proof. rewrite fmap_imap. by rewrite <-(imap_const item_node). Qed.

Lemma ControlsOk_project σ : InvSel pg σ → ControlsOk (project pg σ).
Proof.
  intros [[Hnd _ _] _] k it Hk. rewrite project_unfold in Hk |- * by done. simpl in *.
  assert (imap pair (selectedList σ) !! k = Some (k, it)) as Hik
    by (by rewrite list_lookup_imap, Hk).
  rewrite !elem_of_set_flags.
  rewrite (last_flag_NoDup _ (λ ii : nat * Item, item_node ii.2) _ k (k, it))
    by (by rewrite ?indexed_nodes).
  rewrite (last_flag_NoDup _ (λ ii : nat * Item, item_node ii.2) _ k (k, it))
    by (by rewrite ?indexed_nodes).
  simpl. rewrite Nat.eqb_eq, Z.eqb_eq. split; [done|]. lia.
Qed.

Lemma SummaryOk_project σ : SummaryOk pg (project pg σ).
Proof.
  rewrite project_unfold by done. split; simpl; by intros ->.
Qed.

End Projections2.

(** Any property that the projections establish holds in every state of the
    running page. *)
Section Projected.
Variable pg : Page.
Hypothesis list_present : has_selectedList pg = true.
Variable Q : Selection → Prop.
Hypothesis Q_project : ∀ σ, InvSel pg σ → Q (project pg σ).
Implicit Types (σ : Selection) (s : State).

Lemma syncSelectedEntry_Q s i :
  InvSel pg (sel s) → Q (sel s) → Q (sel (syncSelectedEntry pg i s)).
Proof.
  intros Hsel HQ. pose proof (syncSelectedEntry_InvSel pg list_present s i Hsel) as Hsel'.
  destruct (entry_cases pg i) as [(e & He & Hc & Hp) | Hno];
    [|by rewrite syncSelectedEntry_noop].
  rewrite (syncSelectedEntry_unfold pg list_present i e) in Hsel' |- * by done.
  simpl in *. by apply Q_project, InvSel_unproject.
Qed.

Lemma moveSelectedItem_Q σ x d :
  x ∈ selectedList σ → d = (-1)%Z ∨ d = 1%Z →
  InvSel pg σ → Q σ → Q (moveSelectedItem pg x d σ).
Proof.
  intros Hx Hd Hsel HQ.
  pose proof (moveSelectedItem_InvSel pg list_present σ x d Hx Hd Hsel) as Hsel'.
  destruct (moveSelectedItem_cases pg list_present σ x d) as [-> | [l' Heq]]; [done|].
  rewrite Heq in Hsel' |- *. fold (finish pg (set_selectedList l' σ)) in Hsel' |- *.
  rewrite finish_project in Hsel' |- * by done. by apply Q_project, InvSel_unproject.
Qed.

Lemma step_Q s ev : Inv pg s → Q (sel s) → Q (sel (step pg s ev)).
Proof.
  intros [Hsel _ Hcw Hiw] HQ.
  destruct ev as [i|k|node|node|node|text| |c| | |key]; simpl.
  - destruct (fileEntries pg !! i) as [e|] eqn:He; [|done].
    destruct (e_checkbox e) eqn:Hc; [|done].
    rewrite (dispatch_change_eq pg _ i e) by done.
    destruct (onCheckboxChange_frame pg (set_checked i (negb (is_checked s i)) s) i)
      as (_ & -> & _).
    by apply syncSelectedEntry_Q.
  - destruct (resultsItems (search s) !! k) as [r|] eqn:Hr; [|done].
    unfold onMirrorChange. simpl.
    destruct (fileEntries pg !! r_entry r) as [e|] eqn:He; [|done].
    destruct (e_checkbox e) eqn:Hc; [|done].
    rewrite (dispatch_change_eq pg _ _ e) by done.
    match goal with |- Q (sel (onCheckboxChange _ ?j ?s1)) =>
      destruct (onCheckboxChange_frame pg s1 j) as (_ & -> & _) end.
    by apply syncSelectedEntry_Q.
  - destruct (find_item node _) as [item|] eqn:Hf; [|done].
    unfold onRemoveClick. destruct (fileEntries pg !! item_entry item) as [e|] eqn:He; [|done].
    destruct (e_checkbox e) eqn:Hc; [|done].
    rewrite (dispatch_change_eq pg _ _ e) by done.
    match goal with |- Q (sel (onCheckboxChange _ ?j ?s1)) =>
      destruct (onCheckboxChange_frame pg s1 j) as (_ & -> & _) end.
    by apply syncSelectedEntry_Q.
  - destruct (find_item node _) as [item|] eqn:Hf; [|done].
    apply find_item_Some in Hf as [Hx _]. simpl. apply moveSelectedItem_Q; auto.
  - destruct (find_item node _) as [item|] eqn:Hf; [|done].
    apply find_item_Some in Hf as [Hx _]. simpl. apply moveSelectedItem_Q; auto.
  - destruct (has_searchInput pg); [|done]. rewrite Hiw.
    match goal with |- Q (sel (updateResults _ ?s1)) =>
      destruct (updateResults_frame pg s1) as (_ & -> & _) end. done.
  - destruct (_ && _); done.
  - destruct (previewWired _); done.
  - destruct (_ && _); done.
  - destruct (_ && _); done.
  - destruct (previewWired _); done.
Qed.

Lemma sync_all_Q k entries s :
  InvSel pg (sel s) → Q (sel s) → Q (sel (sync_all pg k entries s)).
Proof.
  revert k s. induction entries as [|e entries IH]; intros k s Hsel HQ; [done|]. simpl.
  destruct (e_checkbox e); [|by apply IH].
  apply IH; [by apply syncSelectedEntry_InvSel | by apply syncSelectedEntry_Q].
Qed.

Lemma applyInitialOrder_Q σ :
  InvSel pg σ → Q σ ∨ (applyInitialOrder pg σ).2 = Normal →
  Q (applyInitialOrder pg σ).1.
Proof.
  intros Hsel HQ. pose proof (applyInitialOrder_InvSel pg list_present σ Hsel) as Hsel'.
  destruct (applyInitialOrder_cases pg list_present σ) as [Heq | (l' & _ & Heq)];
    rewrite Heq in HQ, Hsel' |- *; simpl in *.
  - by destruct HQ.
  - fold (finish pg (set_selectedList l' σ)) in Hsel' |- *.
    rewrite finish_project in Hsel' |- * by done. by apply Q_project, InvSel_unproject.
Qed.

End Projected.

Section PanelReachable.
Variable pg : Page.
Hypothesis page : full_page pg.
Variable s0 : State.
Hypothesis fresh_document : pristine s0.

Lemma run_projected (Q : Selection → Prop) (evs : list Event) :
  (∀ σ, InvSel pg σ → Q (project pg σ)) →
  Q (sel (script_start s0)) ∨ (DOMContentLoaded pg s0).2 = Normal →
  Q (sel (run pg s0 evs)).
Proof.
  intros HQ Hstart. induction evs as [|ev evs IH] using rev_ind.
  - unfold run. simpl.
    destruct (DOMContentLoaded_unfold pg page s0 fresh_document)
      as ((Hsel & _) & Hcompl & -> & _).
    rewrite Hcompl in Hstart.
    apply applyInitialOrder_Q; [apply page|done| |].
    + apply sync_all_InvSel; [apply page|done].
    + destruct Hstart as [Hstart | Hn]; [left|by right].
      apply sync_all_Q; [apply page|done|done|done].
  - rewrite run_snoc. apply step_Q; [apply page|done|by apply run_Inv|done].
Qed.

(** X1: in every state of the running page the move-up button is disabled on
    the first item of the panel and on no other, the move-down button on the
    last item and on no other. *)
Theorem reorder_controls_follow_position (evs : list Event) (k : nat) (it : Item) :
  selectedList (sel (run pg s0 evs)) !! k = Some it →
  (item_node it ∈ upDisabled (sel (run pg s0 evs)) ↔ k = 0) ∧
  (item_node it ∈ downDisabled (sel (run pg s0 evs)) ↔
   S k = length (selectedList (sel (run pg s0 evs)))).
Proof.
  revert k it. apply (run_projected ControlsOk).
  - intros σ. apply ControlsOk_project, page.
  - left. intros k it. simpl. destruct fresh_document as [-> _]. done.
Qed.

(** X2: once page load has completed, the count label always reads
    ["1 Video"] for one selected item and ["n Videos"] otherwise, and the
    empty-state element is hidden exactly when the panel has an item. *)
Theorem summary_follows_panel (evs : list Event) :
  (DOMContentLoaded pg s0).2 = Normal →
  let σ := sel (run pg s0 evs) in
  (has_selectedCount pg = true →
   countLabel σ = if bool_decide (length (selectedList σ) = 1) then "1 Video"
                  else pretty (length (selectedList σ)) +:+ " Videos") ∧
  (has_selectedEmptyState pg = true →
   emptyStateHidden σ = bool_decide (0 < length (selectedList σ))).
Proof.
  intros Hn. apply (run_projected (SummaryOk pg)).
  - intros σ _. apply SummaryOk_project, page.
  - by right.
Qed.

(** X3: in every state of the running page no path occurs twice in the panel,
    and [selectedEntryMap] maps a path to an item exactly when that item is
    in the panel under that path. *)
Theorem panel_has_no_duplicates (evs : list Event) :
  NoDup (selection_order (sel (run pg s0 evs))) ∧
  ∀ p it, selectedEntryMap (sel (run pg s0 evs)) !! p = Some it ↔
          it ∈ selectedList (sel (run pg s0 evs)) ∧ item_path it = p.
Proof.
  destruct (run_Inv pg page s0 fresh_document evs) as [[Hwf _] _ _ _].
  split; [by apply sel_wf_paths | apply Hwf].
Qed.

(** X4: in every state of the running page each proxy checkbox of the search
    results shows the state of the native checkbox of its entry, and results
    are listed only while the search box holds a query. *)
Theorem mirror_shows_native_state (evs : list Event) :
  let s := run pg s0 evs in
  (∀ r e, r ∈ resultsItems (search s) → fileEntries pg !! r_entry r = Some e →
          e_checkbox e = true → r_checked r = is_checked s (r_entry r)) ∧
  (all_white (searchValue (search s)) = true → resultsItems (search s) = []).
Proof.
  intros s. destruct (run_Inv pg page s0 fresh_document evs) as [_ [Hmir Hres] _ _].
  fold s in Hmir, Hres. split.
  - intros r e Hr. rewrite Forall_forall in Hmir. by apply Hmir.
  - intros Hw. apply Hres. unfold searching. rewrite or_else_empty.
    apply truthy_false. by apply trim_empty.
Qed.

End PanelReachable.

(** * The catalog index and the order at page load *)

Lemma filter_nil_on {A} (P : A → Prop) `{!∀ x, Decision (P x)} (l : list A) :
  Forall (λ x, ¬ P x) l → filter P l = [].
Proof.
  induction 1 as [|x l Hx _ IH]; [done|]. by rewrite filter_cons_False.
Qed.

Lemma keep_last_NoDup (X : list string) : NoDup X → keep_last X = X.
Proof.
  induction 1 as [|x X Hx _ IH]; [done|]. simpl. by rewrite decide_False, IH.
Qed.

Section CatalogIndex.
Implicit Types (l : list Entry) (p : string).

Lemma fileEntryMap_snoc (l : list Entry) (e : Entry) :
  let pairs (es : list Entry) :=
    (λ ie : nat * Entry, (e_path ie.2, ie.1)) <$>
      filter (λ ie : nat * Entry, truthy (e_path ie.2) = true) (imap pair es) in
  js_map_of (pairs (l ++ [e])) =
  if truthy (e_path e) then <[e_path e := length l]> (js_map_of (pairs l))
  else js_map_of (pairs l).
Proof.
  intros pairs. subst pairs. cbv beta.
  rewrite imap_app, filter_app. cbn [imap]. rewrite Nat.add_0_r.
  destruct (truthy (e_path e)) eqn:Ht.
  - rewrite (filter_cons_True _ (length l, e)) by done.
    rewrite filter_nil, fmap_app. cbn [fmap list_fmap]. by rewrite js_map_of_snoc.
  - rewrite (filter_cons_False _ (length l, e)) by (simpl; by rewrite Ht).
    by rewrite filter_nil, app_nil_r.
Qed.

(** X5: the catalog index [fileEntryMap] finds, for a path, the last entry of
    the document with that path; entries without a path are not indexed. *)
Theorem fileEntryMap_lookup (pg : Page) (p : string) (i : nat) :
  fileEntryMap pg !! p = Some i ↔
  p ≠ "" ∧ (∃ e, fileEntries pg !! i = Some e ∧ e_path e = p) ∧
  ∀ j e', i < j → fileEntries pg !! j = Some e' → e_path e' ≠ p.
Proof.
  unfold fileEntryMap. generalize (fileEntries pg) as l. clear pg.
  induction l as [|el l IH] using rev_ind.
  - unfold js_map_of. simpl. rewrite lookup_empty. split; [done|].
    by intros (_ & (e & ? & _) & _).
  - rewrite (fileEntryMap_snoc l el).
    assert (∀ j e', (l ++ [el]) !! j = Some e' ↔
              l !! j = Some e' ∨ (j = length l ∧ e' = el)) as Hlook.
    { intros j e'. rewrite lookup_app_Some.
      split; intros [H | [Hl H]]; auto.
      - right. apply list_lookup_singleton_Some in H as [H <-]. split; [lia|done].
      - right. subst. split; [lia|]. by rewrite Nat.sub_diag. }
    assert (∀ j e', l !! j = Some e' → j < length l) as Hlt
      by (intros j e' H; by eapply lookup_lt_Some).
    destruct (truthy (e_path el)) eqn:Ht.
    + destruct (decide (e_path el = p)) as [<- | Hne].
      * rewrite lookup_insert_eq. apply truthy_true in Ht. split.
        -- intros [= <-]. split; [done|]. split.
           ++ exists el. split; [|done]. apply Hlook. by right.
           ++ intros j e' Hj [H | [-> _]]%Hlook; [apply Hlt in H|]; lia.
        -- intros (_ & (e & [He | [-> _]]%Hlook & Hp) & Hlast); [|done].
           exfalso. apply (Hlast (length l) el); [by eapply Hlt| |done].
           apply Hlook. by right.
      * rewrite lookup_insert_ne by done. rewrite IH. split.
        -- intros (Hp & (e & He & Hpe) & Hlast). split; [done|]. split.
           ++ exists e. split; [|done]. apply Hlook. by left.
           ++ intros j e' Hj [H | [-> ->]]%Hlook; [by eapply Hlast|done].
        -- intros (Hp & (e & [He | [-> ->]]%Hlook & Hpe) & Hlast); [|done].
           split; [done|]. split; [by exists e|].
           intros j e' Hj H. apply (Hlast j e' Hj). apply Hlook. by left.
    + apply truthy_false in Ht. rewrite IH. split.
      * intros (Hp & (e & He & Hpe) & Hlast). split; [done|]. split.
        -- exists e. split; [|done]. apply Hlook. by left.
        -- intros j e' Hj [H | [-> ->]]%Hlook; [by eapply Hlast|congruence].
      * intros (Hp & (e & [He | [-> ->]]%Hlook & Hpe) & Hlast); [|congruence].
        split; [done|]. split; [by exists e|].
        intros j e' Hj H. apply (Hlast j e' Hj). apply Hlook. by left.
Qed.

End CatalogIndex.

Section EncounterOrder.
Variable pg : Page.
Hypothesis list_present : has_selectedList pg = true.
Hypothesis unique : unique_paths pg.
Implicit Types (s : State).

(** The loop of lines 488-498 appends the checked entries in document order. *)
Lemma sync_all_encounter pre suf s :
  fileEntries pg = pre ++ suf → InvSel pg (sel s) →
  (∀ p, p ∈ selection_order (sel s) →
        ∃ j e, j < length pre ∧ fileEntries pg !! j = Some e ∧ e_path e = p) →
  selection_order (sel (sync_all pg (length pre) suf s)) =
  selection_order (sel s) ++ encounter (checked s) (length pre) suf.
Proof.
  revert pre s. induction suf as [|e suf IH]; intros pre s Hall Hsel Hold.
  - simpl. by rewrite app_nil_r.
  - assert (fileEntries pg !! length pre = Some e) as He
      by (rewrite Hall; by apply list_lookup_middle).
    assert (fileEntries pg = (pre ++ [e]) ++ suf) as Hall' by (by rewrite <-app_assoc).
    assert (length (pre ++ [e]) = S (length pre)) as Hlen by (rewrite length_app; simpl; lia).
    cbn [sync_all encounter]. rewrite <-Hlen.
    set (s' := if e_checkbox e then syncSelectedEntry pg (length pre) s else s).
    assert (checked s' = checked s) as Hch.
    { subst s'. destruct (e_checkbox e); [|done].
      by destruct (syncSelectedEntry_frame pg s (length pre)) as (-> & _). }
    assert (InvSel pg (sel s')) as Hsel'.
    { subst s'. destruct (e_checkbox e); [|done]. by apply syncSelectedEntry_InvSel. }
    assert (selection_order (sel s') =
            selection_order (sel s) ++
            (if e_checkbox e && truthy (e_path e) && bool_decide (length pre ∈ checked s)
             then [e_path e] else [])) as Hstep.
    { subst s'. destruct (e_checkbox e) eqn:Hc; simpl; [|by rewrite app_nil_r].
      destruct (truthy (e_path e)) eqn:Ht; simpl.
      - apply truthy_true in Ht.
        assert (selectedEntryMap (sel s) !! e_path e = None) as Hnone.
        { destruct (selectedEntryMap (sel s) !! e_path e) as [it|] eqn:E; [|done].
          exfalso. destruct Hsel as [Hwf _]. apply (wf_map _ Hwf) in E as [Hin Hp].
          destruct (Hold (e_path e)) as (j & e' & Hj & He' & Hp').
          { rewrite <-Hp. by apply list_elem_of_fmap_2. }
          assert (j = length pre) by (by apply (unique j (length pre) e' e); rewrite ?Hp').
          lia. }
        destruct (bool_decide (length pre ∈ checked s)) eqn:Hon.
        + destruct (syncSelectedEntry_add pg list_present _ e He Hc Ht s)
            as [Hl _]; [apply Hsel|done|done|].
          unfold selection_order. rewrite Hl, fmap_app. simpl. by rewrite or_else_empty.
        + destruct (syncSelectedEntry_same pg list_present _ e He Hc Ht s) as (Hl & _).
          { unfold is_checked. by rewrite Hon, Hnone. }
          unfold selection_order. by rewrite Hl, app_nil_r.
      - rewrite syncSelectedEntry_noop; [by rewrite app_nil_r|].
        intros e' He'. right. apply truthy_false. congruence. }
    rewrite (IH (pre ++ [e]) s' Hall' Hsel').
    + by rewrite Hstep, Hch, <-app_assoc.
    + intros p. rewrite Hstep, elem_of_app. intros [Hp | Hp].
      * destruct (Hold p Hp) as (j & e' & Hj & ?). exists j, e'. split; [lia|done].
      * exists (length pre), e. split; [lia|]. split; [done|].
        destruct (_ && _); [|by apply elem_of_nil in Hp].
        by apply list_elem_of_singleton in Hp.
Qed.

End EncounterOrder.

Section LoadOrder.
Variable pg : Page.
Hypothesis page : full_page pg.
Variable s0 : State.
Hypothesis fresh_document : pristine s0.
Hypothesis unique : unique_paths pg.

Lemma load_before_order :
  let s3 := sync_all pg 0 (fileEntries pg)
              (with_wired (λ _, mkListeners true true true false) (script_start s0)) in
  selection_order (sel s3) = encounter (checked s0) 0 (fileEntries pg) ∧
  InvSel pg (sel s3) ∧
  sel (DOMContentLoaded pg s0).1 = (applyInitialOrder pg (sel s3)).1.
Proof.
  intros s3. destruct (DOMContentLoaded_unfold pg page s0 fresh_document)
    as ((Hsel & Hc & _) & _ & Hs & _).
  split; [|split; [|done]].
  - subst s3. rewrite (sync_all_encounter pg (fp_list _ page) unique [] (fileEntries pg));
      try done.
    + simpl. destruct fresh_document as [-> _]. done.
    + simpl. destruct fresh_document as [-> _]. by intros p ?%elem_of_nil.
  - apply sync_all_InvSel; [apply page|done].
Qed.

(** X6: when the server supplies no usable initial order (none, unparseable,
    an empty array, or a value on which [applyInitialOrder] throws), the panel
    holds after page load the paths of the checked catalog entries in
    document order. *)
Theorem load_keeps_encounter_order :
  (∀ v order, selectedListInitialOrder pg = JArr (v :: order) → False) →
  selection_order (sel (DOMContentLoaded pg s0).1) =
  encounter (checked s0) 0 (fileEntries pg).
Proof.
  intros Hno. destruct load_before_order as (Henc & Hsel & ->).
  rewrite <-Henc. unfold selection_order. f_equal.
  unfold applyInitialOrder. rewrite (fp_list _ page). simpl.
  destruct (selectedListInitialOrder pg) as [| | |v|[|v order]|kv] eqn:E; simpl;
    try done; try (by autorewrite with proj).
  - destruct (_ =? _)%Z; simpl; autorewrite with proj; done.
  - by destruct (Hno v order).
  - destruct (obj_get "length" kv) as [w|]; [|done]. simpl.
    repeat case_match; simpl; autorewrite with proj; done.
Qed.

(** X7: when the server supplies a complete initial order, an array that
    lists the path of every checked entry once, the panel holds after page
    load exactly the supplied order, the handler ends normally and, when the
    page has the container, the hidden inputs spell that order. *)
Theorem load_applies_complete_order (ps : list string) :
  selectedListInitialOrder pg = JArr (JStr <$> ps) →
  ps ≡ₚ encounter (checked s0) 0 (fileEntries pg) →
  selection_order (sel (DOMContentLoaded pg s0).1) = ps ∧
  (DOMContentLoaded pg s0).2 = Normal ∧
  (has_orderedInputsContainer pg = true →
   orderedInputs (sel (DOMContentLoaded pg s0).1) = ps).
Proof.
  intros Horder Hperm. destruct load_before_order as (Henc & Hsel & Hs).
  set (σ := sel (sync_all pg 0 (fileEntries pg)
                   (with_wired (λ _, mkListeners true true true false) (script_start s0))))
    in *.
  pose proof (sel_wf_paths _ (proj1 Hsel)) as Hnd.
  assert (applyInitialOrder pg σ =
          (finish pg (set_selectedList
             (apply_order (itemsByPath_of (selectedList σ)) (JStr <$> ps) (selectedList σ)) σ),
           Normal)) as Happly.
  { unfold applyInitialOrder, finish. rewrite (fp_list _ page), Horder. simpl.
    destruct ps as [|p ps]; simpl.
    - do 3 f_equal. by destruct σ.
    - done. }
  assert (selection_order (sel (DOMContentLoaded pg s0).1) = ps) as Hres.
  { rewrite Hs, Happly. simpl. unfold selection_order, finish. autorewrite with proj. simpl.
    destruct (apply_order_paths (selectedList σ) (JStr <$> ps)) as [_ ->];
      [apply Hsel|done|].
    assert (listed (JStr <$> ps) = ps) as ->.
    { unfold listed. clear. induction ps as [|p ps IH]; [done|].
      rewrite fmap_cons. cbn [omap list_omap]. by f_equal. }
    fold (selection_order σ). rewrite Henc.
    rewrite (filter_nil_on _ (encounter _ _ _)); simpl.
    - rewrite filter_all by (apply Forall_forall; intros q Hq; by rewrite <-Hperm).
      apply keep_last_NoDup. rewrite Hperm, <-Henc. done.
    - apply Forall_forall. intros q Hq Hni. apply Hni. by rewrite Hperm. }
  split; [done|]. split.
  - destruct (DOMContentLoaded_unfold pg page s0 fresh_document) as (_ & -> & _).
    fold σ. by rewrite Happly.
  - intros Hc. rewrite <-Hres. apply DOMContentLoaded_InputsOk; try done.
    destruct (DOMContentLoaded_unfold pg page s0 fresh_document) as (_ & -> & _).
    fold σ. by rewrite Happly.
Qed.

End LoadOrder.

(** * Moves, the preview and the search box *)

Section MoveRoundTrip.
Variable pg : Page.
Hypothesis list_present : has_selectedList pg = true.
Implicit Types (σ : Selection).

Lemma NoDup_swap_nodes (l1 l2 : list Item) (a b : Item) :
  NoDup (item_node <$> l1 ++ a :: b :: l2) → NoDup (item_node <$> l1 ++ b :: a :: l2).
Proof.
  intros H. assert (l1 ++ b :: a :: l2 ≡ₚ l1 ++ a :: b :: l2) as ->; [|done].
  apply Permutation_app_head, perm_swap.
Qed.

(** X8: moving an item up and then down again, or down and then up again,
    restores the order of the panel. *)
Theorem move_there_and_back σ (x : Item) :
  NoDup (item_node <$> selectedList σ) →
  ((∃ l1 p l2, selectedList σ = l1 ++ p :: x :: l2) →
   selectedList (moveSelectedItem pg x 1 (moveSelectedItem pg x (-1) σ)) = selectedList σ) ∧
  ((∃ l1 n l2, selectedList σ = l1 ++ x :: n :: l2) →
   selectedList (moveSelectedItem pg x (-1) (moveSelectedItem pg x 1 σ)) = selectedList σ).
Proof.
  intros Hnd. split.
  - intros (l1 & p & l2 & Hl).
    pose proof (moveSelectedItem_up_list pg list_present σ l1 p x l2 Hnd Hl) as Hup.
    rewrite (moveSelectedItem_down_list pg list_present _ l1 x p l2); [done| |done].
    rewrite Hup. apply NoDup_swap_nodes. by rewrite <-Hl.
  - intros (l1 & n & l2 & Hl).
    pose proof (moveSelectedItem_down_list pg list_present σ l1 x n l2 Hnd Hl) as Hdown.
    rewrite (moveSelectedItem_up_list pg list_present _ l1 n x l2); [done| |done].
    rewrite Hdown. apply NoDup_swap_nodes. by rewrite <-Hl.
Qed.

End MoveRoundTrip.

Section PreviewSingle.
Variable pg : Page.
Implicit Types (p : Preview) (s : State).

Lemma highlightPreviewEntry_single path p :
  single_active p → single_active (highlightPreviewEntry pg path p).
Proof.
  unfold highlightPreviewEntry, single_active.
  destruct (truthy path); simpl; [|done].
  destruct (fileEntryMap pg !! path) as [entry|]; [|done]. simpl.
  intros ->. destruct (activePreviewEntry p) as [a|]; [|set_solver].
  destruct (Nat.eqb_spec a entry) as [-> | Hne]; simpl; set_solver.
Qed.

Lemma openPreview_single n src path p :
  single_active p → single_active (openPreview pg n src path p).
Proof.
  unfold openPreview. destruct (_ || _); [done|]. intros Hp.
  by apply (highlightPreviewEntry_single path
              (mkPreview (activePreviewEntry p) (previewActive p) (modalHidden p)
                 (bodyOverflowHidden p) (Some src) (videoPlaying p) _)).
Qed.

Lemma step_single s ev : single_active (preview s) → single_active (preview (step pg s ev)).
Proof.
  intros Hp. destruct (trigger_click_cases ev) as [[c ->] | Hne].
  - simpl. destruct (previewWired _); [|done]. simpl. unfold onPreviewTriggerClick.
    apply openPreview_single. destruct (truthy (dataset _));
      by apply highlightPreviewEntry_single.
  - destruct (step_preview_frame pg s ev) as [HA Hact]; [done|].
    unfold single_active. by rewrite HA, Hact.
Qed.

(** X9: when the server highlights no catalog entry, at most one entry
    carries the highlight in every state of the running page, and it is the
    entry previewed last. *)
Theorem preview_single_active (s0 : State) (evs : list Event) :
  has_playlistEditor pg = true → previewActive (preview s0) = ∅ →
  previewActive (preview (run pg s0 evs)) =
  match activePreviewEntry (preview (run pg s0 evs)) with
  | Some e => {[e]}
  | None => ∅
  end.
Proof.
  intros He H0. change (single_active (preview (run pg s0 evs))).
  induction evs as [|ev evs IH] using rev_ind.
  - unfold run, DOMContentLoaded. rewrite He. simpl.
    destruct (_ || _); [done|].
    match goal with |- context [sync_all _ _ _ ?s2] =>
      destruct (sync_all_frame pg 0 (fileEntries pg) s2) as (_ & _ & Hp & _) end.
    destruct (applyInitialOrder pg _) as [σ [|err]]; simpl; by rewrite Hp.
  - unfold run in *. rewrite foldl_app. simpl. by apply step_single.
Qed.

(** X10: the preview and the selection do not touch each other: a click on a
    preview trigger, a close click, a backdrop click and a key press leave the
    checkboxes, the panel, the hidden inputs and the search results as they
    are, and every other event leaves the whole preview state as it is. *)
Theorem preview_and_selection_independent (s : State) (ev : Event) :
  ((∃ c, ev = PreviewTriggerClick c) ∨ ev = PreviewCloseClick ∨ ev = BackdropClick ∨
   (∃ key, ev = KeyDown key) →
   checked (step pg s ev) = checked s ∧ sel (step pg s ev) = sel s ∧
   search (step pg s ev) = search s) ∧
  ((∃ i, ev = CheckboxClick i) ∨ (∃ k, ev = MirrorClick k) ∨ (∃ n, ev = RemoveClick n) ∨
   (∃ n, ev = MoveUpClick n) ∨ (∃ n, ev = MoveDownClick n) ∨
   (∃ text, ev = SearchInput text) ∨ ev = ClearClick →
   preview (step pg s ev) = preview s).
Proof.
  split.
  - intros [[c ->] | [-> | [-> | [key ->]]]]; simpl.
    + by destruct (previewWired _).
    + by destruct (_ && _).
    + by destruct (_ && _).
    + by destruct (previewWired _).
  - intros [[i ->] | [[k ->] | [[n ->] | [[n ->] | [[n ->] | [[text ->] | ->]]]]]]; simpl.
    + destruct (fileEntries pg !! i) as [e|]; [|done]. destruct (e_checkbox e); [|done].
      unfold dispatch_change. destruct (fileEntries pg !! i) as [e'|]; [|done].
      destruct (_ && _); [|done].
      by destruct (onCheckboxChange_frame pg (set_checked i (negb (is_checked s i)) s) i)
        as (_ & _ & -> & _).
    + destruct (resultsItems (search s) !! k) as [r|]; [|done].
      unfold onMirrorChange. simpl.
      destruct (fileEntries pg !! r_entry r) as [e|] eqn:He; [|done].
      destruct (e_checkbox e); [|done].
      unfold dispatch_change. rewrite He. destruct (_ && _); [|done].
      match goal with |- context [onCheckboxChange _ ?j ?s1] =>
        by destruct (onCheckboxChange_frame pg s1 j) as (_ & _ & -> & _) end.
    + destruct (find_item n _) as [item|]; [|done].
      unfold onRemoveClick.
      destruct (fileEntries pg !! item_entry item) as [e|] eqn:He; [|done].
      destruct (e_checkbox e); [|done].
      unfold dispatch_change. rewrite He. destruct (_ && _); [|done].
      match goal with |- context [onCheckboxChange _ ?j ?s1] =>
        by destruct (onCheckboxChange_frame pg s1 j) as (_ & _ & -> & _) end.
    + by destruct (find_item n _).
    + by destruct (find_item n _).
    + destruct (has_searchInput pg); [|done]. destruct (inputWired _); [|done].
      match goal with |- context [updateResults _ ?s1] =>
        by destruct (updateResults_frame pg s1) as (_ & _ & -> & _) end.
    + by destruct (_ && _).
Qed.

End PreviewSingle.

Section SearchBox.
Variable pg : Page.
Implicit Types (s : State).

Lemma step_wired s ev : wired (step pg s ev) = wired s.
Proof.
  destruct ev as [i|k|node|node|node|text| |c| | |key]; simpl.
  - destruct (fileEntries pg !! i) as [e|]; [|done]. destruct (e_checkbox e); [|done].
    unfold dispatch_change. destruct (fileEntries pg !! i) as [e'|]; [|done].
    destruct (_ && _); [|done].
    by destruct (onCheckboxChange_frame pg (set_checked i (negb (is_checked s i)) s) i)
      as (_ & _ & _ & -> & _).
  - destruct (resultsItems (search s) !! k) as [r|]; [|done].
    unfold onMirrorChange. simpl.
    destruct (fileEntries pg !! r_entry r) as [e|] eqn:He; [|done].
    destruct (e_checkbox e); [|done].
    unfold dispatch_change. rewrite He. destruct (_ && _); [|done].
    match goal with |- context [onCheckboxChange _ ?j ?s1] =>
      by destruct (onCheckboxChange_frame pg s1 j) as (_ & _ & _ & -> & _) end.
  - destruct (find_item node _) as [item|]; [|done].
    unfold onRemoveClick.
    destruct (fileEntries pg !! item_entry item) as [e|] eqn:He; [|done].
    destruct (e_checkbox e); [|done].
    unfold dispatch_change. rewrite He. destruct (_ && _); [|done].
    match goal with |- context [onCheckboxChange _ ?j ?s1] =>
      by destruct (onCheckboxChange_frame pg s1 j) as (_ & _ & _ & -> & _) end.
  - by destruct (find_item node _).
  - by destruct (find_item node _).
  - destruct (has_searchInput pg); [|done]. destruct (inputWired _); [|done].
    match goal with |- context [updateResults _ ?s1] =>
      by destruct (updateResults_frame pg s1) as (_ & _ & _ & -> & _) end.
  - by destruct (_ && _).
  - by destruct (previewWired _).
  - by destruct (_ && _).
  - by destruct (_ && _).
  - by destruct (previewWired _).
Qed.

Lemma run_wired s0 evs : wired (run pg s0 evs) = wired (DOMContentLoaded pg s0).1.
Proof.
  induction evs as [|ev evs IH] using rev_ind; [done|].
  unfold run in *. rewrite foldl_app. simpl. by rewrite step_wired.
Qed.

(** X11: on a page with the search elements and the clear button, once page
    load has completed, pressing the clear button leaves the page in the same
    state as emptying the search box by hand. *)
Theorem clear_button_is_empty_query (s0 : State) (evs : list Event) :
  has_playlistEditor pg = true → has_searchInput pg = true →
  has_resultsWrapper pg = true → has_resultsList pg = true →
  has_clearButton pg = true → (DOMContentLoaded pg s0).2 = Normal →
  step pg (run pg s0 evs) ClearClick = step pg (run pg s0 evs) (SearchInput "").
Proof.
  intros He Hi Hw Hr Hc Hn.
  assert (wired (DOMContentLoaded pg s0).1 = mkListeners true true true true) as Hwired.
  { revert Hn. unfold DOMContentLoaded. rewrite He, Hi, Hw, Hr, Hc. simpl.
    by destruct (applyInitialOrder pg _) as [σ [|err]]. }
  pose proof (run_wired s0 evs) as Hrun. rewrite Hwired in Hrun.
  simpl. rewrite Hc, Hi, Hrun. simpl. unfold onClearClick, updateResults. simpl. done.
Qed.

Lemma fst_matching (query : string) :
  StronglySorted lt ((λ ie : nat * Entry, ie.1) <$> matching pg query).
Proof.
  unfold matching. generalize (fileEntries pg) as l. intros l.
  assert (∀ (k : nat) (l : list Entry),
            StronglySorted lt
              ((λ ie : nat * Entry, ie.1) <$>
                 filter (λ ie : nat * Entry,
                           includes (toLowerCase (e_path ie.2)) query = true)
                        (imap (λ i, pair (k + i)) l)) ∧
            Forall (λ ie : nat * Entry, k ≤ ie.1) (imap (λ i, pair (k + i)) l)) as Hgen.
  { clear l. intros k l. revert k. induction l as [|e l IH]; intros k.
    - split; constructor.
    - cbn [imap]. destruct (IH (S k)) as [IHs IHf].
      assert (imap ((λ i, pair (k + i)) ∘ S) l = imap (λ i, pair (S k + i)) l) as Heq
        by (apply imap_ext; intros; simpl; f_equal; lia).
      rewrite Heq. split.
      + destruct (decide (includes (toLowerCase (e_path e)) query = true)).
        * rewrite filter_cons_True by done. rewrite fmap_cons. constructor; [done|].
          apply Forall_fmap, Forall_forall. intros ie [_ Hin]%list_elem_of_filter.
          rewrite Forall_forall in IHf. specialize (IHf _ Hin). simpl in *. lia.
        * by rewrite filter_cons_False.
      + constructor; [simpl; lia|]. eapply Forall_impl; [exact IHf|]. simpl. lia. }
  destruct (Hgen 0 l) as [H _].
  by rewrite (imap_ext (λ i, pair (0 + i)) pair l) in H.
Qed.

(** X12: the search results are listed in catalog order, every matching entry
    once: the entry indices of the results list are strictly increasing. *)
Theorem results_in_catalog_order (s : State) :
  StronglySorted lt (r_entry <$> resultsItems (search (updateResults pg s))).
Proof.
  unfold updateResults. destruct (truthy _); simpl; [|constructor].
  destruct (_ =? 0); simpl; [constructor|].
  rewrite <-list_fmap_compose.
  apply (fst_matching (toLowerCase (trim (or_else (searchValue (search s)) "")))).
Qed.

End SearchBox.

(** * The theme switch *)

Section ThemeFacts.
Variable env : Theme.Env.
Implicit Types (s : Theme.State) (t : string).

Lemma applyTheme_shown t s : theme_shown env (Theme.applyTheme env t s).
Proof.
  unfold Theme.applyTheme, theme_shown.
  destruct (String.eqb t "dark"); simpl;
    destruct (Theme.has_toggleButton env), (Theme.has_icon env), (Theme.has_label env);
    simpl; repeat split; auto; done.
Qed.

Lemma applyTheme_dataTheme t s :
  Theme.dataTheme (Theme.applyTheme env t s) =
  Some (if String.eqb t "dark" then "dark" else "light").
Proof.
  unfold Theme.applyTheme.
  destruct (String.eqb t "dark"); simpl;
    destruct (Theme.has_toggleButton env), (Theme.has_icon env), (Theme.has_label env); done.
Qed.

Lemma applyTheme_frame t s :
  Theme.stored (Theme.applyTheme env t s) = Theme.stored s ∧
  Theme.prefersDark (Theme.applyTheme env t s) = Theme.prefersDark s ∧
  Theme.mediaListening (Theme.applyTheme env t s) = Theme.mediaListening s ∧
  Theme.clickWired (Theme.applyTheme env t s) = Theme.clickWired s.
Proof.
  unfold Theme.applyTheme.
  destruct (String.eqb t "dark"); simpl;
    destruct (Theme.has_toggleButton env), (Theme.has_icon env), (Theme.has_label env); done.
Qed.

Lemma applyTheme_clickWired t s :
  Theme.clickWired (Theme.applyTheme env t s) = Theme.clickWired s.
Proof. apply applyTheme_frame. Qed.

Lemma applyTheme_stored t s :
  Theme.stored (Theme.applyTheme env t s) = Theme.stored s.
Proof. apply applyTheme_frame. Qed.

Lemma applyTheme_mediaListening t s :
  Theme.mediaListening (Theme.applyTheme env t s) = Theme.mediaListening s.
Proof. apply applyTheme_frame. Qed.

Lemma rememberTheme_shown t s :
  theme_shown env s → theme_shown env (Theme.rememberTheme env t s).
Proof. unfold Theme.rememberTheme. by destruct (Theme.storageWritable env). Qed.

Lemma step_shown s ev : theme_shown env s → theme_shown env (Theme.step env s ev).
Proof.
  intros Hs. destruct ev as [|m]; simpl.
  - destruct (_ && _); [|done]. apply rememberTheme_shown, applyTheme_shown.
  - destruct (Theme.mediaListening s); [|done]. unfold Theme.handleChange.
    destruct (Theme.getStoredTheme env _) as [t|]; [|apply applyTheme_shown].
    destruct (truthy t); [done | apply applyTheme_shown].
Qed.

Lemma DOMContentLoaded_shown s0 : theme_shown env (Theme.DOMContentLoaded env s0).
Proof.
  unfold Theme.DOMContentLoaded, Theme.setupMediaListener.
  pose proof (applyTheme_shown (Theme.resolvePreferredTheme env s0) s0) as H.
  by destruct (Theme.has_matchMedia env).
Qed.

Lemma theme_run_snoc s0 evs ev :
  Theme.run env s0 (evs ++ [ev]) = Theme.step env (Theme.run env s0 evs) ev.
Proof. unfold Theme.run. by rewrite foldl_app. Qed.

Lemma theme_always_dark_or_light_aux (s0 : Theme.State) (evs : list Theme.Event) :
  theme_shown env (Theme.run env s0 evs).
Proof.
  induction evs as [|ev evs IH] using rev_ind; [apply DOMContentLoaded_shown|].
  rewrite theme_run_snoc. by apply step_shown.
Qed.

(** X13: whatever the storage holds and whatever the user does, the root
    element always carries the theme [dark] or [light], its colour scheme is
    the same word, and the label of the toggle button names that theme. *)
Theorem theme_always_dark_or_light (s0 : Theme.State) (evs : list Theme.Event) :
  let s := Theme.run env s0 evs in
  (Theme.dataTheme s = Some "dark" ∨ Theme.dataTheme s = Some "light") ∧
  Theme.dataTheme s = Some (Theme.colorScheme s) ∧
  (Theme.has_toggleButton env = true → Theme.has_icon env = true →
   Theme.has_label env = true →
   Theme.labelText s =
     if bool_decide (Theme.dataTheme s = Some "dark") then "Dark Mode" else "Light Mode").
Proof.
  apply theme_always_dark_or_light_aux.
Qed.

Lemma step_clickWired s ev :
  Theme.clickWired (Theme.step env s ev) = Theme.clickWired s.
Proof.
  destruct ev as [|m]; simpl.
  - destruct (_ && _); [|done]. unfold Theme.onToggleClick, Theme.rememberTheme.
    destruct (Theme.storageWritable env); simpl; by rewrite applyTheme_clickWired.
  - destruct (Theme.mediaListening s); [|done]. unfold Theme.handleChange.
    destruct (Theme.getStoredTheme env _) as [t|]; [destruct (truthy t); [done|]|];
      by rewrite applyTheme_clickWired.
Qed.

Lemma run_clickWired s0 evs :
  Theme.clickWired (Theme.run env s0 evs) = Theme.has_toggleButton env.
Proof.
  induction evs as [|ev evs IH] using rev_ind; [done|].
  by rewrite theme_run_snoc, step_clickWired.
Qed.

Lemma onToggleClick_dataTheme s :
  Theme.dataTheme (Theme.onToggleClick env s) = other_theme (Theme.dataTheme s).
Proof.
  unfold Theme.onToggleClick, other_theme.
  match goal with |- Theme.dataTheme (Theme.rememberTheme _ ?n ?s1) = _ =>
    assert (Theme.dataTheme (Theme.rememberTheme env n s1) = Theme.dataTheme s1) as ->
      by (unfold Theme.rememberTheme; by destruct (Theme.storageWritable env)) end.
  rewrite applyTheme_dataTheme.
  destruct (Theme.dataTheme s) as [t|].
  - destruct (String.eqb_spec t "dark") as [-> | Hne].
    + rewrite bool_decide_eq_true_2 by done. reflexivity.
    + rewrite bool_decide_eq_false_2 by congruence. reflexivity.
  - rewrite bool_decide_eq_false_2 by done. reflexivity.
Qed.

(** X14: on a page with the toggle button, a click switches from dark to
    light and from light to dark, stores the new theme when the storage can be
    written, and a second click shows the first theme again. *)
Theorem theme_toggle_flips (s0 : Theme.State) (evs : list Theme.Event) :
  Theme.has_toggleButton env = true →
  let s := Theme.run env s0 evs in
  let s1 := Theme.step env s Theme.ToggleClick in
  Theme.dataTheme s1 = other_theme (Theme.dataTheme s) ∧
  Theme.dataTheme s1 ≠ Theme.dataTheme s ∧
  (Theme.storageWritable env = true → Theme.stored s1 = Theme.dataTheme s1) ∧
  Theme.dataTheme (Theme.step env s1 Theme.ToggleClick) = Theme.dataTheme s.
Proof.
  intros Hb s s1.
  assert (∀ s', Theme.clickWired s' = true →
            Theme.step env s' Theme.ToggleClick = Theme.onToggleClick env s') as Hstep.
  { intros s' Hw. change (Theme.step env s' Theme.ToggleClick)
      with (if Theme.has_toggleButton env && Theme.clickWired s'
            then Theme.onToggleClick env s' else s'). by rewrite Hb, Hw. }
  assert (Theme.step env s Theme.ToggleClick = Theme.onToggleClick env s) as H1.
  { apply Hstep. subst s. by rewrite run_clickWired. }
  assert (Theme.step env s1 Theme.ToggleClick = Theme.onToggleClick env s1) as H2.
  { apply Hstep. subst s1 s. by rewrite step_clickWired, run_clickWired. }
  destruct (theme_always_dark_or_light_aux s0 evs) as [Hd _]. fold s in Hd.
  rewrite H2, onToggleClick_dataTheme. subst s1. rewrite H1, onToggleClick_dataTheme.
  split; [done|]. split; [|split].
  - unfold other_theme. destruct Hd as [-> | ->]; by simpl.
  - intros Hw. unfold Theme.onToggleClick, Theme.rememberTheme. rewrite Hw.
    cbn [Theme.stored]. unfold other_theme.
    destruct (Theme.dataTheme s) as [t|].
    + destruct (String.eqb_spec t "dark") as [-> | Hne].
      * by rewrite bool_decide_eq_true_2.
      * by rewrite bool_decide_eq_false_2 by congruence.
    + by rewrite bool_decide_eq_false_2.
  - unfold other_theme. destruct Hd as [-> | ->]; by simpl.
Qed.

Lemma media_keeps_choice s t m :
  Theme.storageReadable env = true → Theme.stored s = Some t → t ≠ "" →
  Theme.dataTheme (Theme.step env s (Theme.MediaChange m)) = Theme.dataTheme s ∧
  Theme.stored (Theme.step env s (Theme.MediaChange m)) = Some t.
Proof.
  intros Hr Hs Ht%truthy_true. simpl. destruct (Theme.mediaListening s); [|done].
  unfold Theme.handleChange, Theme.getStoredTheme. rewrite Hr. simpl. by rewrite Hs, Ht.
Qed.

(** X15: when the storage works, a theme chosen with the toggle button is
    kept through every later change of the system preference. *)
Theorem theme_choice_survives_media_changes
    (s0 : Theme.State) (evs : list Theme.Event) (ms : list bool) :
  Theme.storageReadable env = true → Theme.storageWritable env = true →
  Theme.has_toggleButton env = true →
  Theme.dataTheme
    (Theme.run env s0 (evs ++ [Theme.ToggleClick] ++ (Theme.MediaChange <$> ms))) =
  Theme.dataTheme (Theme.run env s0 (evs ++ [Theme.ToggleClick])).
Proof.
  intros Hr Hw Hb.
  set (s1 := Theme.run env s0 (evs ++ [Theme.ToggleClick])).
  assert (∃ t, Theme.stored s1 = Some t ∧ t ≠ "") as (t & Hst & Ht).
  { subst s1. rewrite theme_run_snoc.
    change (Theme.step env (Theme.run env s0 evs) Theme.ToggleClick)
      with (if Theme.has_toggleButton env && Theme.clickWired (Theme.run env s0 evs)
            then Theme.onToggleClick env (Theme.run env s0 evs)
            else Theme.run env s0 evs).
    rewrite Hb, run_clickWired, Hb. simpl.
    unfold Theme.onToggleClick, Theme.rememberTheme. rewrite Hw. cbn [Theme.stored].
    eexists. split; [done|].
    destruct (Theme.dataTheme _) as [t|]; [destruct (String.eqb t "dark")|]; done. }
  assert (∀ ms, Theme.dataTheme (foldl (Theme.step env) s1 (Theme.MediaChange <$> ms))
                = Theme.dataTheme s1 ∧
                Theme.stored (foldl (Theme.step env) s1 (Theme.MediaChange <$> ms)) = Some t)
    as Hgen.
  { clear ms. induction ms as [|m ms [IH1 IH2]] using rev_ind; [done|].
    rewrite fmap_app, foldl_app. cbn [fmap list_fmap foldl].
    destruct (media_keeps_choice _ t m Hr IH2 Ht) as [-> ->]. done. }
  unfold Theme.run in *. rewrite app_assoc, foldl_app. apply Hgen.
Qed.

(** X16: at page load a stored, readable theme decides: [dark] if it is the
    word [dark], [light] for any other non-empty word; without one the system
    preference decides, and [light] is shown when it cannot be asked. *)
Theorem theme_at_load (s0 : Theme.State) :
  (∀ t, Theme.storageReadable env = true → Theme.stored s0 = Some t → t ≠ "" →
     Theme.dataTheme (Theme.DOMContentLoaded env s0) =
     Some (if bool_decide (t = "dark") then "dark" else "light")) ∧
  (Theme.storageReadable env = false ∨ Theme.stored s0 = None ∨ Theme.stored s0 = Some "" →
     Theme.dataTheme (Theme.DOMContentLoaded env s0) =
     Some (if Theme.has_matchMedia env && Theme.prefersDark s0 then "dark" else "light")).
Proof.
  assert (∀ t, Theme.dataTheme (Theme.DOMContentLoaded env s0) =
               Theme.dataTheme (Theme.applyTheme env (Theme.resolvePreferredTheme env s0) s0))
    as Hload.
  { intros _. unfold Theme.DOMContentLoaded, Theme.setupMediaListener.
    by destruct (Theme.has_matchMedia env). }
  split.
  - intros t Hr Hs Ht%truthy_true. rewrite (Hload t), applyTheme_dataTheme.
    unfold Theme.resolvePreferredTheme, Theme.getStoredTheme. rewrite Hr, Hs, Ht.
    destruct (String.eqb_spec t "dark") as [-> | Hne].
    + by rewrite bool_decide_eq_true_2.
    + by rewrite bool_decide_eq_false_2.
  - intros Hnone. rewrite (Hload ""), applyTheme_dataTheme.
    assert (Theme.resolvePreferredTheme env s0 =
            if Theme.has_matchMedia env && Theme.prefersDark s0 then "dark" else "light")
      as ->.
    { unfold Theme.resolvePreferredTheme, Theme.getStoredTheme.
      destruct Hnone as [-> | [-> | ->]]; [done| |]; by destruct (Theme.storageReadable env). }
    by destruct (_ && _).
Qed.

Lemma step_mediaListening s ev :
  Theme.mediaListening (Theme.step env s ev) = Theme.mediaListening s.
Proof.
  destruct ev as [|m]; simpl.
  - destruct (_ && _); [|done]. unfold Theme.onToggleClick, Theme.rememberTheme.
    destruct (Theme.storageWritable env); simpl; by rewrite applyTheme_mediaListening.
  - destruct (Theme.mediaListening s) eqn:E; [|done]. unfold Theme.handleChange.
    destruct (Theme.getStoredTheme env _) as [t|]; [destruct (truthy t); [done|]|];
      by rewrite applyTheme_mediaListening.
Qed.

Lemma run_mediaListening s0 evs :
  Theme.has_matchMedia env = true →
  Theme.mediaListening (Theme.run env s0 evs) =
  Theme.has_addEventListener env || Theme.has_addListener env.
Proof.
  intros Hm. induction evs as [|ev evs IH] using rev_ind.
  - unfold Theme.run, Theme.DOMContentLoaded, Theme.setupMediaListener. simpl.
    by rewrite Hm.
  - by rewrite theme_run_snoc, step_mediaListening.
Qed.

(** X17: when the storage cannot be read (private mode), nothing the user
    chose is remembered: every change of the system preference sets the theme
    to that preference, also right after a click on the toggle button. *)
Theorem theme_follows_system_without_storage
    (s0 : Theme.State) (evs : list Theme.Event) (m : bool) :
  Theme.storageReadable env = false → Theme.has_matchMedia env = true →
  Theme.has_addEventListener env || Theme.has_addListener env = true →
  Theme.dataTheme (Theme.run env s0 (evs ++ [Theme.MediaChange m])) =
  Some (if m then "dark" else "light").
Proof.
  intros Hr Hm Hl. rewrite theme_run_snoc. simpl.
  rewrite run_mediaListening, Hl by done.
  unfold Theme.handleChange, Theme.getStoredTheme. rewrite Hr.
  rewrite applyTheme_dataTheme. by destruct m.
Qed.

End ThemeFacts.

(** * The folder tree *)

Section FolderFacts.
Variable pg : Folders.Page.
Implicit Types (s : Folders.State) (f a b t : nat) (e : bool).

Lemma ufs_self f el e s :
  Folders.elements pg !! f = Some el →
  (f ∈ Folders.expandedClass (Folders.updateFolderState pg f e s) ↔ e = true) ∧
  (f ∈ Folders.collapsedClass (Folders.updateFolderState pg f e s) ↔ e = false) ∧
  (∀ t, Folders.toggle el = Some t →
        Folders.ariaExpanded (Folders.updateFolderState pg f e s) !! t = Some e).
Proof.
  intros Hel. unfold Folders.updateFolderState. rewrite Hel. simpl.
  rewrite !elem_of_set_flag, !decide_True by done. split; [done|]. split.
  - by destruct e.
  - intros t ->. by rewrite lookup_insert_eq.
Qed.

Lemma ufs_other a f e s :
  a ≠ f →
  (f ∈ Folders.expandedClass (Folders.updateFolderState pg a e s) ↔
   f ∈ Folders.expandedClass s) ∧
  (f ∈ Folders.collapsedClass (Folders.updateFolderState pg a e s) ↔
   f ∈ Folders.collapsedClass s).
Proof.
  intros Hne. unfold Folders.updateFolderState.
  destruct (Folders.elements pg !! a); [|done]. simpl.
  by rewrite !elem_of_set_flag, !decide_False.
Qed.

Lemma ufs_aria_other a t e s :
  (∀ el, Folders.elements pg !! a = Some el → Folders.toggle el ≠ Some t) →
  Folders.ariaExpanded (Folders.updateFolderState pg a e s) !! t =
  Folders.ariaExpanded s !! t.
Proof.
  intros Hne. unfold Folders.updateFolderState.
  destruct (Folders.elements pg !! a) as [el|]; [|done]. simpl.
  destruct (Folders.toggle el) as [t'|] eqn:Ht; [|done].
  rewrite lookup_insert_ne; [done|]. intros ->. by apply (Hne el).
Qed.

Lemma ufs_wired a e s :
  Folders.wired (Folders.updateFolderState pg a e s) = Folders.wired s.
Proof. unfold Folders.updateFolderState. by destruct (Folders.elements pg !! a). Qed.

Lemma update_where_snoc c e l x s :
  update_where pg c e (l ++ [x]) s =
  if c x then Folders.updateFolderState pg x e (update_where pg c e l s)
  else update_where pg c e l s.
Proof. unfold update_where. by rewrite foldl_app. Qed.

(** Every selected element ends in the state [e], with its toggle. *)
Lemma update_where_selected c e l s f el :
  f ∈ l → c f = true → Folders.elements pg !! f = Some el →
  (f ∈ Folders.expandedClass (update_where pg c e l s) ↔ e = true) ∧
  (f ∈ Folders.collapsedClass (update_where pg c e l s) ↔ e = false) ∧
  (∀ t, Folders.toggle el = Some t →
        Folders.ariaExpanded (update_where pg c e l s) !! t = Some e).
Proof.
  intros Hin Hc Hel. induction l as [|x l IH] using rev_ind; [by apply elem_of_nil in Hin|].
  rewrite update_where_snoc.
  apply elem_of_app in Hin as [Hin | ->%list_elem_of_singleton].
  - specialize (IH Hin). destruct (c x); [|done].
    destruct (decide (x = f)) as [-> | Hne]; [by eapply ufs_self|].
    destruct (ufs_other x f e (update_where pg c e l s) Hne) as [-> ->].
    destruct IH as (? & ? & IHa). split; [done|]. split; [done|].
    intros t Ht. unfold Folders.updateFolderState.
    destruct (Folders.elements pg !! x) as [elx|]; [|by apply IHa]. simpl.
    destruct (Folders.toggle elx) as [tx|]; [|by apply IHa].
    destruct (decide (tx = t)) as [-> | Hnt]; [by rewrite lookup_insert_eq|].
    rewrite lookup_insert_ne by done. by apply IHa.
  - rewrite Hc. by eapply ufs_self.
Qed.

(** Elements that are not selected keep their classes. *)
Lemma update_where_unselected c e l s f :
  (f ∈ l → c f = false) →
  (f ∈ Folders.expandedClass (update_where pg c e l s) ↔ f ∈ Folders.expandedClass s) ∧
  (f ∈ Folders.collapsedClass (update_where pg c e l s) ↔ f ∈ Folders.collapsedClass s).
Proof.
  intros Hc. induction l as [|x l IH] using rev_ind; [done|].
  rewrite update_where_snoc.
  destruct IH as [IH1 IH2]; [intros ?; apply Hc, elem_of_app; by left|].
  destruct (c x) eqn:Hcx; [|done].
  assert (x ≠ f) as Hne.
  { intros ->. rewrite Hc in Hcx; [done|]. apply elem_of_app. right. left. }
  destruct (ufs_other x f e (update_where pg c e l s) Hne) as [-> ->]. done.
Qed.

Lemma update_where_wired c e l s :
  Folders.wired (update_where pg c e l s) = Folders.wired s.
Proof.
  induction l as [|x l IH] using rev_ind; [done|].
  rewrite update_where_snoc. destruct (c x); [|done]. by rewrite ufs_wired.
Qed.

Lemma elem_of_folderElements f :
  f ∈ Folders.folderElements pg ↔
  ∃ el, Folders.elements pg !! f = Some el ∧ Folders.in_tree el = true.
Proof.
  unfold Folders.folderElements. rewrite list_elem_of_fmap. split.
  - intros ([i el] & -> & [Hin Hl]%list_elem_of_filter).
    apply elem_of_lookup_imap in Hl as (j & y & [= -> ->] & Hj). by exists y.
  - intros (el & Hel & Hin). exists (f, el). split; [done|].
    apply list_elem_of_filter. split; [done|]. apply elem_of_lookup_imap. by exists f, el.
Qed.

Lemma folderElements_NoDup : NoDup (Folders.folderElements pg).
Proof.
  unfold Folders.folderElements.
  assert (NoDup ((λ ie : nat * Folders.Element, ie.1) <$> imap pair (Folders.elements pg)))
    as Hall.
  { rewrite fmap_imap.
    rewrite (imap_ext _ (λ j _, j) (Folders.elements pg)) by done.
    rewrite (imap_seq_0 (Folders.elements pg) (λ j, j)), list_fmap_id.
    apply NoDup_seq. }
  apply NoDup_fmap_2_strong.
  - intros [i x] [j y] [_ Hx]%list_elem_of_filter [_ Hy]%list_elem_of_filter Heq.
    simpl in Heq. subst j.
    apply elem_of_lookup_imap in Hx as (i1 & x1 & [= -> ->] & Hx).
    apply elem_of_lookup_imap in Hy as (i2 & y1 & [= -> ->] & Hy). congruence.
  - apply NoDup_filter. by apply NoDup_fmap_1 in Hall.
Qed.

Lemma DOMContentLoaded_update_where s0 :
  Folders.has_editor pg = true →
  Folders.DOMContentLoaded pg s0 =
  Folders.mkState
    (Folders.collapsedClass
       (update_where pg (λ x, bool_decide (is_Some (Folders.toggle_of pg x))) false
          (Folders.folderElements pg) s0))
    (Folders.expandedClass
       (update_where pg (λ x, bool_decide (is_Some (Folders.toggle_of pg x))) false
          (Folders.folderElements pg) s0))
    (Folders.ariaExpanded
       (update_where pg (λ x, bool_decide (is_Some (Folders.toggle_of pg x))) false
          (Folders.folderElements pg) s0))
    true.
Proof.
  intros He. unfold Folders.DOMContentLoaded, update_where. rewrite He. simpl.
  assert (∀ l s,
    foldl (λ s folder, match Folders.toggle_of pg folder with
                       | Some _ => Folders.updateFolderState pg folder false s
                       | None => s end) s l =
    foldl (λ s x, if bool_decide (is_Some (Folders.toggle_of pg x))
                  then Folders.updateFolderState pg x false s else s) s l) as ->; [|done].
  induction l as [|x l IH]; intros s; [done|]. simpl. rewrite IH.
  by destruct (Folders.toggle_of pg x).
Qed.

Lemma tree_folder_toggle_of f t :
  tree_folder pg f t → Folders.toggle_of pg f = Some t ∧ f ∈ Folders.folderElements pg.
Proof.
  intros (el & Hel & Hin & Ht). split.
  - unfold Folders.toggle_of. by rewrite Hel.
  - apply elem_of_folderElements. by exists el.
Qed.

Lemma load_collapsed (s0 : Folders.State) (f t : nat) :
  Folders.has_editor pg = true → tree_folder pg f t →
  f ∈ Folders.collapsedClass (Folders.DOMContentLoaded pg s0) ∧
  (f ∉ Folders.expandedClass (Folders.DOMContentLoaded pg s0)) ∧
  Folders.ariaExpanded (Folders.DOMContentLoaded pg s0) !! t = Some false.
Proof.
  intros He Hf. destruct (tree_folder_toggle_of f t Hf) as [Ht Hin].
  destruct Hf as (el & Hel & _ & Htog).
  rewrite DOMContentLoaded_update_where by done. simpl.
  destruct (update_where_selected
              (λ x, bool_decide (is_Some (Folders.toggle_of pg x))) false
              (Folders.folderElements pg) s0 f el Hin) as (He1 & He2 & He3); [|done|].
  { rewrite Ht. by apply bool_decide_eq_true_2. }
  split; [by apply He2|]. split; [|by apply He3].
  intros Hx%He1. done.
Qed.

(** X18: after page load every tree folder that has a toggle is collapsed, not
    expanded, and its toggle announces [aria-expanded] as false. *)
Theorem folders_start_collapsed (s0 : Folders.State) (f t : nat) :
  Folders.has_editor pg = true → tree_folder pg f t →
  f ∈ Folders.collapsedClass (Folders.DOMContentLoaded pg s0) ∧
  (f ∉ Folders.expandedClass (Folders.DOMContentLoaded pg s0)) ∧
  Folders.ariaExpanded (Folders.DOMContentLoaded pg s0) !! t = Some false.
Proof. apply load_collapsed. Qed.

(** X19: the expand-all and collapse-all buttons put every tree folder, with
    or without a toggle, into the requested state and announce it on the
    folder's toggle. *)
Theorem set_all_reaches_every_folder (s : Folders.State) (e : bool) (f : nat)
    (el : Folders.Element) :
  Folders.elements pg !! f = Some el → Folders.in_tree el = true →
  (f ∈ Folders.expandedClass (Folders.setAll pg e s) ↔ e = true) ∧
  (f ∈ Folders.collapsedClass (Folders.setAll pg e s) ↔ e = false) ∧
  (∀ t, Folders.toggle el = Some t →
        Folders.ariaExpanded (Folders.setAll pg e s) !! t = Some e).
Proof.
  intros Hel Hin.
  change (Folders.setAll pg e s)
    with (update_where pg (λ _, true) e (Folders.folderElements pg) s).
  apply update_where_selected; [|done|done].
  apply elem_of_folderElements. by exists el.
Qed.

Lemma revealEntry_update_where ancestors s :
  Folders.revealEntry pg ancestors s =
  update_where pg
    (λ a, match Folders.elements pg !! a with
          | Some el => Folders.is_folder el
          | None => false
          end) true ancestors s.
Proof.
  unfold Folders.revealEntry, update_where. revert s.
  induction ancestors as [|a l IH]; intros s; [done|]. simpl. rewrite <-IH.
  by destruct (Folders.elements pg !! a) as [el|].
Qed.

(** X20: the reveal button of a search result expands every enclosing element
    with the class [folder] and leaves every other element's classes alone. *)
Theorem reveal_expands_ancestors (ancestors : list nat) (s : Folders.State) (f : nat) :
  (∀ el, f ∈ ancestors → Folders.elements pg !! f = Some el →
         Folders.is_folder el = true →
         f ∈ Folders.expandedClass (Folders.revealEntry pg ancestors s) ∧
         f ∉ Folders.collapsedClass (Folders.revealEntry pg ancestors s)) ∧
  (f ∉ ancestors →
   (f ∈ Folders.expandedClass (Folders.revealEntry pg ancestors s) ↔
    f ∈ Folders.expandedClass s) ∧
   (f ∈ Folders.collapsedClass (Folders.revealEntry pg ancestors s) ↔
    f ∈ Folders.collapsedClass s)).
Proof.
  rewrite revealEntry_update_where. split.
  - intros el Hin Hel Hf.
    destruct (update_where_selected
                (λ a, match Folders.elements pg !! a with
                      | Some el => Folders.is_folder el
                      | None => false
                      end) true ancestors s f el Hin) as (He1 & He2 & _);
      [by rewrite Hel|done|].
    split; [by apply He1|]. intros Hx%He2. done.
  - intros Hni. by apply update_where_unselected.
Qed.

(** *** The running tree *)

Hypothesis distinct : distinct_toggles pg.

Lemma ufs_folder_ok a e s :
  (∀ f t, tree_folder pg f t → folder_ok s f t) →
  ∀ f t, tree_folder pg f t → folder_ok (Folders.updateFolderState pg a e s) f t.
Proof.
  intros Hs f t Hf. pose proof Hf as (el & Hel & Hin & Ht).
  destruct (decide (a = f)) as [-> | Hne].
  - destruct (ufs_self f el e s Hel) as (He1 & He2 & He3). split.
    + rewrite He1, He2. by destruct e.
    + rewrite (He3 t Ht). f_equal. destruct e.
      * symmetry. apply bool_decide_eq_true_2. by apply He1.
      * symmetry. apply bool_decide_eq_false_2. by rewrite He1.
  - destruct (ufs_other a f e s Hne) as [He Hc]. destruct (Hs f t Hf) as [Hs1 Hs2].
    split; [by rewrite He, Hc|].
    rewrite ufs_aria_other.
    + rewrite Hs2. f_equal. apply bool_decide_ext. by rewrite He.
    + intros ela Hela Hta. apply Hne. by apply (distinct a f ela el t).
Qed.

Lemma foldl_folder_ok {A} (g : Folders.State → A → Folders.State) (l : list A) s :
  (∀ s x, (∀ f t, tree_folder pg f t → folder_ok s f t) →
          ∀ f t, tree_folder pg f t → folder_ok (g s x) f t) →
  (∀ f t, tree_folder pg f t → folder_ok s f t) →
  ∀ f t, tree_folder pg f t → folder_ok (foldl g s l) f t.
Proof.
  intros Hg. revert s. induction l as [|x l IH]; intros s Hs; [done|].
  simpl. apply IH. by apply Hg.
Qed.

Lemma foldl_wired {A} (g : Folders.State → A → Folders.State) (l : list A) s :
  (∀ s x, Folders.wired (g s x) = Folders.wired s) →
  Folders.wired (foldl g s l) = Folders.wired s.
Proof.
  intros Hg. revert s. induction l as [|x l IH]; intros s; [done|].
  simpl. by rewrite IH, Hg.
Qed.

Lemma step_folder_ok s ev :
  (∀ f t, tree_folder pg f t → folder_ok s f t) →
  ∀ f t, tree_folder pg f t → folder_ok (Folders.step pg s ev) f t.
Proof.
  intros Hs. unfold Folders.step. destruct (negb (Folders.wired s)); [done|].
  assert (∀ t s, (∀ f t, tree_folder pg f t → folder_ok s f t) →
                 ∀ f t', tree_folder pg f t' →
                         folder_ok (Folders.dispatch_toggle pg t s) f t') as Hdisp.
  { intros t s' Hs'. apply foldl_folder_ok; [|done].
    intros s1 x H1. destruct (decide _); [|done]. by apply ufs_folder_ok. }
  assert (∀ e s, (∀ f t, tree_folder pg f t → folder_ok s f t) →
                 ∀ f t', tree_folder pg f t' → folder_ok (Folders.setAll pg e s) f t')
    as Hall.
  { intros e s' Hs'. apply foldl_folder_ok; [|done]. intros s1 x H1. by apply ufs_folder_ok. }
  destruct ev as [t|t key| | |ancestors].
  - by apply Hdisp.
  - destruct (_ || _); [by apply Hdisp|done].
  - destruct (Folders.has_expandAll pg); [by apply Hall|done].
  - destruct (Folders.has_collapseAll pg); [by apply Hall|done].
  - apply foldl_folder_ok; [|done]. intros s1 x H1.
    destruct (Folders.elements pg !! x) as [el|]; [|done].
    destruct (Folders.is_folder el); [by apply ufs_folder_ok|done].
Qed.

Lemma step_folders_wired s ev : Folders.wired (Folders.step pg s ev) = Folders.wired s.
Proof.
  unfold Folders.step. destruct (negb (Folders.wired s)); [done|].
  assert (∀ t s, Folders.wired (Folders.dispatch_toggle pg t s) = Folders.wired s) as Hdisp.
  { intros t s'. apply foldl_wired. intros s1 x. destruct (decide _); [|done].
    apply ufs_wired. }
  destruct ev as [t|t key| | |ancestors].
  - apply Hdisp.
  - destruct (_ || _); [apply Hdisp|done].
  - destruct (Folders.has_expandAll pg); [|done]. apply foldl_wired. intros. apply ufs_wired.
  - destruct (Folders.has_collapseAll pg); [|done]. apply foldl_wired. intros. apply ufs_wired.
  - apply foldl_wired. intros s1 x. destruct (Folders.elements pg !! x) as [el|]; [|done].
    destruct (Folders.is_folder el); [apply ufs_wired|done].
Qed.

Lemma run_folder_ok s0 evs :
  Folders.has_editor pg = true →
  Folders.wired (Folders.run pg s0 evs) = true ∧
  ∀ f t, tree_folder pg f t → folder_ok (Folders.run pg s0 evs) f t.
Proof.
  intros He. unfold Folders.run. induction evs as [|ev evs [IHw IH]] using rev_ind.
  - simpl. split; [by rewrite DOMContentLoaded_update_where|].
    intros f t Hf. destruct (load_collapsed s0 f t He Hf) as (Hc & Hne & Ha).
    split; [tauto|]. rewrite Ha. f_equal. symmetry. by apply bool_decide_eq_false_2.
  - rewrite foldl_app. simpl. split; [by rewrite step_folders_wired|].
    by apply step_folder_ok.
Qed.

(** X21: when no two elements share a toggle, every tree folder with a toggle
    shows, in every state of the running page, exactly one of the classes
    [expanded] and [collapsed], and [aria-expanded] of its toggle says which. *)
Theorem folder_state_consistent (s0 : Folders.State) (evs : list Folders.Event) (f t : nat) :
  Folders.has_editor pg = true → tree_folder pg f t →
  (f ∈ Folders.expandedClass (Folders.run pg s0 evs) ↔
   f ∉ Folders.collapsedClass (Folders.run pg s0 evs)) ∧
  Folders.ariaExpanded (Folders.run pg s0 evs) !! t =
    Some (bool_decide (f ∈ Folders.expandedClass (Folders.run pg s0 evs))).
Proof. intros He Hf. by apply run_folder_ok. Qed.

Lemma dispatch_single (l : list nat) t f s :
  f ∈ l → NoDup l → Folders.toggle_of pg f = Some t →
  (∀ x, x ∈ l → Folders.toggle_of pg x = Some t → x = f) →
  foldl (λ s x, if decide (Folders.toggle_of pg x = Some t)
                then Folders.onToggle pg x s else s) s l = Folders.onToggle pg f s.
Proof.
  intros Hin Hnd Ht Honly. revert s. induction l as [|x l IH]; intros s.
  - by apply elem_of_nil in Hin.
  - apply NoDup_cons in Hnd as [Hx Hnd]. simpl.
    destruct (decide (x = f)) as [-> | Hne].
    + rewrite decide_True by done.
      assert (∀ s', foldl (λ s x, if decide (Folders.toggle_of pg x = Some t)
                                  then Folders.onToggle pg x s else s) s' l = s') as ->; [|done].
      clear IH. induction l as [|y l IHl]; intros s'; [done|]. simpl.
      apply not_elem_of_cons in Hx as [Hy Hx]. apply NoDup_cons in Hnd as [_ Hnd].
      rewrite decide_False.
      * apply IHl; try done.
        -- apply elem_of_cons. by left.
        -- intros z Hz. apply Honly. apply elem_of_cons in Hz as [-> | Hz]; [left|].
           right. by right.
      * intros Hty. apply Hy. symmetry. apply Honly; [|done]. right. left.
    + rewrite decide_False.
      * apply IH; try done.
        -- by apply elem_of_cons in Hin as [-> | Hin].
        -- intros z Hz. apply Honly. by right.
      * intros Htx. apply Hne. apply Honly; [left|done].
Qed.

(** X22: when no two elements share a toggle, a click on the toggle of a tree
    folder expands the folder if it was collapsed and collapses it if it was
    expanded, leaves every other element's classes as they are, and a second
    click restores the state of the whole tree. *)
Theorem toggle_click_flips (s0 : Folders.State) (evs : list Folders.Event) (f t : nat) :
  Folders.has_editor pg = true → tree_folder pg f t →
  let s := Folders.run pg s0 evs in
  let s1 := Folders.step pg s (Folders.ToggleClick t) in
  (f ∈ Folders.expandedClass s1 ↔ f ∉ Folders.expandedClass s) ∧
  (∀ b, b ≠ f →
     (b ∈ Folders.expandedClass s1 ↔ b ∈ Folders.expandedClass s) ∧
     (b ∈ Folders.collapsedClass s1 ↔ b ∈ Folders.collapsedClass s)) ∧
  Folders.step pg s1 (Folders.ToggleClick t) = s.
Proof.
  intros He Hf s s1.
  destruct (run_folder_ok s0 evs He) as [Hw Hok]. fold s in Hw, Hok.
  destruct (Hok f t Hf) as [Hcls Haria].
  destruct (tree_folder_toggle_of f t Hf) as [Ht Hin].
  pose proof Hf as (el & Hel & _ & Htog).
  assert (∀ s', Folders.wired s' = true →
            Folders.step pg s' (Folders.ToggleClick t) = Folders.onToggle pg f s') as Hstep.
  { intros s' Hw'. unfold Folders.step. rewrite Hw'. simpl.
    apply dispatch_single; [done|apply folderElements_NoDup|done|].
    intros x _ Hx. unfold Folders.toggle_of in Hx.
    destruct (Folders.elements pg !! x) as [elx|] eqn:Hex; [|done]. simpl in Hx.
    by apply (distinct x f elx el t). }
  assert (s1 = Folders.onToggle pg f s) as Hs1 by (by apply Hstep).
  unfold Folders.onToggle in Hs1.
  destruct (ufs_self f el (bool_decide (f ∈ Folders.collapsedClass s)) s Hel)
    as (He1 & He2 & _). rewrite <-Hs1 in He1, He2.
  split; [|split].
  - rewrite He1, bool_decide_eq_true.
    destruct (decide (f ∈ Folders.collapsedClass s)); tauto.
  - intros b Hb. rewrite Hs1. by apply ufs_other.
  - rewrite Hstep by (rewrite Hs1; by rewrite ufs_wired).
    unfold Folders.onToggle.
    assert (bool_decide (f ∈ Folders.collapsedClass s1) =
            negb (bool_decide (f ∈ Folders.collapsedClass s))) as ->.
    { destruct (bool_decide (f ∈ Folders.collapsedClass s)) eqn:E; simpl.
      - apply bool_decide_eq_false_2. rewrite He2. done.
      - apply bool_decide_eq_true_2. by rewrite He2. }
    rewrite Hs1. unfold Folders.updateFolderState. rewrite Hel. simpl. rewrite Htog.
    destruct s as [C E A w]. simpl in *. f_equal.
    + apply set_eq. intros x. rewrite elem_of_set_flag.
      destruct (decide (f = x)) as [<- | Hx].
      * by rewrite negb_involutive, bool_decide_eq_true.
      * by rewrite elem_of_set_flag, decide_False.
    + apply set_eq. intros x. rewrite elem_of_set_flag.
      destruct (decide (f = x)) as [<- | Hx].
      * rewrite negb_true_iff, bool_decide_eq_false.
        destruct (decide (f ∈ C)); tauto.
      * by rewrite elem_of_set_flag, decide_False.
    + rewrite insert_insert_eq. apply insert_id. rewrite Haria. f_equal.
      destruct (bool_decide (f ∈ C)) eqn:E'; simpl.
      * apply bool_decide_eq_false_2. apply bool_decide_eq_true in E'. tauto.
      * apply bool_decide_eq_true_2. apply bool_decide_eq_false in E'.
        destruct (decide (f ∈ E)); tauto.
Qed.

End FolderFacts.

(** * The playlist overview filter *)

Section PlaylistFilter.
Variable pg : PlaylistIndex.Page.
Implicit Types (s : PlaylistIndex.State).

Lemma count_hidden_false (matches : list bool) :
  length (filter (λ h, h = false) (negb <$> matches)) =
  length (filter (λ m, m = true) matches).
Proof.
  induction matches as [|m matches IH]; [done|]. rewrite fmap_cons.
  destruct m; cbn [negb].
  - rewrite !filter_cons_True by done. cbn [length]. by rewrite IH.
  - by rewrite !filter_cons_False by done.
Qed.

Lemma applyFilter_fields s :
  let query := toLowerCase (trim (if PlaylistIndex.has_filterInput pg
                                  then PlaylistIndex.filterValue s else "")) in
  let matches := PlaylistIndex.item_matches query <$> PlaylistIndex.playlistItems pg in
  let v := length (filter (λ m, m = true) matches) in
  PlaylistIndex.itemHidden (PlaylistIndex.applyFilter pg s) = negb <$> matches ∧
  PlaylistIndex.emptyHidden (PlaylistIndex.applyFilter pg s) =
    (if PlaylistIndex.has_emptyMessage pg then negb (v =? 0)
     else PlaylistIndex.emptyHidden s) ∧
  PlaylistIndex.badgeText (PlaylistIndex.applyFilter pg s) =
    (if PlaylistIndex.has_countBadge pg
     then pretty v +:+ " " +:+ (if bool_decide (v = 1) then "Playlist" else "Playlists")
     else PlaylistIndex.badgeText s).
Proof.
  unfold PlaylistIndex.applyFilter, PlaylistIndex.updateCountBadge.
  by destruct (PlaylistIndex.has_countBadge pg).
Qed.

(** X23: after the playlist filter has run, the badge shows the number of
    playlists left visible, with the singular for exactly one, the empty
    message is shown exactly when none is left visible, and every playlist
    has its visibility set. *)
Theorem applyFilter_counts_visible (s : PlaylistIndex.State) :
  let s' := PlaylistIndex.applyFilter pg s in
  length (PlaylistIndex.itemHidden s') = length (PlaylistIndex.playlistItems pg) ∧
  (PlaylistIndex.has_countBadge pg = true →
   PlaylistIndex.badgeText s' =
     pretty (visible_count s') +:+ " " +:+
     (if bool_decide (visible_count s' = 1) then "Playlist" else "Playlists")) ∧
  (PlaylistIndex.has_emptyMessage pg = true →
   (PlaylistIndex.emptyHidden s' = false ↔ visible_count s' = 0)).
Proof.
  intros s'. destruct (applyFilter_fields s) as (Hh & He & Hb). fold s' in Hh, He, Hb.
  unfold visible_count. rewrite Hh, count_hidden_false, !length_fmap.
  split; [done|]. split.
  - intros Hc. by rewrite Hb, Hc.
  - intros Hm. rewrite He, Hm, negb_false_iff. apply Nat.eqb_eq.
Qed.


End PlaylistFilter.

(** * The further properties on concrete documents *)

Section MoreConcrete.

Lemma reorder_controls_follow_position_witness :
  let pg := editor abc AttrMissing in
  let s := run pg (rendered [0; 1; 2]) [MoveUpClick 2] in
  full_page pg ∧ pristine (rendered [0; 1; 2]) ∧
  selectedList (sel s) !! 1 = Some (item_of 2 "c") ∧
  (2 ∉ upDisabled (sel s)) ∧ (2 ∉ downDisabled (sel s)).
Proof.
  intros pg s.
  pose proof (editor_full abc AttrMissing) as Hfull.
  pose proof (rendered_pristine [0; 1; 2]) as Hpr.
  assert (selectedList (sel s) !! 1 = Some (item_of 2 "c")) as Hk by (vm_compute; reflexivity).
  destruct (reorder_controls_follow_position pg Hfull (rendered [0; 1; 2]) Hpr
              [MoveUpClick 2] 1 (item_of 2 "c") Hk) as [Hup Hdown].
  split; [exact Hfull|]. split; [exact Hpr|]. split; [exact Hk|]. split.
  - intros Hin. apply Hup in Hin. discriminate.
  - intros Hin. apply Hdown in Hin. vm_compute in Hin. discriminate.
Defined.

Lemma summary_follows_panel_witness :
  let pg := editor abc order_c_a in
  let s := run pg (rendered [0; 1; 2]) [CheckboxClick 1] in
  full_page pg ∧ pristine (rendered [0; 1; 2]) ∧
  (DOMContentLoaded pg (rendered [0; 1; 2])).2 = Normal ∧
  countLabel (sel s) = "2 Videos" ∧ emptyStateHidden (sel s) = true.
Proof.
  intros pg s.
  pose proof (editor_full abc order_c_a) as Hfull.
  pose proof (rendered_pristine [0; 1; 2]) as Hpr.
  assert ((DOMContentLoaded pg (rendered [0; 1; 2])).2 = Normal) as Hn
    by (vm_compute; reflexivity).
  pose proof (summary_follows_panel pg Hfull (rendered [0; 1; 2]) Hpr [CheckboxClick 1] Hn)
    as Hsum.
  cbv zeta in Hsum. destruct Hsum as [Hc He].
  split; [exact Hfull|]. split; [exact Hpr|]. split; [exact Hn|]. unfold s. split.
  - rewrite (Hc eq_refl). vm_compute. reflexivity.
  - rewrite (He eq_refl). vm_compute. reflexivity.
Defined.

Lemma panel_has_no_duplicates_witness :
  let pg := editor abc AttrMissing in
  full_page pg ∧ pristine (rendered [0; 2]) ∧
  NoDup (selection_order (sel (run pg (rendered [0; 2]) [CheckboxClick 1; CheckboxClick 1]))).
Proof.
  intros pg.
  pose proof (editor_full abc AttrMissing) as Hfull.
  pose proof (rendered_pristine [0; 2]) as Hpr.
  split; [exact Hfull|]. split; [exact Hpr|].
  exact (proj1 (panel_has_no_duplicates pg Hfull (rendered [0; 2]) Hpr
                  [CheckboxClick 1; CheckboxClick 1])).
Defined.

Lemma mirror_shows_native_state_witness :
  let pg := editor abc AttrMissing in
  let s := run pg (rendered [0]) [SearchInput "b"; CheckboxClick 1] in
  full_page pg ∧ pristine (rendered [0]) ∧
  (∀ r, r ∈ resultsItems (search s) → r_entry r = 1 → r_checked r = true).
Proof.
  intros pg s.
  pose proof (editor_full abc AttrMissing) as Hfull.
  pose proof (rendered_pristine [0]) as Hpr.
  split; [exact Hfull|]. split; [exact Hpr|].
  pose proof (mirror_shows_native_state pg Hfull (rendered [0]) Hpr
                [SearchInput "b"; CheckboxClick 1]) as Hmir.
  cbv zeta in Hmir. destruct Hmir as [Hmir _].
  intros r Hr Hone. unfold s in *.
  assert (fileEntries pg !! r_entry r = Some (mkFileEntry (video "b"))) as He
    by (rewrite Hone; reflexivity).
  rewrite (Hmir r (mkFileEntry (video "b")) Hr He eq_refl), Hone.
  vm_compute. reflexivity.
Defined.

Lemma load_keeps_encounter_order_witness :
  let pg := editor abc AttrMissing in
  full_page pg ∧ pristine (rendered [2; 0]) ∧ unique_paths pg ∧
  selection_order (sel (DOMContentLoaded pg (rendered [2; 0])).1) = ["a"; "c"].
Proof.
  intros pg.
  pose proof (editor_full abc AttrMissing) as Hfull.
  pose proof (rendered_pristine [2; 0]) as Hpr.
  pose proof (abc_unique AttrMissing) as Huniq.
  split; [exact Hfull|]. split; [exact Hpr|]. split; [exact Huniq|].
  rewrite (load_keeps_encounter_order pg Hfull (rendered [2; 0]) Hpr Huniq).
  - vm_compute. reflexivity.
  - intros v order Heq. discriminate Heq.
Defined.

Lemma load_applies_complete_order_witness :
  let order := AttrText (Some (JArr [JStr "c"; JStr "a"; JStr "b"])) in
  let pg := editor abc order in
  full_page pg ∧ pristine (rendered [0; 1; 2]) ∧ unique_paths pg ∧
  selection_order (sel (DOMContentLoaded pg (rendered [0; 1; 2])).1) = ["c"; "a"; "b"] ∧
  orderedInputs (sel (DOMContentLoaded pg (rendered [0; 1; 2])).1) = ["c"; "a"; "b"].
Proof.
  intros order pg.
  pose proof (editor_full abc order) as Hfull.
  pose proof (rendered_pristine [0; 1; 2]) as Hpr.
  pose proof (abc_unique order) as Huniq.
  assert (["c"; "a"; "b"] ≡ₚ encounter (checked (rendered [0; 1; 2])) 0 (fileEntries pg))
    as Hperm.
  { replace (encounter (checked (rendered [0; 1; 2])) 0 (fileEntries pg))
      with (["a"; "b"] ++ ["c"]) by (vm_compute; reflexivity).
    apply Permutation_cons_append. }
  destruct (load_applies_complete_order pg Hfull (rendered [0; 1; 2]) Hpr Huniq
              ["c"; "a"; "b"] eq_refl Hperm) as (Ho & _ & Hi).
  split; [exact Hfull|]. split; [exact Hpr|]. split; [exact Huniq|].
  split; [exact Ho | exact (Hi eq_refl)].
Defined.

Lemma move_there_and_back_witness :
  let pg := editor abc AttrMissing in
  NoDup (item_node <$> selectedList panel_abc) ∧
  selectedList (moveSelectedItem pg (item_of 1 "b") 1
                  (moveSelectedItem pg (item_of 1 "b") (-1) panel_abc))
    = selectedList panel_abc ∧
  selectedList (moveSelectedItem pg (item_of 1 "b") (-1)
                  (moveSelectedItem pg (item_of 1 "b") 1 panel_abc))
    = selectedList panel_abc.
Proof.
  intros pg.
  assert (NoDup (item_node <$> selectedList panel_abc)) as Hnode by compute_done.
  destruct (move_there_and_back pg eq_refl panel_abc (item_of 1 "b") Hnode) as [Hup Hdown].
  split; [exact Hnode|]. split.
  - apply Hup. exists [], (item_of 0 "a"), [item_of 2 "c"]. vm_compute. reflexivity.
  - apply Hdown. exists [item_of 0 "a"], (item_of 2 "c"), []. vm_compute. reflexivity.
Defined.

Lemma preview_single_active_witness :
  let pg := editor abc AttrMissing in
  let click path := PreviewTriggerClick
                      (mkTriggerClick (mkTrigger path ("/media/" +:+ path) path) (Some path)) in
  let s := run pg (rendered []) [click "a"; PreviewCloseClick; click "c"] in
  previewActive (preview (rendered [])) = ∅ ∧
  previewActive (preview s) = {[2]}.
Proof.
  intros pg click s. split; [reflexivity|]. unfold s.
  rewrite (preview_single_active pg (rendered [])
             [click "a"; PreviewCloseClick; click "c"] eq_refl eq_refl).
  replace (activePreviewEntry (preview (run pg (rendered [])
             [click "a"; PreviewCloseClick; click "c"]))) with (Some 2)
    by (vm_compute; reflexivity).
  reflexivity.
Defined.

Lemma clear_button_is_empty_query_witness :
  let pg := editor abc AttrMissing in
  let s := run pg (rendered [1]) [SearchInput "b"] in
  (DOMContentLoaded pg (rendered [1])).2 = Normal ∧
  step pg s ClearClick = step pg s (SearchInput "").
Proof.
  intros pg s.
  assert ((DOMContentLoaded pg (rendered [1])).2 = Normal) as Hn by (vm_compute; reflexivity).
  split; [exact Hn|].
  exact (clear_button_is_empty_query pg (rendered [1]) [SearchInput "b"]
           eq_refl eq_refl eq_refl eq_refl eq_refl Hn).
Defined.

Lemma theme_toggle_flips_witness :
  let s := Theme.run Theme.modern (Theme.blank (Some "blue") true) [] in
  Theme.dataTheme s = Some "light" ∧
  Theme.dataTheme (Theme.step Theme.modern s Theme.ToggleClick) = Some "dark" ∧
  Theme.stored (Theme.step Theme.modern s Theme.ToggleClick) = Some "dark".
Proof.
  intros s.
  pose proof (theme_toggle_flips Theme.modern (Theme.blank (Some "blue") true) [] eq_refl)
    as Hflip.
  cbv zeta in Hflip. destruct Hflip as (Hflip & _ & Hstored & _).
  unfold s. split; [reflexivity|]. split.
  - rewrite Hflip. reflexivity.
  - rewrite (Hstored eq_refl), Hflip. reflexivity.
Defined.

Lemma theme_choice_survives_media_changes_witness :
  Theme.dataTheme
    (Theme.run Theme.modern (Theme.blank None false)
       ([] ++ [Theme.ToggleClick] ++ (Theme.MediaChange <$> [false; true; false])))
  = Some "dark".
Proof.
  rewrite (theme_choice_survives_media_changes Theme.modern (Theme.blank None false) []
             [false; true; false] eq_refl eq_refl eq_refl).
  reflexivity.
Defined.

Lemma theme_follows_system_without_storage_witness :
  Theme.dataTheme
    (Theme.run Theme.no_storage (Theme.blank (Some "dark") false)
       ([Theme.ToggleClick] ++ [Theme.MediaChange false]))
  = Some "light".
Proof.
  exact (theme_follows_system_without_storage Theme.no_storage
           (Theme.blank (Some "dark") false) [Theme.ToggleClick] false
           eq_refl eq_refl eq_refl).
Defined.

Lemma sample_tree_folder : tree_folder Folders.sample 1 11.
Proof. by exists (Folders.mkElement true true (Some 11)). Qed.

Lemma sample_distinct : distinct_toggles Folders.sample.
Proof.
  intros a b ela elb t Ha Hb Hta Htb.
  destruct a as [|[|[|a]]]; destruct b as [|[|[|b]]]; simplify_eq/=; done.
Qed.

Lemma folders_start_collapsed_witness :
  tree_folder Folders.sample 1 11 ∧
  1 ∈ Folders.collapsedClass (Folders.DOMContentLoaded Folders.sample Folders.unstyled) ∧
  Folders.ariaExpanded (Folders.DOMContentLoaded Folders.sample Folders.unstyled) !! 11
    = Some false.
Proof.
  pose proof sample_tree_folder as Hf.
  destruct (folders_start_collapsed Folders.sample Folders.unstyled 1 11 eq_refl Hf)
    as (Hc & _ & Ha).
  split; [exact Hf|]. split; [exact Hc | exact Ha].
Defined.

Lemma set_all_reaches_every_folder_witness :
  1 ∈ Folders.expandedClass (Folders.setAll Folders.sample true Folders.unstyled) ∧
  Folders.ariaExpanded (Folders.setAll Folders.sample true Folders.unstyled) !! 11 = Some true.
Proof.
  destruct (set_all_reaches_every_folder Folders.sample Folders.unstyled true 1
              (Folders.mkElement true true (Some 11)) eq_refl eq_refl) as (He & _ & Ha).
  split; [by apply He | by apply Ha].
Defined.

Lemma folder_state_consistent_witness :
  let s := Folders.run Folders.sample Folders.unstyled
             [Folders.ToggleClick 11; Folders.CollapseAllClick; Folders.ShowClick [2; 1]] in
  distinct_toggles Folders.sample ∧ tree_folder Folders.sample 1 11 ∧
  (1 ∈ Folders.expandedClass s ↔ 1 ∉ Folders.collapsedClass s) ∧
  Folders.ariaExpanded s !! 11 = Some (bool_decide (1 ∈ Folders.expandedClass s)).
Proof.
  intros s. pose proof sample_tree_folder as Hf. pose proof sample_distinct as Hd.
  split; [exact Hd|]. split; [exact Hf|].
  exact (folder_state_consistent Folders.sample Hd Folders.unstyled
           [Folders.ToggleClick 11; Folders.CollapseAllClick; Folders.ShowClick [2; 1]]
           1 11 eq_refl Hf).
Defined.

Lemma toggle_click_flips_witness :
  let s := Folders.run Folders.sample Folders.unstyled [] in
  let s1 := Folders.step Folders.sample s (Folders.ToggleClick 11) in
  distinct_toggles Folders.sample ∧ tree_folder Folders.sample 1 11 ∧
  1 ∈ Folders.expandedClass s1 ∧
  Folders.step Folders.sample s1 (Folders.ToggleClick 11) = s.
Proof.
  intros s s1. pose proof sample_tree_folder as Hf. pose proof sample_distinct as Hd.
  pose proof (toggle_click_flips Folders.sample Hd Folders.unstyled [] 1 11 eq_refl Hf)
    as Hflip.
  cbv zeta in Hflip. destruct Hflip as (Hflip & _ & Hback).
  unfold s1, s.
  split; [exact Hd|]. split; [exact Hf|]. split; [|exact Hback].
  apply Hflip. intros Hin.
  destruct (load_collapsed Folders.sample Folders.unstyled 1 11 eq_refl Hf) as (_ & Hne & _).
  exact (Hne Hin).
Defined.


Lemma fileEntryMap_lookup_witness :
  fileEntryMap (editor abc AttrMissing) !! "b" = Some 1 ∧
  ∃ e, fileEntries (editor abc AttrMissing) !! 1 = Some e ∧ e_path e = "b".
Proof.
  assert (fileEntryMap (editor abc AttrMissing) !! "b" = Some 1) as Hl
    by (vm_compute; reflexivity).
  split; [exact Hl|].
  exact (proj1 (proj2 (proj1 (fileEntryMap_lookup (editor abc AttrMissing) "b" 1) Hl))).
Defined.

Lemma theme_at_load_witness :
  Theme.dataTheme (Theme.DOMContentLoaded Theme.modern (Theme.blank (Some "blue") true))
    = Some "light" ∧
  Theme.dataTheme (Theme.DOMContentLoaded Theme.no_storage (Theme.blank (Some "light") true))
    = Some "dark".
Proof.
  split.
  - apply (proj1 (theme_at_load Theme.modern (Theme.blank (Some "blue") true)) "blue");
      [reflexivity | reflexivity | discriminate].
  - apply (proj2 (theme_at_load Theme.no_storage (Theme.blank (Some "light") true))).
    left. reflexivity.
Defined.

Lemma reveal_expands_ancestors_witness :
  let s := Folders.revealEntry Folders.sample [2; 1] (Folders.setAll Folders.sample false
             Folders.unstyled) in
  1 ∈ Folders.expandedClass s ∧ (1 ∉ Folders.collapsedClass s) ∧ 0 ∈ Folders.collapsedClass s.
Proof.
  intros s.
  destruct (reveal_expands_ancestors Folders.sample [2; 1]
              (Folders.setAll Folders.sample false Folders.unstyled) 1) as [Hin _].
  destruct (reveal_expands_ancestors Folders.sample [2; 1]
              (Folders.setAll Folders.sample false Folders.unstyled) 0) as [_ Hout].
  destruct (Hin (Folders.mkElement true true (Some 11))) as [He Hc];
    [set_solver | reflexivity | reflexivity |].
  split; [exact He|]. split; [exact Hc|].
  apply Hout; [set_solver|]. vm_compute. set_solver.
Defined.

End MoreConcrete.
